(** * CineAI: the persisted list store, the remote fetch primitive,
      the fallback-tiered movie source and the recommendation assembler

    A shallow embedding of [src/lib/movieStorage.ts], [src/lib/tmdb.ts] and
    the mixing loop of [src/lib/recommendations.ts], followed by the
    properties of the specification that concern them.

    Conventions of the embedding.
    - A TypeScript interface is a record with the same field names; an
      optional field ([year?: number]) is an [option], [None] standing for
      an absent or [undefined] property.
    - Effects are explicit: the storage functions pass the content of
      [localStorage] around, the network functions run in a small state and
      exception monad whose state holds the module-level cache and a log of
      the requests issued.
    - What the program cannot control is an input: the clock, whether a
      write to [localStorage] succeeds, and what each request returns. *)

From stdpp Require Import gmap strings list pretty.
From Stdlib Require Import Ascii QArith Qcanon Qround.

Close Scope Qc_scope.
Close Scope Q_scope.
Local Open Scope string_scope.
Local Open Scope list_scope.
Local Open Scope nat_scope.

(** * JavaScript primitives the program relies on *)

Module JS.

(** Numbers that identify things: provider ids, pages, and the results of
    [parseInt], which is an integer or [NaN]. Structural equality on this
    type is the SameValueZero comparison of [Array.prototype.includes]
    and of [Set]: [NaN] is equal to itself. *)
Inductive number := NaN | Int (z : Z).

#[global] Instance number_eq_dec : EqDecision number.
Proof. solve_decision. Defined.

#[global] Instance number_countable : Countable number.
Proof.
  refine (inj_countable'
            (λ n, match n with NaN => None | Int z => Some z end)
            (λ o, match o with None => NaN | Some z => Int z end) _).
  by intros [].
Defined.

(** [String(n)], as used by template literals. *)
Definition toString (n : number) : string :=
  match n with
  | NaN => "NaN"
  | Int z => pretty z
  end.

(** ToBoolean, the test behind [if (x)], [!x] and [x || y]. *)
Class Truthy (A : Type) := truthy : A → bool.

#[global] Instance string_truthy : Truthy string :=
  λ s, match s with EmptyString => false | String _ _ => true end.

(** Ratings and vote averages are finite decimal numbers. *)
#[global] Instance Qc_truthy : Truthy Qc :=
  λ q, negb (Qc_eq_bool q 0).

(** Arrays are objects: always truthy, also when empty. *)
#[global] Instance list_truthy {A} : Truthy (list A) := λ _, true.

#[global] Instance option_truthy {A} `{Truthy A} : Truthy (option A) :=
  λ o, match o with None => false | Some a => truthy a end.

(** [a || b] *)
Definition or_else {A} `{Truthy A} (a b : A) : A :=
  if truthy a then a else b.

(** A number is falsy when it is 0 or [NaN]. *)
#[global] Instance number_truthy : Truthy number :=
  λ n, match n with NaN => false | Int z => negb (z =? 0)%Z end.

(** [list.slice(0, end)]: a negative [end] counts from the end of the list. *)
Definition slice0 {A} (stop : Z) (l : list A) : list A :=
  if (stop <? 0)%Z
  then take (Z.to_nat (Z.max (Z.of_nat (length l) + stop) 0)) l
  else take (Z.to_nat stop) l.

(** White space, as [String.prototype.trim], [parseInt] and the regular
    expression class [\s] know it: the ECMAScript WhiteSpace and
    LineTerminator code points. A string is modelled by its UTF-8
    encoding, in which these code points take one, two or three bytes. *)
Definition space1 (a : ascii) : bool :=
  let n := nat_of_ascii a in
  (9 <=? n) && (n <=? 13) || (n =? 32).

(** U+00A0 *)
Definition space2 (a b : ascii) : bool :=
  (nat_of_ascii a =? 194) && (nat_of_ascii b =? 160).

(** U+1680, U+2000 to U+200A, U+2028, U+2029, U+202F, U+205F, U+3000, U+FEFF *)
Definition space3 (a b c : ascii) : bool :=
  let x := nat_of_ascii a in
  let y := nat_of_ascii b in
  let z := nat_of_ascii c in
  (x =? 225) && (y =? 154) && (z =? 128)
  || (x =? 226) && (y =? 128)
     && ((128 <=? z) && (z <=? 138) || (z =? 168) || (z =? 169) || (z =? 175))
  || (x =? 226) && (y =? 129) && (z =? 159)
  || (x =? 227) && (y =? 128) && (z =? 128)
  || (x =? 239) && (y =? 187) && (z =? 191).

Fixpoint trimStart (s : string) : string :=
  match s with
  | String a s1 =>
      if space1 a then trimStart s1
      else
        match s1 with
        | String b s2 =>
            if space2 a b then trimStart s2
            else
              match s2 with
              | String c s3 => if space3 a b c then trimStart s3 else s
              | EmptyString => s
              end
        | EmptyString => s
        end
  | EmptyString => s
  end.

(** [parseInt(s)] without a radix: leading white space is skipped, a sign
    is read, a [0x] prefix selects radix 16, and the longest prefix of
    digits is the value; no digit at all gives [NaN]. The integer is
    exact. *)
Definition digit_value (radix : Z) (a : ascii) : option Z :=
  let n := Z.of_nat (nat_of_ascii a) in
  let v :=
    (if (48 <=? n) && (n <=? 57) then Some (n - 48)
     else if (97 <=? n) && (n <=? 122) then Some (n - 87)
     else if (65 <=? n) && (n <=? 90) then Some (n - 55)
     else None)%Z in
  match v with
  | Some d => if (d <? radix)%Z then Some d else None
  | None => None
  end.

(** The value of the longest digit prefix of [s], [acc] being the value of
    the digits read so far ([None] before the first digit). *)
Fixpoint digits (radix : Z) (acc : option Z) (s : string) : option Z :=
  match s with
  | String a s' =>
      match digit_value radix a with
      | Some d => digits radix (Some (default 0 acc * radix + d))%Z s'
      | None => acc
      end
  | EmptyString => acc
  end.

Definition parseInt (s : string) : number :=
  let s := trimStart s in
  let '(sign, s) :=
    match s with
    | String "-" s' => ((-1)%Z, s')
    | String "+" s' => (1%Z, s')
    | _ => (1%Z, s)
    end in
  let '(radix, s) :=
    match s with
    | String "0" (String "x" s') | String "0" (String "X" s') => (16%Z, s')
    | _ => (10%Z, s)
    end in
  match digits radix None s with
  | Some n => Int (sign * n)
  | None => NaN
  end.

(** Numbers that measure things (ratings, averages) are rationals, and
    the arithmetic on them is exact: the rounding error of floating point
    is not modelled. [Math.round(x)] is the integer nearest to [x], the
    greater one when there are two: the integer part of [x + 1/2]. *)
Module Math.
Definition round (x : Qc) : Z := Qfloor (x + Q2Qc (1 # 2))%Qc.
End Math.

(** An integer as a number. *)
Definition of_Z (z : Z) : Qc := Q2Qc (inject_Z z).

(** A string of decimal digits. *)
Fixpoint decimal (s : string) : bool :=
  match s with
  | String a s' =>
      (48 <=? nat_of_ascii a)%nat && (nat_of_ascii a <=? 57)%nat && decimal s'
  | EmptyString => true
  end.

End JS.

(** * Strings

    A JavaScript string is modelled by its UTF-8 encoding, one byte per
    character of the Rocq string. Searching, splitting and trimming act on
    whole code points, so they agree on the two representations. *)

Module Text.
Import JS.

(** The string is white space from end to end. *)
Definition blank (s : string) : bool :=
  match trimStart s with EmptyString => true | String _ _ => false end.

(** The longest blank suffix is dropped. *)
Fixpoint trimEnd (s : string) : string :=
  match s with
  | String a s' => if blank s then EmptyString else String a (trimEnd s')
  | EmptyString => s
  end.

Definition trim (s : string) : string := trimEnd (trimStart s).

(** [s.includes(sub)] *)
Fixpoint includes (sub s : string) : bool :=
  String.prefix sub s ||
  match s with
  | String _ s' => includes sub s'
  | EmptyString => false
  end.

(** [s.split(sep)] for a separator that is not empty: the pieces between
    the occurrences of [sep], found from left to right. [skip] counts the
    bytes of an occurrence just found that are still to be passed over. *)
Fixpoint split_from (sep : string) (skip : nat) (s : string) : list string :=
  match s with
  | EmptyString => [EmptyString]
  | String a s' =>
      match skip with
      | S k => split_from sep k s'
      | O =>
          if String.prefix sep s
          then EmptyString :: split_from sep (String.length sep - 1) s'
          else
            match split_from sep 0 s' with
            | piece :: pieces => String a piece :: pieces
            | [] => [String a EmptyString]
            end
      end
  end.

Definition split (sep s : string) : list string := split_from sep 0 s.

(** [s.replace(/,\s*/g, replacement)]: every comma, together with the white
    space that follows it, becomes [replacement]. [eating] is set while
    the white space after a comma is passed over. *)
Fixpoint replace_commas (replacement : string) (eating : bool) (s : string) : string :=
  match s with
  | EmptyString => EmptyString
  | String a s1 =>
      let scan :=
        if Ascii.eqb a ","
        then replacement +:+ replace_commas replacement true s1
        else String a (replace_commas replacement false s1) in
      if eating then
        if space1 a then replace_commas replacement true s1
        else
          match s1 with
          | String b s2 =>
              if space2 a b then replace_commas replacement true s2
              else
                match s2 with
                | String c s3 =>
                    if space3 a b c then replace_commas replacement true s3 else scan
                | EmptyString => scan
                end
          | EmptyString => scan
          end
      else scan
  end.

(** [list.join(sep)] *)
Definition join (sep : string) (l : list string) : string := String.concat sep l.

End Text.

(** * The persisted list store: [src/lib/movieStorage.ts] *)

Module MovieStorage.
Import JS.

(** ** Data model *)

(** [interface StoredMovie]. The interface declares [rating: number], but
    [createStoredMovie] leaves it [undefined] when its input carries no
    rating, so the field is optional here. *)
Record StoredMovie := mkStoredMovie {
  id : string;
  title : string;
  year : option Qc;
  genre : option string;
  poster : option string;
  rating : option Qc;
  dateAdded : string;
  dateWatched : option string
}.

#[global] Instance StoredMovie_eq_dec : EqDecision StoredMovie.
Proof. solve_decision. Defined.

(** [interface MovieLists] *)
Record MovieLists := mkMovieLists {
  myList : list StoredMovie;
  watchedList : list StoredMovie;
  blockedMovies : list string
}.

#[global] Instance MovieLists_eq_dec : EqDecision MovieLists.
Proof. solve_decision. Defined.

(** [interface MovieStorage] *)
Record MovieStorage := mkMovieStorage {
  lists : MovieLists;
  embeddingProfile : list Qc;
  version : string
}.

#[global] Instance MovieStorage_eq_dec : EqDecision MovieStorage.
Proof. solve_decision. Defined.

(** Assignments to one field of [storage.lists]. *)
Definition set_myList (l : list StoredMovie) (s : MovieStorage) : MovieStorage :=
  mkMovieStorage
    (mkMovieLists l (watchedList (lists s)) (blockedMovies (lists s)))
    (embeddingProfile s) (version s).

Definition set_watchedList (l : list StoredMovie) (s : MovieStorage) : MovieStorage :=
  mkMovieStorage
    (mkMovieLists (myList (lists s)) l (blockedMovies (lists s)))
    (embeddingProfile s) (version s).

Definition set_blockedMovies (l : list string) (s : MovieStorage) : MovieStorage :=
  mkMovieStorage
    (mkMovieLists (myList (lists s)) (watchedList (lists s)) l)
    (embeddingProfile s) (version s).

(** The [movieData: any] argument of [createStoredMovie], as the record of
    the properties that function reads. *)
Module MovieData.
Record t := mk {
  id : string;
  title : string;
  year : option Qc;
  genre : option string;
  posterUrl : option string;
  poster : option string;
  userRating : option Qc;
  rating : option Qc
}.
End MovieData.

(** The [oldData: any] argument of [migrateFromOldVersion], as the record of
    the properties that function reads. A property is absent or falsy
    ([None]), or holds a value. The value of a movie list is an array,
    whose entries are movie objects or [null], or a truthy value that is
    not an array and has no [map] method. The properties of a movie object
    and the blocked ids are typed as the interfaces declare them. *)
Module OldData.
Record Movie := mkMovie {
  id : string;
  title : string;
  year : option Qc;
  genre : option string;
  poster : option string;
  rating : option Qc;
  dateAdded : option string
}.
Inductive entries :=
| NotArray
| Array (movies : list (option Movie)).
Record Lists := mkLists {
  myList : option entries;
  watchedList : option entries;
  blockedMovies : option (list string);
  wantToWatch : option entries;
  watched : option entries;
  blocked : option (list string)
}.
Record t := mk { lists : option Lists }.
End OldData.

(** Arrays and the other values of a movie list held under a property
    that is not falsy. *)
#[global] Instance entries_truthy : Truthy OldData.entries := λ _, true.

(** A document of the current shape read through the old property names. *)
Definition asOldMovie (m : StoredMovie) : OldData.Movie :=
  OldData.mkMovie (id m) (title m) (year m) (genre m) (poster m) (rating m)
    (Some (dateAdded m)).

Definition asOldData (s : MovieStorage) : OldData.t :=
  OldData.mk (Some (OldData.mkLists
    (Some (OldData.Array (Some ∘ asOldMovie <$> myList (lists s))))
    (Some (OldData.Array (Some ∘ asOldMovie <$> watchedList (lists s))))
    (Some (blockedMovies (lists s)))
    None None None)).

(** ** The device-local storage

    A JSON text is identified with the document it denotes, so that
    [JSON.parse (JSON.stringify v)] is [v]. A document is either of the
    shape of [MovieStorage] (whatever its version tag says), or any other
    value but [null], read through the properties the migration looks
    for; the version tag of the latter is by definition not
    [STORAGE_VERSION]. *)
Inductive document :=
| Current (s : MovieStorage)
| Legacy (d : OldData.t).

Inductive text :=
| Malformed              (* not JSON: [JSON.parse] throws *)
| Null                   (* the text [null] *)
| Document (d : document).

(** The browser as the store sees it: whether [window] exists at all, and
    the item kept under [STORAGE_KEY]. *)
Record browser := mkBrowser {
  window : bool;
  item : option text
}.

(** What a call finds around it: the instant [new Date().toISOString()]
    returns (one instant per call), and whether [localStorage.setItem]
    has room for the write or throws. *)
Record env := mkEnv {
  now : string;
  writable : bool
}.

Definition STORAGE_VERSION : string := "2.0".

Definition getDefaultStorage : MovieStorage :=
  mkMovieStorage (mkMovieLists [] [] []) [] STORAGE_VERSION.

(** The arrow function that [migrateFromOldVersion] maps over each of the
    four movie lists. *)
Definition migrateMovie (now : string) (movie : OldData.Movie) : StoredMovie :=
  {| id := OldData.id movie;
     title := OldData.title movie;
     year := OldData.year movie;
     genre := OldData.genre movie;
     poster := OldData.poster movie;
     rating := OldData.rating movie;
     dateAdded :=
       match OldData.dateAdded movie with
       | Some d => if truthy d then d else now
       | None => now
       end;
     dateWatched := None |}.

(** [movieList.map((movie: any) => ({ id: movie.id, ... }))]: a
    [TypeError] ([None]) when [movieList] has no [map] method, and at the
    first entry that is [null]. *)
Definition mapMovies (now : string) (movieList : OldData.entries)
    : option (list StoredMovie) :=
  match movieList with
  | OldData.NotArray => None
  | OldData.Array movies => mapM (λ movie, migrateMovie now <$> movie) movies
  end.

(** [if (field) { newStorage... = f field }], where [f field] may throw. *)
Definition when_present {A} `{Truthy A} (field : option A)
    (f : A → MovieStorage → option MovieStorage)
    (newStorage : MovieStorage) : option MovieStorage :=
  match field with
  | Some v => if truthy v then f v newStorage else Some newStorage
  | None => Some newStorage
  end.

(** The [try] block of [migrateFromOldVersion]: [None] when it throws. *)
Definition migrate (now : string) (oldData : OldData.t) (newStorage : MovieStorage)
    : option MovieStorage :=
  newStorage ←
    match OldData.lists oldData with
    | Some l =>
        newStorage ←
          when_present (OldData.myList l)
            (λ v newStorage, (λ movies, set_myList movies newStorage) <$> mapMovies now v)
            newStorage;
        newStorage ←
          when_present (OldData.watchedList l)
            (λ v newStorage, (λ movies, set_watchedList movies newStorage) <$> mapMovies now v)
            newStorage;
        newStorage ←
          when_present (OldData.blockedMovies l)
            (λ v newStorage, Some (set_blockedMovies v newStorage)) newStorage;
        newStorage ←
          when_present (OldData.wantToWatch l)
            (λ v newStorage, (λ movies, set_myList movies newStorage) <$> mapMovies now v)
            newStorage;
        newStorage ←
          when_present (OldData.watched l)
            (λ v newStorage, (λ movies, set_watchedList movies newStorage) <$> mapMovies now v)
            newStorage;
        when_present (OldData.blocked l)
          (λ v newStorage, Some (set_blockedMovies v newStorage)) newStorage
    | None => Some newStorage
    end;
  Some (mkMovieStorage (lists newStorage) [] (version newStorage)).

(** The [catch] block answers with a new default store. *)
Definition migrateFromOldVersion (now : string) (oldData : OldData.t) : MovieStorage :=
  match migrate now oldData getDefaultStorage with
  | Some newStorage => newStorage
  | None => getDefaultStorage
  end.

Definition loadMovieData (e : env) (st : browser) : MovieStorage :=
  if negb (window st) then getDefaultStorage
  else
    match item st with
    | None => getDefaultStorage
    | Some Malformed => getDefaultStorage
    | Some Null => getDefaultStorage
    | Some (Document (Current parsed)) =>
        if bool_decide (version parsed ≠ STORAGE_VERSION)
        then migrateFromOldVersion (now e) (asOldData parsed)
        else parsed
    | Some (Document (Legacy parsed)) => migrateFromOldVersion (now e) parsed
    end.

(** [JSON.stringify(data)] *)
Definition stringify (data : MovieStorage) : text := Document (Current data).

(** The guarded [localStorage.setItem(STORAGE_KEY, ...)] of [saveMovieData]. *)
Definition setItem (e : env) (st : browser) (t : text) : bool * browser :=
  if negb (window st) then (false, st)
  else if writable e then (true, mkBrowser (window st) (Some t))
  else (false, st).

Definition saveMovieData (e : env) (st : browser) (data : MovieStorage) : bool * browser :=
  setItem e st (stringify data).

Definition createStoredMovie (e : env) (movieData : MovieData.t) : StoredMovie :=
  {| id := MovieData.id movieData;
     title := MovieData.title movieData;
     year := MovieData.year movieData;
     genre := MovieData.genre movieData;
     poster := or_else (MovieData.posterUrl movieData) (MovieData.poster movieData);
     rating := or_else (MovieData.userRating movieData) (MovieData.rating movieData);
     dateAdded := now e;
     dateWatched := None |}.

(** [list.some(m => m.id === x)] *)
Definition has_id (x : string) (l : list StoredMovie) : bool :=
  bool_decide (Exists (λ m, id m = x) l).

Definition addToWantToWatchList (e : env) (st : browser) (movieData : MovieData.t)
    : MovieStorage * browser :=
  let storage := loadMovieData e st in
  let movie := createStoredMovie e movieData in
  let existsInMyList := has_id (id movie) (myList (lists storage)) in
  let existsInWatched := has_id (id movie) (watchedList (lists storage)) in
  if negb existsInMyList && negb existsInWatched then
    let storage := set_myList (myList (lists storage) ++ [movie]) storage in
    (storage, (saveMovieData e st storage).2)
  else (storage, st).

Definition addToMyList (e : env) (st : browser) (movieData : MovieData.t)
    : MovieStorage * browser :=
  let storage := loadMovieData e st in
  let movie := createStoredMovie e movieData in
  let existsInMyList := has_id (id movie) (myList (lists storage)) in
  let existsInWatched := has_id (id movie) (watchedList (lists storage)) in
  if negb existsInMyList && negb existsInWatched then
    let storage := set_myList (myList (lists storage) ++ [movie]) storage in
    (storage, (saveMovieData e st storage).2)
  else (storage, st).

(** [movie.dateWatched = new Date().toISOString()] *)
Definition set_dateWatched (d : string) (m : StoredMovie) : StoredMovie :=
  mkStoredMovie (id m) (title m) (year m) (genre m) (poster m) (rating m)
    (dateAdded m) (Some d).

(** [{ ...movie, dateAdded: d }] *)
Definition set_dateAdded (d : string) (m : StoredMovie) : StoredMovie :=
  mkStoredMovie (id m) (title m) (year m) (genre m) (poster m) (rating m)
    d (dateWatched m).

Definition addToWatchedList (e : env) (st : browser) (movieData : MovieData.t)
    : MovieStorage * browser :=
  let storage := loadMovieData e st in
  let movie := createStoredMovie e movieData in
  let movie := set_dateWatched (now e) movie in
  let storage :=
    set_myList (filter (λ m, id m ≠ id movie) (myList (lists storage))) storage in
  let storage :=
    match list_find (λ m, id m = id movie) (watchedList (lists storage)) with
    | Some (existingIndex, _) =>
        set_watchedList (<[existingIndex := movie]> (watchedList (lists storage))) storage
    | None =>
        set_watchedList (movie :: watchedList (lists storage)) storage
    end in
  (storage, (saveMovieData e st storage).2).

Inductive listType := MyList | WatchedList.

Definition removeFromList (e : env) (st : browser) (movieId : string) (lt : listType)
    : MovieStorage * browser :=
  let storage := loadMovieData e st in
  let storage :=
    match lt with
    | MyList =>
        set_myList (filter (λ m, id m ≠ movieId) (myList (lists storage))) storage
    | WatchedList =>
        set_watchedList (filter (λ m, id m ≠ movieId) (watchedList (lists storage))) storage
    end in
  (storage, (saveMovieData e st storage).2).

Definition moveToWantToWatchList (e : env) (st : browser) (movieId : string)
    : MovieStorage * browser :=
  let storage := loadMovieData e st in
  match list_find (λ m, id m = movieId) (watchedList (lists storage)) with
  | Some (movieIndex, movie) =>
      let storage :=
        set_watchedList (delete movieIndex (watchedList (lists storage))) storage in
      let storage :=
        set_myList (myList (lists storage) ++ [set_dateAdded (now e) movie]) storage in
      (storage, (saveMovieData e st storage).2)
  | None => (storage, st)
  end.

Definition moveToMyList (e : env) (st : browser) (movieId : string)
    : MovieStorage * browser :=
  let storage := loadMovieData e st in
  match list_find (λ m, id m = movieId) (watchedList (lists storage)) with
  | Some (movieIndex, movie) =>
      let storage :=
        set_watchedList (delete movieIndex (watchedList (lists storage))) storage in
      let storage :=
        set_myList (myList (lists storage) ++ [set_dateAdded (now e) movie]) storage in
      (storage, (saveMovieData e st storage).2)
  | None => (storage, st)
  end.

Definition reorderMyList (e : env) (st : browser) (newOrder : list StoredMovie)
    : MovieStorage * browser :=
  let storage := loadMovieData e st in
  let storage := set_myList newOrder storage in
  (storage, (saveMovieData e st storage).2).

Definition blockMovie (e : env) (st : browser) (movieId : string)
    : MovieStorage * browser :=
  let storage := loadMovieData e st in
  if negb (bool_decide (movieId ∈ blockedMovies (lists storage))) then
    let storage := set_blockedMovies (blockedMovies (lists storage) ++ [movieId]) storage in
    (storage, (saveMovieData e st storage).2)
  else (storage, st).

Definition clearAllData (st : browser) : browser :=
  if window st then mkBrowser (window st) None else st.

Definition exportData (e : env) (st : browser) : text :=
  stringify (loadMovieData e st).

(** [JSON.parse] throws on a malformed text, and the [catch] returns
    [false]; any value it returns is handed to [saveMovieData], which
    writes it back as the same document. *)
Definition importData (e : env) (st : browser) (jsonData : text) : bool * browser :=
  match jsonData with
  | Malformed => (false, st)
  | data => setItem e st data
  end.

(** The object [getUserStats] returns. *)
Record UserStats := mkUserStats {
  totalMoviesWatched : nat;
  totalMoviesRated : nat;
  averageRating : Qc;
  totalMoviesInMyList : nat;
  totalBlockedMovies : nat;
  lastUpdated : string
}.

(** [watchedMovies.filter(m => m.rating)] *)
Definition ratedMovies (watchedMovies : list StoredMovie) : list StoredMovie :=
  filter (λ m, truthy (rating m) = true) watchedMovies.

(** [ratedMovies.reduce((sum, movie) => sum + movie.rating, 0)]: every
    movie that passed the filter has a rating. *)
Definition totalRating (ratedMovies : list StoredMovie) : Qc :=
  foldl Qcplus (Q2Qc 0) (omap rating ratedMovies).

Definition getUserStats (e : env) (st : browser) : UserStats :=
  let storage := loadMovieData e st in
  let watchedMovies := watchedList (lists storage) in
  let ratedMovies := ratedMovies watchedMovies in
  let totalRating := totalRating ratedMovies in
  let averageRating :=
    if bool_decide (0 < length ratedMovies)
    then (of_Z (Math.round
                  (totalRating / of_Z (Z.of_nat (length ratedMovies)) * of_Z 10))
          / of_Z 10)%Qc
    else Q2Qc 0 in
  {| totalMoviesWatched := length watchedMovies;
     totalMoviesRated := length ratedMovies;
     averageRating := averageRating;
     totalMoviesInMyList := length (myList (lists storage));
     totalBlockedMovies := length (blockedMovies (lists storage));
     lastUpdated := now e |}.

(** ** Sessions: finite sequences of calls to the public mutators *)

Inductive call :=
| AddToWantToWatchList (movieData : MovieData.t)
| AddToMyList (movieData : MovieData.t)
| AddToWatchedList (movieData : MovieData.t)
| RemoveFromList (movieId : string) (lt : listType)
| MoveToWantToWatchList (movieId : string)
| MoveToMyList (movieId : string)
| ReorderMyList (newOrder : list StoredMovie)
| BlockMovie (movieId : string)
| ClearAllData.

(** One call: the store it returns ([clearAllData] returns none) and the
    browser it leaves behind. *)
Definition perform (e : env) (c : call) (st : browser) : option MovieStorage * browser :=
  let returning (r : MovieStorage * browser) := (Some r.1, r.2) in
  match c with
  | AddToWantToWatchList movieData => returning (addToWantToWatchList e st movieData)
  | AddToMyList movieData => returning (addToMyList e st movieData)
  | AddToWatchedList movieData => returning (addToWatchedList e st movieData)
  | RemoveFromList movieId lt => returning (removeFromList e st movieId lt)
  | MoveToWantToWatchList movieId => returning (moveToWantToWatchList e st movieId)
  | MoveToMyList movieId => returning (moveToMyList e st movieId)
  | ReorderMyList newOrder => returning (reorderMyList e st newOrder)
  | BlockMovie movieId => returning (blockMovie e st movieId)
  | ClearAllData => (None, clearAllData st)
  end.

Fixpoint run (calls : list (env * call)) (st : browser) : browser :=
  match calls with
  | [] => st
  | (e, c) :: calls' => run calls' (perform e c st).2
  end.

(** The stores returned by the calls of a session, in order. *)
Fixpoint returned (calls : list (env * call)) (st : browser) : list MovieStorage :=
  match calls with
  | [] => []
  | (e, c) :: calls' =>
      match (perform e c st).1 with
      | Some storage => storage :: returned calls' (perform e c st).2
      | None => returned calls' (perform e c st).2
      end
  end.

(** First access: nothing is stored yet, and [loadMovieData] answers with
    the all-empty default store. *)
Definition fresh (w : bool) : browser := mkBrowser w None.

(** The calls that add to a list, remove from a list, or move between
    the two lists. *)
Definition list_call (c : call) : bool :=
  match c with
  | AddToWantToWatchList _ | AddToMyList _ | AddToWatchedList _
  | RemoveFromList _ _ | MoveToWantToWatchList _ | MoveToMyList _ => true
  | ReorderMyList _ | BlockMovie _ | ClearAllData => false
  end.

(** ** Vocabulary for the statements *)

Definition ids (l : list StoredMovie) : list string := id <$> l.
Arguments ids : simpl never.

(** No movie id is in both [myList] and [watchedList]. *)
Definition disjoint_lists (s : MovieStorage) : Prop :=
  ∀ x, x ∈ ids (myList (lists s)) → x ∉ ids (watchedList (lists s)).

(** The store the list calls maintain: the two lists share no id, no id
    occurs twice in [watchedList], and the version tag is current. *)
Definition well_kept (s : MovieStorage) : Prop :=
  disjoint_lists s ∧ NoDup (ids (watchedList (lists s))) ∧ version s = STORAGE_VERSION.

(** The item under [STORAGE_KEY] is absent or a document of the current
    shape that satisfies [P]. *)
Definition stored (P : MovieStorage → Prop) (st : browser) : Prop :=
  match item st with
  | None => True
  | Some (Document (Current s)) => P s
  | Some _ => False
  end.

Definition current_version (s : MovieStorage) : Prop := version s = STORAGE_VERSION.

(** The calls other than [reorderMyList], which stores the list it is
    given as it is; and the calls other than [clearAllData]. *)
Definition not_reorder (c : call) : bool :=
  match c with
  | ReorderMyList _ => false
  | _ => true
  end.

Definition not_clear (c : call) : bool :=
  match c with
  | ClearAllData => false
  | _ => true
  end.

(** A movie list of the old data that the migration can map: it is
    absent, or an array without a [null] entry. *)
Definition whole (field : option OldData.entries) : bool :=
  match field with
  | None => true
  | Some OldData.NotArray => false
  | Some (OldData.Array movies) =>
      forallb (λ movie, match movie with Some _ => true | None => false end) movies
  end.

Definition migratable (l : OldData.Lists) : bool :=
  whole (OldData.myList l) && whole (OldData.watchedList l)
  && whole (OldData.wantToWatch l) && whole (OldData.watched l).

(** A well kept store in which, moreover, no id occurs twice in [myList]
    or in [blockedMovies]. *)
Definition tidy (s : MovieStorage) : Prop :=
  well_kept s ∧ NoDup (ids (myList (lists s))) ∧ NoDup (blockedMovies (lists s)).

End MovieStorage.

(** * The remote fetch primitive and the movie source: [src/lib/tmdb.ts] *)

Module Tmdb.
Import JS.

Definition TMDB_BASE_URL : string := "https://api.themoviedb.org/3".

Module RETRY_CONFIG.
Definition maxRetries : nat := 2.
Definition retryDelay : nat := 500.
Definition timeout : nat := 5000.
End RETRY_CONFIG.

(** ** Data model *)

(** [interface TMDBMovie], with the type of [id] left open: the provider
    sends numbers, the bundled document may hold strings. *)
Record Movie (I : Type) := mkMovie {
  id : I;
  title : string;
  overview : string;
  poster_path : option string;
  backdrop_path : option string;
  release_date : string;
  vote_average : Qc;
  vote_count : number;
  genre_ids : list number
}.
Arguments mkMovie {I}.
Arguments id {I}.
Arguments title {I}.
Arguments overview {I}.
Arguments poster_path {I}.
Arguments backdrop_path {I}.
Arguments release_date {I}.
Arguments vote_average {I}.
Arguments vote_count {I}.
Arguments genre_ids {I}.

Definition TMDBMovie : Type := Movie number.

#[global] Instance Movie_eq_dec {I} `{EqDecision I} : EqDecision (Movie I).
Proof. solve_decision. Defined.

(** [{ ...movie, id: i }] *)
Definition set_id {I J} (i : J) (movie : Movie I) : Movie J :=
  mkMovie i (title movie) (overview movie) (poster_path movie)
    (backdrop_path movie) (release_date movie) (vote_average movie)
    (vote_count movie) (genre_ids movie).

(** What [response.json()] yields, as far as the callers look: a
    [results] array of the provider (entries may be [null]), the [popular]
    array of the bundled document, or anything else; or, when the text of
    the response is not JSON, the [SyntaxError] the promise is rejected
    with. *)
Inductive body :=
| Results (results : list (option TMDBMovie))
| Popular (popular : list (Movie (string + number)))
| Other
| NotJSON (error : string).

Record Response := mkResponse {
  ok : bool;
  status : nat;
  statusText : string;
  json : body
}.

(** How one [fetch] ends: with a response, with a network error, or with
    no answer in time. In [fetchWithRetry], a request still pending when
    the timer of [RETRY_CONFIG.timeout] milliseconds fires is aborted
    through the [AbortController] of the attempt; this is the only way
    that controller's signal becomes aborted. A plain [fetch] has no
    timer: it is rejected when the browser gives the request up. *)
Inductive attempt :=
| Responded (response : Response)
| NetworkError
| TimedOut.

(** The configuration and the network: the credential read from the
    environment, and what the request to [url] issued as the [n]-th effect
    of the process is answered with. *)
Record env := mkEnv {
  TMDB_API_KEY : option string;
  net : string → nat → attempt
}.

Inductive event :=
| Fetch (url : string)
| Sleep (ms : nat).

(** The module-level variable [cachedFallbackMovies], and the effects
    performed so far. *)
Record state := mkState {
  cachedFallbackMovies : option (list TMDBMovie);
  log : list event
}.

(** ** A state and exception monad for the asynchronous functions *)

Inductive outcome (A : Type) :=
| Return (a : A)
| Throw (error : string).
Arguments Return {A}.
Arguments Throw {A}.

Definition M (A : Type) : Type := state → outcome A * state.

#[global] Instance M_ret : MRet M := λ A a st, (Return a, st).

#[global] Instance M_bind : MBind M := λ A B f m st,
  match m st with
  | (Return a, st') => f a st'
  | (Throw error, st') => (Throw error, st')
  end.

Definition throw {A} (error : string) : M A := λ st, (Throw error, st).

(** [try { m } catch (error) { handler error }] *)
Definition try_catch {A} (m : M A) (handler : string → M A) : M A := λ st,
  match m st with
  | (Return a, st') => (Return a, st')
  | (Throw error, st') => handler error st'
  end.

Definition fetch (e : env) (url : string) : M attempt := λ st,
  (Return (net e url (length (log st))),
   mkState (cachedFallbackMovies st) (log st ++ [Fetch url])).

(** [await new Promise(resolve => setTimeout(resolve, ms))] *)
Definition sleep (ms : nat) : M unit := λ st,
  (Return (), mkState (cachedFallbackMovies st) (log st ++ [Sleep ms])).

Definition get_cached : M (option (list TMDBMovie)) := λ st,
  (Return (cachedFallbackMovies st), st).

Definition set_cached (movies : list TMDBMovie) : M unit := λ st,
  (Return (), mkState (Some movies) (log st)).

(** ** The remote fetch primitive *)

(** The [catch] block sees [controller.signal.aborted], which is [true]
    exactly when the attempt timed out. *)
Fixpoint fetchWithRetry (e : env) (url : string) (retries : nat) : M Response :=
  a ← fetch e url;
  let catch (error : string) (aborted : bool) : M Response :=
    match retries with
    | S retries' =>
        if negb aborted then
          _ ← sleep RETRY_CONFIG.retryDelay;
          fetchWithRetry e url retries'
        else throw error
    | O => throw error
    end in
  match a with
  | Responded response =>
      if negb (ok response) then
        catch ("HTTP " +:+ pretty (status response) +:+ ": " +:+ statusText response) false
      else mret response
  | NetworkError => catch "Failed to fetch" false
  | TimedOut => catch "The operation was aborted" true
  end.

(** ** Provider calls *)

Definition key (e : env) : string := default "" (TMDB_API_KEY e).

(** [response.json()], a promise: it is rejected when the text is not
    JSON. *)
Definition read_json (response : Response) : M body :=
  match json response with
  | NotJSON error => throw error
  | parsed => mret parsed
  end.

(** [try { const response = await fetchWithRetry(url); return response.json(); }
    catch (error) { throw new Error(failure); }]: the promise of
    [response.json()] is returned without [await], so that it settles
    once the [try] block is left, and its rejection is not caught. *)
Definition retrying (e : env) (url failure : string) : M body :=
  response ← try_catch (fetchWithRetry e url RETRY_CONFIG.maxRetries) (λ _, throw failure);
  read_json response.

Definition getPopularMovies (e : env) (page : number) : M body :=
  if negb (truthy (TMDB_API_KEY e)) then throw "TMDB API key is not configured"
  else
    retrying e
      (TMDB_BASE_URL +:+ "/movie/popular?api_key=" +:+ key e +:+ "&page=" +:+ toString page)
      "Failed to get popular movies".

Inductive timeWindow := day | week.

Definition timeWindow_string (t : timeWindow) : string :=
  match t with day => "day" | week => "week" end.

Definition getTrendingMovies (e : env) (t : timeWindow) : M body :=
  if negb (truthy (TMDB_API_KEY e)) then throw "TMDB API key is not configured"
  else
    retrying e
      (TMDB_BASE_URL +:+ "/trending/movie/" +:+ timeWindow_string t +:+ "?api_key=" +:+ key e)
      "Failed to get trending movies".

(** A plain [fetch], without timer and without retry. *)
Definition getSimilarMovies (e : env) (movieId : number) (page : number) : M body :=
  if negb (truthy (TMDB_API_KEY e)) then throw "TMDB API key is not configured"
  else
    a ← fetch e
      (TMDB_BASE_URL +:+ "/movie/" +:+ toString movieId +:+ "/similar?api_key=" +:+ key e
         +:+ "&page=" +:+ toString page);
    match a with
    | Responded response =>
        if negb (ok response) then throw "Failed to get similar movies"
        else read_json response
    | NetworkError | TimedOut => throw "Failed to fetch"
    end.

(** ** The fallback *)

Definition fallbackPath : string := "/data/fallback-movies.json".

Definition hardcodedFallback : list TMDBMovie :=
  [ mkMovie (Int 550) "Fight Club"
      "A ticking-time-bomb insomniac and a slippery soap salesman channel primal male aggression into a shocking new form of therapy."
      (Some "/pB8BM7pdSp6B6Ih7QZ4DrQ3PmJK.jpg") None "1999-10-15"
      (Q2Qc (84 # 10)) (Int 26280) [Int 18; Int 53];
    mkMovie (Int 278) "The Shawshank Redemption"
      "Framed in the 1940s for the double murder of his wife and her lover, upstanding banker Andy Dufresne begins a new life at the Shawshank prison."
      (Some "/q6y0Go1tsGEsmtFryDOJo3dEmqu.jpg") None "1994-09-23"
      (Q2Qc (87 # 10)) (Int 24916) [Int 18; Int 80] ].

(** [typeof movie.id === 'string' ? parseInt(movie.id) : movie.id] *)
Definition coerceId (movie : Movie (string + number)) : TMDBMovie :=
  set_id (match id movie with inl s => parseInt s | inr n => n end) movie.

Definition loadFallbackMovies (e : env) : M (list TMDBMovie) :=
  cached ← get_cached;
  match cached with
  | Some movies => mret movies
  | None =>
      try_catch
        (a ← fetch e fallbackPath;
         match a with
         | Responded response =>
             if negb (ok response) then throw "Failed to load fallback data"
             else
               match json response with
               | Popular popular =>
                   let movies := coerceId <$> popular in
                   _ ← set_cached movies;
                   mret movies
               | Results _ | Other => throw "Cannot read properties of undefined"
               | NotJSON error => throw error
               end
         | NetworkError | TimedOut => throw "Failed to fetch"
         end)
        (λ _,
           _ ← set_cached hardcodedFallback;
           mret hardcodedFallback)
  end.

(** [loadFallbackMovies] cut at [await fetch(...)], where the call is
    suspended and other calls of the process may run. The first part tests
    the cache and, when it is empty, issues the request; the second part
    runs once the request has settled: it reads the response and writes the
    cache. The call is suspended once more, at [await response.json()];
    nothing is read from or written to the state between the two
    suspensions, so the second part is taken in one step. *)
Definition loadFallbackMovies_started (e : env) : M (list TMDBMovie + attempt) :=
  cached ← get_cached;
  match cached with
  | Some movies => mret (inl movies)
  | None =>
      a ← fetch e fallbackPath;
      mret (inr a)
  end.

Definition loadFallbackMovies_resumed (r : list TMDBMovie + attempt) : M (list TMDBMovie) :=
  match r with
  | inl movies => mret movies
  | inr a =>
      try_catch
        match a with
        | Responded response =>
            if negb (ok response) then throw "Failed to load fallback data"
            else
              match json response with
              | Popular popular =>
                  let movies := coerceId <$> popular in
                  _ ← set_cached movies;
                  mret movies
              | Results _ | Other => throw "Cannot read properties of undefined"
              | NotJSON error => throw error
              end
        | NetworkError | TimedOut => throw "Failed to fetch"
        end
        (λ _,
           _ ← set_cached hardcodedFallback;
           mret hardcodedFallback)
  end.

(** Two calls of [loadFallbackMovies] that overlap: the second is started
    while the first waits for its response. *)
Definition loadFallbackMovies_overlapping (e : env) : M (list TMDBMovie * list TMDBMovie) :=
  first ← loadFallbackMovies_started e;
  second ← loadFallbackMovies_started e;
  first ← loadFallbackMovies_resumed first;
  second ← loadFallbackMovies_resumed second;
  mret (first, second).

(** ** The tiers *)

(** [x.results], spread or sliced: a [TypeError] unless it is an array. *)
Definition results_of (b : body) : M (list (option TMDBMovie)) :=
  match b with
  | Results results => mret results
  | Popular _ | Other | NotJSON _ => throw "undefined is not iterable"
  end.

(** The [for ... of recentWatched] loop of strategy 3, with its [break]. *)
Fixpoint similarLoop (e : env) (recentWatched : list MovieStorage.StoredMovie)
    (recommendations : list (option TMDBMovie)) : M (list (option TMDBMovie)) :=
  match recentWatched with
  | [] => mret recommendations
  | movie :: rest =>
      (try_catch
             (let movieId := parseInt (MovieStorage.id movie) in
              similar ← getSimilarMovies e movieId (Int 1);
              results ← results_of similar;
              let recommendations := recommendations ++ take 5 results in
              mret (recommendations, bool_decide (25 ≤ length recommendations)%nat))
             (λ _, mret (recommendations, false))
           : M (list (option TMDBMovie) * bool))
      ≫= λ r : list (option TMDBMovie) * bool,
        if r.2 then mret r.1 else similarLoop e rest r.1
  end.

(** Strategies 1 to 3: the accumulator [recommendations]. *)
Definition gather (e : env) (watchedMovies : list MovieStorage.StoredMovie)
    : M (list (option TMDBMovie)) :=
  let recommendations := [] in
  recommendations ←
    try_catch
      (popular ← getPopularMovies e (Int 1);
       results ← results_of popular;
       mret (recommendations ++ results))
      (λ _, mret recommendations);
  recommendations ←
    (if bool_decide (length recommendations < 15)%nat then
       try_catch
         (trending ← getTrendingMovies e week;
          results ← results_of trending;
          mret (recommendations ++ results))
         (λ _, mret recommendations)
     else mret recommendations);
  if bool_decide (0 < length recommendations)%nat && bool_decide (0 < length watchedMovies)%nat
  then similarLoop e (take 2 watchedMovies) recommendations
  else mret recommendations.

(** The [filter] callback with its [seen] set: entries that are falsy,
    already seen or excluded are dropped, the others are kept and
    remembered. *)
Fixpoint unique (excludeIds : list number) (seen : gset number)
    (recommendations : list (option TMDBMovie)) : list TMDBMovie :=
  match recommendations with
  | [] => []
  | None :: rest => unique excludeIds seen rest
  | Some movie :: rest =>
      if bool_decide (id movie ∈ seen) || bool_decide (id movie ∈ excludeIds)
      then unique excludeIds seen rest
      else movie :: unique excludeIds ({[id movie]} ∪ seen) rest
  end.

Definition excludeIds_of (excludeWatchedIds excludeBlockedIds : list string) : list number :=
  parseInt <$> (excludeWatchedIds ++ excludeBlockedIds).

(** [fallbackMovies.filter(movie => !excludeIds.includes(movie.id))] *)
Definition not_excluded (excludeIds : list number) (movies : list TMDBMovie)
    : list TMDBMovie :=
  filter (λ movie, id movie ∉ excludeIds) movies.

Definition getRecommendations (e : env)
    (excludeWatchedIds excludeBlockedIds : list string)
    (watchedMovies : list MovieStorage.StoredMovie) : M (list TMDBMovie) :=
  let excludeIds := excludeIds_of excludeWatchedIds excludeBlockedIds in
  if negb (truthy (TMDB_API_KEY e)) then
    fallbackMovies ← loadFallbackMovies e;
    mret (not_excluded excludeIds fallbackMovies)
  else
    try_catch
      (recommendations ← gather e watchedMovies;
       let uniqueRecommendations := take 20 (unique excludeIds ∅ recommendations) in
       if bool_decide (0 < length uniqueRecommendations)%nat then mret uniqueRecommendations
       else throw "No recommendations from API")
      (λ _,
         try_catch
           (fallbackMovies ← loadFallbackMovies e;
            mret (not_excluded excludeIds fallbackMovies))
           (λ _, mret [])).

(** ** The other provider calls *)

(** [encodeURIComponent] is the platform's; it is an argument here. *)
Definition searchMovies (encodeURIComponent : string → string) (e : env)
    (query : string) (page : number) : M body :=
  if negb (truthy (TMDB_API_KEY e)) then throw "TMDB API key is not configured"
  else
    retrying e
      (TMDB_BASE_URL +:+ "/search/movie?api_key=" +:+ key e +:+ "&query="
         +:+ encodeURIComponent query +:+ "&page=" +:+ toString page)
      "Failed to search movies".

(** The calls that use a plain [fetch]: one request, an error thrown on a
    status that is not a success. *)
Definition fetchOnce (e : env) (url failure : string) : M body :=
  if negb (truthy (TMDB_API_KEY e)) then throw "TMDB API key is not configured"
  else
    a ← fetch e url;
    match a with
    | Responded response =>
        if negb (ok response) then throw failure else read_json response
    | NetworkError | TimedOut => throw "Failed to fetch"
    end.

Definition getTopRatedMovies (e : env) (page : number) : M body :=
  fetchOnce e
    (TMDB_BASE_URL +:+ "/movie/top_rated?api_key=" +:+ key e +:+ "&page=" +:+ toString page)
    "Failed to get top rated movies".

Definition getNowPlayingMovies (e : env) (page : number) : M body :=
  fetchOnce e
    (TMDB_BASE_URL +:+ "/movie/now_playing?api_key=" +:+ key e +:+ "&page=" +:+ toString page)
    "Failed to get now playing movies".

Definition getUpcomingMovies (e : env) (page : number) : M body :=
  fetchOnce e
    (TMDB_BASE_URL +:+ "/movie/upcoming?api_key=" +:+ key e +:+ "&page=" +:+ toString page)
    "Failed to get upcoming movies".

Definition getMovieRecommendations (e : env) (movieId : number) (page : number) : M body :=
  fetchOnce e
    (TMDB_BASE_URL +:+ "/movie/" +:+ toString movieId +:+ "/recommendations?api_key="
       +:+ key e +:+ "&page=" +:+ toString page)
    "Failed to get movie recommendations".

(** ** Images, trailers and the conversion to the application's movies *)

Definition getImageUrl (path : option string) (size : string) : string :=
  if negb (truthy path) then ""
  else "https://image.tmdb.org/t/p/" +:+ size +:+ default "" path.

(** [interface TMDBVideo] *)
Module TMDBVideo.
Record t := mk {
  id : string;
  iso_639_1 : string;
  iso_3166_1 : string;
  key : string;
  name : string;
  site : string;
  size : number;
  type : string
}.
End TMDBVideo.

(** [video.site === 'YouTube' && video.type === 'Trailer'] *)
Definition isYouTubeTrailer (video : TMDBVideo.t) : bool :=
  String.eqb (TMDBVideo.site video) "YouTube" && String.eqb (TMDBVideo.type video) "Trailer".

(** [getTrailerUrl] reads [movieDetails.videos?.results] only, which is its
    argument here ([None] when [videos] or [results] is missing).
    [toLowerCase] is the platform's. *)
Definition getTrailerUrl (toLowerCase : string → string)
    (videos : option (list TMDBVideo.t)) : option string :=
  match videos with
  | None => None
  | Some results =>
      let trailers := List.filter isYouTubeTrailer results in
      match trailers with
      | [] => None
      | first :: _ =>
          let officialTrailer :=
            List.find
              (λ trailer,
                 Text.includes "official trailer" (toLowerCase (TMDBVideo.name trailer)))
              trailers in
          let selectedTrailer := default first officialTrailer in
          Some ("https://www.youtube.com/watch?v=" +:+ TMDBVideo.key selectedTrailer)
      end
  end.

(** What [convertTMDBToMovie] computes outside the integers: the stars
    [Math.round(vote_average * 10) / 20], in floating point, and the year
    [new Date(release_date).getFullYear()], in the local time zone. *)
Record platform := mkPlatform {
  stars : Qc → Qc;
  fullYear : string → number
}.

(** The object [convertTMDBToMovie] returns. A movie of a listing has no
    [genres] property, so that [genre] is left undefined. *)
Module Converted.
Record t := mk {
  id : string;
  poster : option string;
  title : string;
  rating : Qc;
  year : option number;
  genre : option string
}.
End Converted.

Definition convertTMDBToMovie (p : platform) (tmdbMovie : TMDBMovie) : Converted.t :=
  {| Converted.id := toString (id tmdbMovie);
     Converted.poster :=
       if truthy (poster_path tmdbMovie)
       then Some (getImageUrl (poster_path tmdbMovie) "w500")
       else None;
     Converted.title := title tmdbMovie;
     Converted.rating := stars p (vote_average tmdbMovie);
     Converted.year :=
       if truthy (release_date tmdbMovie)
       then Some (fullYear p (release_date tmdbMovie))
       else None;
     Converted.genre := None |}.

(** ** Vocabulary for the statements *)

(** Requests addressed to the provider. *)
Definition provider_url (url : string) : bool := String.prefix TMDB_BASE_URL url.

Definition provider_event (ev : event) : bool :=
  match ev with
  | Fetch url => provider_url url
  | Sleep _ => false
  end.

(** An attempt that does not deliver a successful response. *)
Definition failed (a : attempt) : bool :=
  match a with
  | Responded response => negb (ok response)
  | NetworkError | TimedOut => true
  end.

(** A process that has just started. *)
Definition initial : state := mkState None [].

(** The state after a request to [url], and after that request and the
    backoff that follows it. *)
Definition requested (url : string) (st : state) : state :=
  mkState (cachedFallbackMovies st) (log st ++ [Fetch url]).

Definition backed_off (url : string) (st : state) : state :=
  mkState (cachedFallbackMovies st)
    ((log st ++ [Fetch url]) ++ [Sleep RETRY_CONFIG.retryDelay]).

(** The bundled dataset as an attempt to load it delivers it: the
    [popular] array of a successful response, ids coerced. *)
Definition bundled_of (a : attempt) : option (list TMDBMovie) :=
  match a with
  | Responded response =>
      if ok response then
        match json response with
        | Popular popular => Some (coerceId <$> popular)
        | Results _ | Other | NotJSON _ => None
        end
      else None
  | NetworkError | TimedOut => None
  end.

(** What [loadFallbackMovies] hands out in a given state. *)
Definition fallback_at (e : env) (st : state) : list TMDBMovie :=
  match cachedFallbackMovies st with
  | Some movies => movies
  | None => default hardcodedFallback (bundled_of (net e fallbackPath (length (log st))))
  end.

(** A computation that leaves the cache as it found it. *)
Definition keeps_cache {A} (m : M A) : Prop :=
  ∀ st, cachedFallbackMovies (m st).2 = cachedFallbackMovies st.

(** The number of requests among some effects. *)
Fixpoint fetches (evs : list event) : nat :=
  match evs with
  | [] => 0
  | Fetch _ :: evs' => S (fetches evs')
  | Sleep _ :: evs' => fetches evs'
  end.

(** The number of backoffs among some effects, and of requests for the
    bundled dataset. *)
Fixpoint sleeps (evs : list event) : nat :=
  match evs with
  | [] => 0
  | Sleep _ :: evs' => S (sleeps evs')
  | Fetch _ :: evs' => sleeps evs'
  end.

Definition fallback_event (ev : event) : bool :=
  match ev with
  | Fetch url => String.eqb url fallbackPath
  | Sleep _ => false
  end.

Definition fallback_fetches (evs : list event) : nat :=
  length (List.filter fallback_event evs).

(** A computation that performs at most [n] requests and [k] backoffs,
    none of the requests being for the bundled dataset, and that leaves the
    cache as it found it. *)
Definition spends {A} (n k : nat) (m : M A) : Prop :=
  ∀ st, ∃ evs,
    log (m st).2 = log st ++ evs ∧
    fetches evs ≤ n ∧ sleeps evs ≤ k ∧ fallback_fetches evs = 0 ∧
    cachedFallbackMovies (m st).2 = cachedFallbackMovies st.

(** A sequence of calls to [getRecommendations] in one process, made one
    after the other: each call is awaited before the next is started. *)
Fixpoint recommend_all (e : env)
    (requests : list (list string * list string * list MovieStorage.StoredMovie))
    (st : state) : state :=
  match requests with
  | [] => st
  | (excludeWatchedIds, excludeBlockedIds, watchedMovies) :: rest =>
      recommend_all e rest
        (getRecommendations e excludeWatchedIds excludeBlockedIds watchedMovies st).2
  end.

End Tmdb.

(** * The recommendation assembler: the mixing loop of
      [src/lib/recommendations.ts] *)

Module Recommendations.
Import JS.

(** [interface SimpleMovie] *)
Record SimpleMovie := mkSimpleMovie {
  id : string;
  title : string;
  year : option number;
  genre : option string;
  poster : option string;
  rating : Qc;
  synopsis : option string
}.

Definition maxPerCategory : nat := 4.

(** The [for ... of categoryMovies] loop: [mixed], [addedIds] and the
    counter [added] of the current category. *)
Fixpoint addCategory (categoryMovies : list SimpleMovie)
    (mixed : list SimpleMovie) (addedIds : gset string) (added : nat)
    : list SimpleMovie * gset string :=
  match categoryMovies with
  | [] => (mixed, addedIds)
  | movie :: rest =>
      if negb (bool_decide (id movie ∈ addedIds)) && bool_decide (added < maxPerCategory)%nat
      then addCategory rest (mixed ++ [movie]) ({[id movie]} ∪ addedIds) (S added)
      else addCategory rest mixed addedIds added
  end.

(** The body of [getMixedRecommendations] once the three fetchers have
    resolved. Each of them catches its own errors and resolves to a list,
    so the [Promise.all] does not reject. *)
Definition getMixedRecommendations (popular trending topRated : list SimpleMovie)
    : list SimpleMovie :=
  let acc : list SimpleMovie * gset string :=
    foldl (λ (acc : list SimpleMovie * gset string) categoryMovies,
             addCategory categoryMovies acc.1 acc.2 0)
          ([], ∅) [popular; trending; topRated] in
  take 10 acc.1.

(** ** Genres *)

Definition parseGenres (genreString : string) : list string :=
  if negb (truthy genreString) then []
  else
    let delimiter := if Text.includes "," genreString then "," else " • " in
    filter (λ genre, 0 < String.length genre)
      (Text.trim <$> Text.split delimiter genreString).

Definition formatGenresForDisplay (genreString : string) : string :=
  if negb (truthy genreString) then ""
  else if Text.includes " • " genreString then genreString
  else Text.replace_commas " • " false genreString.

(** ** The exclusion filter *)

(** [interface UserLists] *)
Module UserLists.
Record entry := mkEntry { id : string }.
Record t := mk {
  watchedList : list entry;
  blockedMovies : list string
}.
End UserLists.

(** The set [excludedIds]: the truthy ids of the watched entries and the
    truthy blocked ids. *)
Definition excludedIds_of (userLists : UserLists.t) : gset string :=
  let excludedIds : gset string := ∅ in
  let excludedIds :=
    foldl (λ excludedIds movie,
             if truthy (UserLists.id movie) then {[UserLists.id movie]} ∪ excludedIds
             else excludedIds)
          excludedIds (UserLists.watchedList userLists) in
  foldl (λ excludedIds movieId,
           if truthy movieId then {[movieId]} ∪ excludedIds else excludedIds)
        excludedIds (UserLists.blockedMovies userLists).

(** [movie && movie.id && !excludedIds.has(movie.id.toString())] *)
Definition kept (excludedIds : gset string) (movie : option Tmdb.TMDBMovie) : bool :=
  match movie with
  | Some movie =>
      truthy (Tmdb.id movie) && negb (bool_decide (toString (Tmdb.id movie) ∈ excludedIds))
  | None => false
  end.

(** [movies] is [None] when the caller hands over [undefined]; an entry is
    [None] when the provider sent [null]. *)
Definition filterExcludedMovies (movies : option (list (option Tmdb.TMDBMovie)))
    (userLists : option UserLists.t) : list (option Tmdb.TMDBMovie) :=
  match movies with
  | None => []
  | Some movies =>
      if length movies =? 0 then []
      else
        match userLists with
        | None => movies
        | Some userLists =>
            let excludedIds := excludedIds_of userLists in
            List.filter (kept excludedIds) movies
        end
  end.

(** ** The fetchers *)

(** [response.results], which is [undefined] unless the body has it. *)
Definition results (response : Tmdb.body) : option (list (option Tmdb.TMDBMovie)) :=
  match response with
  | Tmdb.Results results => Some results
  | Tmdb.Popular _ | Tmdb.Other | Tmdb.NotJSON _ => None
  end.

(** [{ ...convertTMDBToMovie(movie), synopsis }] *)
Definition simple (p : Tmdb.platform) (movie : Tmdb.TMDBMovie) (synopsis : string)
    : SimpleMovie :=
  let converted := Tmdb.convertTMDBToMovie p movie in
  {| id := Tmdb.Converted.id converted;
     title := Tmdb.Converted.title converted;
     year := Tmdb.Converted.year converted;
     genre := Tmdb.Converted.genre converted;
     poster := Tmdb.Converted.poster converted;
     rating := Tmdb.Converted.rating converted;
     synopsis := Some synopsis |}.

(** [movies.map(f)], where [f] reads a property of each entry: a [null]
    entry raises a [TypeError]. *)
Fixpoint convert_all (f : Tmdb.TMDBMovie → SimpleMovie)
    (movies : list (option Tmdb.TMDBMovie)) : Tmdb.M (list SimpleMovie) :=
  match movies with
  | [] => mret []
  | Some movie :: rest =>
      converted ← convert_all f rest;
      mret (f movie :: converted)
  | None :: rest => Tmdb.throw "Cannot read properties of null"
  end.

Definition getPopularRecommendations (p : Tmdb.platform) (e : Tmdb.env)
    (userLists : option UserLists.t) : Tmdb.M (list SimpleMovie) :=
  Tmdb.try_catch
    (response ← Tmdb.getPopularMovies e (Int 1);
     match results response with
     | None => Tmdb.throw "Invalid response from TMDB API"
     | Some movies =>
         let movies :=
           match userLists with
           | Some _ => filterExcludedMovies (Some movies) userLists
           | None => movies
           end in
         convert_all
           (λ movie, simple p movie (or_else (Tmdb.overview movie) "No description available"))
           (take 10 movies)
     end)
    (λ _, mret []).

(** The two other fetchers do not validate [response.results]: handed to
    [filterExcludedMovies] an [undefined] becomes the empty list, sliced
    as it is it raises a [TypeError]. *)
Definition unchecked (response : Tmdb.body) (userLists : option UserLists.t)
    : Tmdb.M (list (option Tmdb.TMDBMovie)) :=
  match userLists with
  | Some _ => mret (filterExcludedMovies (results response) userLists)
  | None =>
      match results response with
      | Some movies => mret movies
      | None => Tmdb.throw "Cannot read properties of undefined"
      end
  end.

Definition getTrendingRecommendations (p : Tmdb.platform) (e : Tmdb.env)
    (userLists : option UserLists.t) : Tmdb.M (list SimpleMovie) :=
  Tmdb.try_catch
    (response ← Tmdb.getTrendingMovies e Tmdb.week;
     movies ← unchecked response userLists;
     convert_all (λ movie, simple p movie (Tmdb.overview movie)) (take 10 movies))
    (λ _, mret []).

Definition getTopRatedRecommendations (p : Tmdb.platform) (e : Tmdb.env)
    (userLists : option UserLists.t) : Tmdb.M (list SimpleMovie) :=
  Tmdb.try_catch
    (response ← Tmdb.getTopRatedMovies e (Int 1);
     movies ← unchecked response userLists;
     convert_all (λ movie, simple p movie (Tmdb.overview movie)) (take 10 movies))
    (λ _, mret []).

Definition getBasicRecommendations (p : Tmdb.platform) (e : Tmdb.env)
    (userLists : option UserLists.t) : Tmdb.M (list SimpleMovie) :=
  Tmdb.try_catch
    (recommendations ← getPopularRecommendations p e userLists;
     if bool_decide (0 < length recommendations) then mret recommendations
     else getTrendingRecommendations p e userLists)
    (λ _, mret []).

(** ** Vocabulary for the statements *)

(** What a fetcher hands out when it is given user lists: at most ten
    movies, each with the id of a provider movie that passed the
    exclusion filter. *)
Definition fetched (userLists : UserLists.t) (l : list SimpleMovie) : Prop :=
  length l ≤ 10 ∧
  ∀ m, m ∈ l →
    ∃ movie, id m = toString (Tmdb.id movie) ∧
             kept (excludedIds_of userLists) (Some movie) = true.

End Recommendations.


(** * The integration layer: [class RecommendationService] *)

Module RecommendationService.
Import JS.

(** [interface UIRecommendation] *)
Record UIRecommendation := mkUI {
  id : string;
  title : string;
  year : option number;
  genre : string;
  rating : Qc;
  poster : option string;
  reason : string;
  score : Qc;
  confidence : Qc
}.

Definition getRecommendationExplanation (hasWatchedMovies : bool) : string :=
  if negb hasWatchedMovies then "Popular movie you might enjoy"
  else "Recommended based on popular choices".

Definition convertToUIFormat (se : MovieStorage.env) (b : MovieStorage.browser)
    (movies : list Recommendations.SimpleMovie) (limit : Z) : list UIRecommendation :=
  let storage := MovieStorage.loadMovieData se b in
  let hasWatchedMovies :=
    bool_decide (0 < length (MovieStorage.watchedList (MovieStorage.lists storage))) in
  (λ movie,
     {| id := Recommendations.id movie;
        title := Recommendations.title movie;
        year := Recommendations.year movie;
        genre :=
          match Recommendations.genre movie with
          | Some genre => or_else genre "Unknown"
          | None => "Unknown"
          end;
        rating := Recommendations.rating movie;
        poster := Recommendations.poster movie;
        reason := getRecommendationExplanation hasWatchedMovies;
        score := Recommendations.rating movie;
        confidence := Q2Qc (7 # 10) |})
  <$> slice0 limit movies.

Definition hardcodedRecommendations : list UIRecommendation :=
  [ mkUI "550" "Fight Club" (Some (Int 1999)) "Drama" (Q2Qc (42 # 10)) None
      "Popular movie (offline)" (Q2Qc (42 # 10)) (Q2Qc (5 # 10));
    mkUI "278" "The Shawshank Redemption" (Some (Int 1994)) "Drama" (Q2Qc (44 # 10)) None
      "Highly rated (offline)" (Q2Qc (44 # 10)) (Q2Qc (5 # 10));
    mkUI "13" "Forrest Gump" (Some (Int 1994)) "Comedy" (Q2Qc (43 # 10)) None
      "Classic movie (offline)" (Q2Qc (43 # 10)) (Q2Qc (5 # 10));
    mkUI "238" "The Godfather" (Some (Int 1972)) "Crime" (Q2Qc (44 # 10)) None
      "Masterpiece (offline)" (Q2Qc (44 # 10)) (Q2Qc (5 # 10));
    mkUI "680" "Pulp Fiction" (Some (Int 1994)) "Crime" (Q2Qc (43 # 10)) None
      "Cult classic (offline)" (Q2Qc (43 # 10)) (Q2Qc (5 # 10)) ].

Definition getFallbackRecommendations (limit : Z) : list UIRecommendation :=
  slice0 limit hardcodedRecommendations.

(** The user lists handed to the fetchers: the watched entries and the
    blocked ids of the store as it is loaded. *)
Definition userLists_of (storage : MovieStorage.MovieStorage) : Recommendations.UserLists.t :=
  Recommendations.UserLists.mk
    ((λ m, Recommendations.UserLists.mkEntry (MovieStorage.id m))
       <$> MovieStorage.watchedList (MovieStorage.lists storage))
    (MovieStorage.blockedMovies (MovieStorage.lists storage)).

Definition getRecommendationsForUI (p : Tmdb.platform) (se : MovieStorage.env)
    (b : MovieStorage.browser) (e : Tmdb.env) (limit : Z)
    : Tmdb.M (list UIRecommendation) :=
  Tmdb.try_catch
    (let storage := MovieStorage.loadMovieData se b in
     let userLists := userLists_of storage in
     recommendations ← Recommendations.getBasicRecommendations p e (Some userLists);
     if bool_decide (0 < length recommendations)
     then mret (convertToUIFormat se b recommendations limit)
     else Tmdb.throw "No recommendations from API")
    (λ _, mret (getFallbackRecommendations limit)).

Definition getSingleRecommendation (p : Tmdb.platform) (se : MovieStorage.env)
    (b : MovieStorage.browser) (e : Tmdb.env) : Tmdb.M (option UIRecommendation) :=
  recommendations ← getRecommendationsForUI p se b e 1;
  mret (head recommendations).

End RecommendationService.

(** * Concrete data for the examples *)

Module Samples.
Import JS.

Definition fightClub : MovieStorage.MovieData.t :=
  MovieStorage.MovieData.mk "550" "Fight Club" (Some (Q2Qc 1999)) (Some "Drama, Thriller")
    (Some "/fight-club.jpg") None None (Some (Q2Qc (42 # 10))).

Definition shawshank : MovieStorage.MovieData.t :=
  MovieStorage.MovieData.mk "278" "The Shawshank Redemption" (Some (Q2Qc 1994)) (Some "Drama")
    None None None (Some (Q2Qc (47 # 10))).

(** Fight Club, rated five stars by the user. *)
Definition fightClubRated : MovieStorage.MovieData.t :=
  MovieStorage.MovieData.mk "550" "Fight Club" (Some (Q2Qc 1999)) (Some "Drama, Thriller")
    (Some "/fight-club.jpg") None (Some (Q2Qc 5)) (Some (Q2Qc 5)).

(** Fight Club, with the user's rating left at zero. *)
Definition fightClubUnrated : MovieStorage.MovieData.t :=
  MovieStorage.MovieData.mk "550" "Fight Club" (Some (Q2Qc 1999)) (Some "Drama, Thriller")
    (Some "/fight-club.jpg") None (Some (Q2Qc 0)) (Some (Q2Qc (42 # 10))).

Definition monday : MovieStorage.env := MovieStorage.mkEnv "2024-01-01T10:00:00.000Z" true.
Definition tuesday : MovieStorage.env := MovieStorage.mkEnv "2024-01-02T10:00:00.000Z" true.
(** A day on which [localStorage.setItem] throws. *)
Definition fullDisk : MovieStorage.env := MovieStorage.mkEnv "2024-01-03T10:00:00.000Z" false.

Definition evening : list (MovieStorage.env * MovieStorage.call) :=
  [ (monday, MovieStorage.AddToMyList fightClub);
    (monday, MovieStorage.AddToMyList shawshank);
    (tuesday, MovieStorage.AddToWatchedList fightClubRated);
    (tuesday, MovieStorage.MoveToMyList "550");
    (tuesday, MovieStorage.AddToWatchedList shawshank);
    (tuesday, MovieStorage.RemoveFromList "278" MovieStorage.MyList) ].

(** Blocking the same movie twice, around an addition and a reset. *)
Definition blocking : list (MovieStorage.env * MovieStorage.call) :=
  [ (monday, MovieStorage.BlockMovie "13");
    (monday, MovieStorage.AddToMyList fightClub);
    (monday, MovieStorage.BlockMovie "13");
    (tuesday, MovieStorage.ClearAllData);
    (tuesday, MovieStorage.BlockMovie "13") ].

Definition forrestGump : MovieStorage.MovieData.t :=
  MovieStorage.MovieData.mk "13" "Forrest Gump" (Some (Q2Qc 1994)) (Some "Drama")
    None None None (Some (Q2Qc (44 # 10))).

(** Three movies watched, with the ratings 4.2, 4.7 and 4.4. *)
Definition ratings : list (MovieStorage.env * MovieStorage.call) :=
  [ (monday, MovieStorage.AddToWatchedList fightClub);
    (monday, MovieStorage.AddToWatchedList shawshank);
    (tuesday, MovieStorage.AddToWatchedList forrestGump) ].

(** Two movies put on the list of movies to watch. *)
Definition watchlist : list (MovieStorage.env * MovieStorage.call) :=
  [ (monday, MovieStorage.AddToMyList fightClub);
    (monday, MovieStorage.AddToMyList forrestGump) ].

(** A store of the current shape tagged with an earlier version: one
    watched movie with the date it was watched, one blocked id. *)
Definition versionOne : MovieStorage.MovieStorage :=
  MovieStorage.mkMovieStorage
    (MovieStorage.mkMovieLists []
       [ MovieStorage.mkStoredMovie "278" "The Shawshank Redemption" (Some (Q2Qc 1994))
           (Some "Drama") None (Some (Q2Qc 5)) "2023-05-01T08:00:00.000Z"
           (Some "2023-05-02T21:00:00.000Z") ]
       ["13"])
    [] "1.0".

(** A store written by an older version, with both names for the
    want-to-watch list. *)
Definition oldFightClub : MovieStorage.OldData.Movie :=
  MovieStorage.OldData.mkMovie "550" "Fight Club" (Some (Q2Qc 1999)) (Some "Drama")
    None (Some (Q2Qc (42 # 10))) (Some "2023-05-01T08:00:00.000Z").

Definition oldShawshank : MovieStorage.OldData.Movie :=
  MovieStorage.OldData.mkMovie "278" "The Shawshank Redemption" (Some (Q2Qc 1994))
    (Some "Drama") None (Some (Q2Qc (47 # 10))) None.

Definition oldLists : MovieStorage.OldData.Lists :=
  MovieStorage.OldData.mkLists
    (Some (MovieStorage.OldData.Array [Some oldFightClub])) None None
    (Some (MovieStorage.OldData.Array [Some oldShawshank])) None None.

Definition oldStore : MovieStorage.OldData.t := MovieStorage.OldData.mk (Some oldLists).

(** A network on which every request runs into the timeout. *)
Definition slowNetwork : Tmdb.env := Tmdb.mkEnv (Some "key") (λ _ _, Tmdb.TimedOut).

(** A network on which every request is refused. *)
Definition offline : Tmdb.env := Tmdb.mkEnv (Some "key") (λ _ _, Tmdb.NetworkError).

(** A bundled dataset of three movies, one of them with a string id. *)
Definition bundledMovie (i : string + JS.number) (t : string) : Tmdb.Movie (string + JS.number) :=
  Tmdb.mkMovie i t "" None None "1994-01-01" (Q2Qc 8) (JS.Int 1000) [JS.Int 18].

Definition bundled : list (Tmdb.Movie (string + JS.number)) :=
  [ bundledMovie (inl "550") "Fight Club";
    bundledMovie (inr (JS.Int 13)) "Forrest Gump";
    bundledMovie (inr (JS.Int 238)) "The Godfather" ].

Definition bundledResponse : Tmdb.Response :=
  Tmdb.mkResponse true 200 "OK" (Tmdb.Popular bundled).

(** No credential; the bundled dataset is served. *)
Definition unconfigured : Tmdb.env :=
  Tmdb.mkEnv None (λ _ _, Tmdb.Responded bundledResponse).

(** No credential; the first request of the process is refused, the later
    ones are served. *)
Definition unconfiguredFlaky : Tmdb.env :=
  Tmdb.mkEnv None
    (λ _ n, match n with
            | O => Tmdb.NetworkError
            | S _ => Tmdb.Responded bundledResponse
            end).

Definition popularUrl : string :=
  "https://api.themoviedb.org/3/movie/popular?api_key=key&page=1".

(** Every request is answered with a success whose text is a page of
    HTML, not JSON. *)
Definition garbled : Tmdb.env :=
  Tmdb.mkEnv (Some "key")
    (λ _ _, Tmdb.Responded (Tmdb.mkResponse true 200 "OK"
              (Tmdb.NotJSON "Unexpected token < in JSON at position 0"))).

(** The provider is down; the bundled dataset is served. *)
Definition providerDown : Tmdb.env :=
  Tmdb.mkEnv (Some "key")
    (λ url _, if String.eqb url Tmdb.fallbackPath
              then Tmdb.Responded bundledResponse
              else Tmdb.NetworkError).

(** The provider is down; the bundled dataset is served, and holds no
    movie. *)
Definition emptyDataset : Tmdb.env :=
  Tmdb.mkEnv (Some "key")
    (λ url _, if String.eqb url Tmdb.fallbackPath
              then Tmdb.Responded (Tmdb.mkResponse true 200 "OK" (Tmdb.Popular []))
              else Tmdb.NetworkError).

Definition movie (i : Z) : Tmdb.TMDBMovie :=
  Tmdb.mkMovie (JS.Int i) "A movie" "" None None "2020-01-01" (Q2Qc 7) (JS.Int 10) [].

(** A bundled dataset of twenty-two movies, with the ids 1 to 22. *)
Definition bigBundle : list (Tmdb.Movie (string + JS.number)) :=
  (λ i, Tmdb.set_id (inr (JS.Int i) : string + JS.number) (movie i)) <$> seqZ 1 22.

(** The popular listing holds the one movie 1, the trending listing is
    unreachable, and the bundled dataset [bigBundle] is served. *)
Definition crowded : Tmdb.env :=
  Tmdb.mkEnv (Some "key")
    (λ url _,
       if String.eqb url popularUrl
       then Tmdb.Responded (Tmdb.mkResponse true 200 "OK" (Tmdb.Results [Some (movie 1)]))
       else if String.eqb url Tmdb.fallbackPath
       then Tmdb.Responded (Tmdb.mkResponse true 200 "OK" (Tmdb.Popular bigBundle))
       else Tmdb.NetworkError).

(** Both listings answer, and overlap in movie 2; movie 3 is [null]ed out. *)
Definition healthy : Tmdb.env :=
  Tmdb.mkEnv (Some "key")
    (λ url _,
       if String.eqb url popularUrl
       then Tmdb.Responded (Tmdb.mkResponse true 200 "OK"
              (Tmdb.Results [Some (movie 1); Some (movie 2); None]))
       else Tmdb.Responded (Tmdb.mkResponse true 200 "OK"
              (Tmdb.Results [Some (movie 2); Some (movie 4)]))).

(** A movie of the assembler, known by its id. *)
Definition simpleMovie (i : string) : Recommendations.SimpleMovie :=
  Recommendations.mkSimpleMovie i "A movie" None None None (Q2Qc 4) None.

End Samples.
(** * Properties of the persisted list store *)

Module StorageFacts.
Import JS MovieStorage.

(** ** Lists of ids *)

Lemma ids_app (l k : list StoredMovie) : ids (l ++ k) = ids l ++ ids k.
Proof. apply fmap_app. Qed.

Lemma elem_of_ids (x : string) (l : list StoredMovie) :
  x ∈ ids l ↔ ∃ m, m ∈ l ∧ id m = x.
Proof.
  unfold ids. rewrite list_elem_of_fmap. split; intros (m & H1 & H2); eauto.
Qed.

Lemma has_id_true (x : string) (l : list StoredMovie) :
  has_id x l = true ↔ x ∈ ids l.
Proof.
  unfold has_id. rewrite bool_decide_eq_true, Exists_exists, elem_of_ids.
  done.
Qed.

Lemma has_id_false (x : string) (l : list StoredMovie) :
  has_id x l = false ↔ x ∉ ids l.
Proof.
  rewrite <- has_id_true. destruct (has_id x l); split; done.
Qed.

Lemma elem_of_ids_filter (x y : string) (l : list StoredMovie) :
  x ∈ ids (filter (λ m, id m ≠ y) l) ↔ x ∈ ids l ∧ x ≠ y.
Proof.
  rewrite !elem_of_ids. split.
  - intros (m & Hm & <-). apply list_elem_of_filter in Hm as [Hne Hm]. eauto.
  - intros [(m & Hm & <-) Hne]. exists m. split; [|done].
    apply list_elem_of_filter. done.
Qed.

Lemma NoDup_ids_filter (P : StoredMovie → Prop) `{∀ m, Decision (P m)}
    (l : list StoredMovie) :
  NoDup (ids l) → NoDup (ids (filter P l)).
Proof.
  unfold ids. induction l as [|m l IH]; [done|].
  rewrite fmap_cons, NoDup_cons. intros [Hm Hl].
  rewrite filter_cons. destruct (decide (P m)); [|auto].
  rewrite fmap_cons, NoDup_cons. split; [|auto].
  intros Hin. apply Hm. apply list_elem_of_fmap in Hin as (m' & -> & Hin).
  apply list_elem_of_filter in Hin as [_ Hin].
  apply list_elem_of_fmap. eauto.
Qed.

(** Overwriting the entry found by [findIndex] keeps the ids as they are. *)
Lemma ids_insert_found (x : string) (l : list StoredMovie) (i : nat)
    (old movie : StoredMovie) :
  list_find (λ m, id m = x) l = Some (i, old) → id movie = x →
  ids (<[i := movie]> l) = ids l.
Proof.
  intros Hfind Hid. apply list_find_Some in Hfind as (Hi & Hold & _).
  unfold ids. rewrite list_fmap_insert. apply list_insert_id.
  rewrite list_lookup_fmap, Hi. simpl. congruence.
Qed.

Lemma ids_delete (l : list StoredMovie) (i : nat) :
  ids (delete i l) = delete i (ids l).
Proof.
  unfold ids. revert i. induction l as [|m l IH]; intros [|i]; simpl; try done.
  by rewrite IH.
Qed.

Lemma elem_of_delete_NoDup (l : list string) (i : nat) (x y : string) :
  NoDup l → l !! i = Some x → y ∈ delete i l ↔ y ∈ l ∧ y ≠ x.
Proof.
  revert i. induction l as [|z l IH]; intros i Hnd Hi; [done|].
  apply NoDup_cons in Hnd as [Hz Hnd]. destruct i as [|i]; simpl in *.
  - injection Hi as ->. rewrite elem_of_cons. split.
    + intros Hy. split; [auto|]. intros ->. done.
    + intros [[->|Hy] Hne]; done.
  - rewrite !elem_of_cons, (IH i Hnd Hi). split.
    + intros [->|[Hy Hne]]; [|auto]. split; [auto|]. intros ->.
      apply Hz. eapply list_elem_of_lookup_2. done.
    + intros [[->|Hy] Hne]; auto.
Qed.

Lemma NoDup_delete (l : list string) (i : nat) : NoDup l → NoDup (delete i l).
Proof. intros H. eapply sublist_NoDup; [exact H | apply sublist_delete]. Qed.

(** ** Loading and saving *)

Lemma load_stored (P : MovieStorage → Prop) (e : env) (st : browser) :
  P getDefaultStorage → (∀ s, P s → current_version s) → stored P st →
  P (loadMovieData e st).
Proof.
  intros Hdef Hver Hst. unfold loadMovieData, stored in *.
  destruct (window st); simpl; [|done].
  destruct (item st) as [[| |[s|d]]|]; try done.
  rewrite bool_decide_eq_false_2; [done|]. intros Hne. by apply Hne, Hver.
Qed.

Lemma setItem_stored (P : MovieStorage → Prop) (e : env) (st : browser) (s : MovieStorage) :
  P s → stored P st → stored P (setItem e st (stringify s)).2.
Proof.
  intros Hs Hst. unfold setItem.
  destruct (window st); simpl; [|done]. by destruct (writable e).
Qed.

Lemma save_stored (P : MovieStorage → Prop) (e : env) (st : browser) (s : MovieStorage) :
  P s → stored P st → stored P (saveMovieData e st s).2.
Proof. apply setItem_stored. Qed.

(** ** The list calls keep the store well kept *)

Lemma well_kept_default : well_kept getDefaultStorage.
Proof.
  repeat split; unfold disjoint_lists; simpl.
  - intros x Hx. by apply elem_of_nil in Hx.
  - constructor.
Qed.

Lemma well_kept_current (s : MovieStorage) : well_kept s → current_version s.
Proof. by intros (_ & _ & H). Qed.

Lemma well_kept_push (s : MovieStorage) (movie : StoredMovie) :
  well_kept s →
  has_id (id movie) (watchedList (lists s)) = false →
  well_kept (set_myList (myList (lists s) ++ [movie]) s).
Proof.
  intros (Hdis & Hnd & Hv) Hw. apply has_id_false in Hw.
  repeat split; unfold disjoint_lists; simpl; [|done..].
  intros x. rewrite ids_app, elem_of_app. intros [Hx|Hx]; [by apply Hdis|].
  apply list_elem_of_singleton in Hx as ->. done.
Qed.

Lemma well_kept_filter_myList (s : MovieStorage) (x : string) :
  well_kept s →
  well_kept (set_myList (filter (λ m, id m ≠ x) (myList (lists s))) s).
Proof.
  intros (Hdis & Hnd & Hv). repeat split; unfold disjoint_lists; simpl; [|done..].
  intros y Hy. apply elem_of_ids_filter in Hy as [Hy _]. by apply Hdis.
Qed.

Lemma well_kept_filter_watchedList (s : MovieStorage) (x : string) :
  well_kept s →
  well_kept (set_watchedList (filter (λ m, id m ≠ x) (watchedList (lists s))) s).
Proof.
  intros (Hdis & Hnd & Hv). repeat split; unfold disjoint_lists; simpl; [| |done].
  - intros y Hy Hin. apply elem_of_ids_filter in Hin as [Hin _]. by apply (Hdis y).
  - by apply NoDup_ids_filter.
Qed.

(** The body of [addToWatchedList] between load and save. *)
Lemma well_kept_upsert (s : MovieStorage) (movie : StoredMovie) :
  well_kept s →
  let s1 := set_myList (filter (λ m, id m ≠ id movie) (myList (lists s))) s in
  well_kept
    match list_find (λ m, id m = id movie) (watchedList (lists s1)) with
    | Some (existingIndex, _) =>
        set_watchedList (<[existingIndex := movie]> (watchedList (lists s1))) s1
    | None => set_watchedList (movie :: watchedList (lists s1)) s1
    end.
Proof.
  intros (Hdis & Hnd & Hv) s1. simpl.
  destruct (list_find _ _) as [[i old]|] eqn:Hfind.
  - repeat split; unfold disjoint_lists; simpl; [| |done].
    + intros y Hy. rewrite (ids_insert_found (id movie) _ i old movie) by done.
      apply elem_of_ids_filter in Hy as [Hy _]. by apply Hdis.
    + by rewrite (ids_insert_found (id movie) _ i old movie).
  - repeat split; unfold disjoint_lists; simpl; [| |done].
    + intros y Hy. apply elem_of_ids_filter in Hy as [Hy Hne].
      unfold ids. rewrite fmap_cons, elem_of_cons. intros [->|Hin]; [done|].
      by apply (Hdis y).
    + unfold ids. rewrite fmap_cons. apply NoDup_cons. split; [|done].
      apply list_find_None in Hfind. intros Hin.
      apply elem_of_ids in Hin as (m & Hm & Hid).
      rewrite Forall_forall in Hfind. by apply (Hfind m).
Qed.

(** The body of [moveToMyList] between load and save. *)
Lemma well_kept_move (s : MovieStorage) (x d : string) (i : nat) (movie : StoredMovie) :
  well_kept s →
  list_find (λ m, id m = x) (watchedList (lists s)) = Some (i, movie) →
  let s1 := set_watchedList (delete i (watchedList (lists s))) s in
  well_kept (set_myList (myList (lists s1) ++ [set_dateAdded d movie]) s1).
Proof.
  intros (Hdis & Hnd & Hv) Hfind s1.
  apply list_find_Some in Hfind as (Hi & Hid & _).
  assert (Hlook : ids (watchedList (lists s)) !! i = Some x).
  { unfold ids. rewrite list_lookup_fmap, Hi. simpl. by rewrite Hid. }
  repeat split; unfold disjoint_lists; simpl; [| |done].
  - intros y. rewrite ids_app, elem_of_app, ids_delete.
    rewrite (elem_of_delete_NoDup _ i x y Hnd Hlook).
    intros [Hy|Hy] [Hin Hne].
    + by apply (Hdis y).
    + apply list_elem_of_singleton in Hy. simpl in Hy. congruence.
  - rewrite ids_delete. by apply NoDup_delete.
Qed.

Lemma perform_well_kept (e : env) (c : call) (st : browser) :
  list_call c = true → stored well_kept st →
  (∃ storage, (perform e c st).1 = Some storage ∧ well_kept storage) ∧
  stored well_kept (perform e c st).2.
Proof.
  intros Hc Hst.
  assert (Hload : well_kept (loadMovieData e st)).
  { apply load_stored; auto using well_kept_default, well_kept_current. }
  destruct c; try done; simpl.
  - unfold addToWantToWatchList.
    destruct (has_id _ (myList _)); simpl; [eauto|].
    destruct (has_id _ (watchedList _)) eqn:Hw; simpl; [eauto|].
    assert (well_kept (set_myList (myList (lists (loadMovieData e st)) ++
              [createStoredMovie e movieData]) (loadMovieData e st)))
      by (by apply well_kept_push).
    split; [eauto|]. by apply save_stored.
  - unfold addToMyList.
    destruct (has_id _ (myList _)); simpl; [eauto|].
    destruct (has_id _ (watchedList _)) eqn:Hw; simpl; [eauto|].
    assert (well_kept (set_myList (myList (lists (loadMovieData e st)) ++
              [createStoredMovie e movieData]) (loadMovieData e st)))
      by (by apply well_kept_push).
    split; [eauto|]. by apply save_stored.
  - unfold addToWatchedList. simpl.
    pose proof (well_kept_upsert (loadMovieData e st)
                  (set_dateWatched (now e) (createStoredMovie e movieData)) Hload) as H.
    simpl in H. split; [eauto|]. by apply save_stored.
  - unfold removeFromList. simpl. destruct lt.
    + pose proof (well_kept_filter_myList _ movieId Hload).
      split; [eauto|]. by apply save_stored.
    + pose proof (well_kept_filter_watchedList _ movieId Hload).
      split; [eauto|]. by apply save_stored.
  - unfold moveToWantToWatchList.
    destruct (list_find _ _) as [[i movie]|] eqn:Hfind; simpl; [|eauto].
    pose proof (well_kept_move _ movieId (now e) i movie Hload Hfind) as H.
    simpl in H. split; [eauto|]. by apply save_stored.
  - unfold moveToMyList.
    destruct (list_find _ _) as [[i movie]|] eqn:Hfind; simpl; [|eauto].
    pose proof (well_kept_move _ movieId (now e) i movie Hload Hfind) as H.
    simpl in H. split; [eauto|]. by apply save_stored.
Qed.

Lemma session_well_kept (calls : list (env * call)) (st : browser) :
  forallb (λ ec, list_call ec.2) calls = true → stored well_kept st →
  stored well_kept (run calls st) ∧ Forall well_kept (returned calls st).
Proof.
  revert st. induction calls as [|[e c] calls IH]; intros st Hcalls Hst; simpl.
  - by split.
  - simpl in Hcalls. apply andb_true_iff in Hcalls as [Hc Hcalls].
    destruct (perform_well_kept e c st Hc Hst) as [(storage & -> & H1) H2].
    destruct (IH _ Hcalls H2) as [H3 H4]. split; [done|]. by constructor.
Qed.

(** C1. Starting from the all-empty default store, after any finite
    sequence of calls to [addToMyList], [addToWantToWatchList],
    [addToWatchedList], [removeFromList] and [moveToMyList] (and
    [moveToWantToWatchList], its twin), no movie id is in both [myList] and
    [watchedList]: neither in the store that the next load reads back,
    nor in any store that a call of the sequence returned. This holds
    whether or not a [window] exists and whether or not the writes
    succeed. *)
Theorem lists_stay_disjoint (w : bool) (calls : list (env * call)) (e : env) :
  forallb (λ ec, list_call ec.2) calls = true →
  disjoint_lists (loadMovieData e (run calls (fresh w))) ∧
  Forall disjoint_lists (returned calls (fresh w)).
Proof.
  intros Hcalls.
  destruct (session_well_kept calls (fresh w) Hcalls) as [H1 H2]; [done|].
  split.
  - assert (well_kept (loadMovieData e (run calls (fresh w)))) as (H & _).
    { apply load_stored; auto using well_kept_default, well_kept_current. }
    done.
  - eapply Forall_impl; [done|]. by intros s (H & _).
Qed.

Lemma lists_stay_disjoint_witness :
  forallb (λ ec, list_call ec.2) Samples.evening = true ∧
  disjoint_lists (loadMovieData Samples.tuesday (run Samples.evening (fresh true))) ∧
  Forall disjoint_lists (returned Samples.evening (fresh true)).
Proof.
  split; [reflexivity|].
  apply (lists_stay_disjoint true Samples.evening Samples.tuesday). reflexivity.
Defined.

(** The evening session leaves Fight Club in [myList] and The Shawshank
    Redemption, with its public rating, in [watchedList]. *)
Example evening_lists :
  let s := loadMovieData Samples.tuesday (run Samples.evening (fresh true)) in
  ids (myList (lists s)) = ["550"] ∧ ids (watchedList (lists s)) = ["278"].
Proof. split; reflexivity. Qed.

(** ** What the add calls do *)

Lemma addToWantToWatchList_addToMyList (e : env) (st : browser) (movieData : MovieData.t) :
  addToWantToWatchList e st movieData = addToMyList e st movieData.
Proof. reflexivity. Qed.

Lemma addToMyList_present (e : env) (st : browser) (movieData : MovieData.t) :
  let s := loadMovieData e st in
  MovieData.id movieData ∈ ids (myList (lists s)) ∨
  MovieData.id movieData ∈ ids (watchedList (lists s)) →
  addToMyList e st movieData = (s, st).
Proof.
  intros s H. unfold addToMyList. fold s. simpl.
  destruct H as [H|H]; apply has_id_true in H; rewrite H; simpl; [done|].
  by rewrite andb_false_r.
Qed.

Lemma addToMyList_absent (e : env) (st : browser) (movieData : MovieData.t) :
  let s := loadMovieData e st in
  MovieData.id movieData ∉ ids (myList (lists s)) →
  MovieData.id movieData ∉ ids (watchedList (lists s)) →
  let s' := set_myList (myList (lists s) ++ [createStoredMovie e movieData]) s in
  addToMyList e st movieData = (s', (saveMovieData e st s').2).
Proof.
  intros s H1 H2 s'. unfold addToMyList. fold s. simpl.
  apply has_id_false in H1, H2. by rewrite H1, H2.
Qed.

(** The watched list after [addToWatchedList]: the entry with the id of
    [movie] is overwritten where it stands, or [movie] is put in front. *)
Lemma upsert_present (x : string) (l : list StoredMovie) :
  x ∈ ids l →
  ∃ i old, list_find (λ m, id m = x) l = Some (i, old) ∧ l !! i = Some old ∧ id old = x.
Proof.
  intros Hx. apply elem_of_ids in Hx as (m & Hm & Hid).
  destruct (list_find (λ m, id m = x) l) as [[i old]|] eqn:Hfind.
  - exists i, old. apply list_find_Some in Hfind as (Hi & Hold & _). done.
  - apply list_find_None in Hfind. rewrite Forall_forall in Hfind.
    by destruct (Hfind m Hm).
Qed.

Lemma upsert_absent (x : string) (l : list StoredMovie) :
  x ∉ ids l → list_find (λ m, id m = x) l = None.
Proof.
  intros Hx. apply list_find_None, Forall_forall. intros m Hm Hid.
  apply Hx, elem_of_ids. eauto.
Qed.

Lemma addToWatchedList_stores (e : env) (st : browser) (movieData : MovieData.t) :
  set_dateWatched (now e) (createStoredMovie e movieData)
    ∈ watchedList (lists (addToWatchedList e st movieData).1).
Proof.
  unfold addToWatchedList. simpl.
  destruct (list_find _ _) as [[i old]|] eqn:Hfind; simpl.
  - apply list_find_Some in Hfind as (Hi & _).
    apply list_elem_of_insert. by eapply lookup_lt_Some.
  - apply elem_of_cons. by left.
Qed.

Lemma truthy_Qc (q : Qc) : truthy q = bool_decide (q ≠ Q2Qc 0).
Proof.
  change (truthy q) with (negb (Qc_eq_bool q (Q2Qc 0))). unfold Qc_eq_bool.
  destruct (Qc_eq_dec q (Q2Qc 0)) as [Heq|Hne]; case_bool_decide; simpl; done.
Qed.

Lemma or_else_Some_Qc (u : Qc) (r : option Qc) :
  or_else (Some u) r = if bool_decide (u ≠ Q2Qc 0) then Some u else r.
Proof.
  unfold or_else. change (truthy (Some u)) with (truthy u). by rewrite truthy_Qc.
Qed.

Lemma createStoredMovie_rating (e : env) (movieData : MovieData.t) :
  rating (createStoredMovie e movieData)
  = or_else (MovieData.userRating movieData) (MovieData.rating movieData).
Proof. reflexivity. Qed.

(** The documented priority: a truthy user rating is the one stored. *)
Lemma user_rating_has_priority (e : env) (movieData : MovieData.t) (u : Qc) :
  MovieData.userRating movieData = Some u → u ≠ Q2Qc 0 →
  rating (createStoredMovie e movieData) = Some u.
Proof.
  intros Hu Hne.
  by rewrite createStoredMovie_rating, Hu, or_else_Some_Qc, bool_decide_eq_true_2.
Qed.

(** C9. When [movieData.userRating] is 0 and [movieData.rating] is a
    number other than 0, [createStoredMovie] stores [rating], not the
    user's 0, and so do [addToWatchedList] and, when it inserts,
    [addToMyList]: the priority of [userRating] holds only for a truthy
    [userRating]. *)
Theorem zero_user_rating_is_replaced (e : env) (movieData : MovieData.t) (r : Qc) :
  MovieData.userRating movieData = Some (Q2Qc 0) →
  MovieData.rating movieData = Some r →
  r ≠ Q2Qc 0 →
  rating (createStoredMovie e movieData) = Some r ∧
  rating (createStoredMovie e movieData) ≠ MovieData.userRating movieData ∧
  (∀ st, ∃ m, m ∈ watchedList (lists (addToWatchedList e st movieData).1) ∧
              id m = MovieData.id movieData ∧ rating m = Some r) ∧
  (∀ st, MovieData.id movieData ∉ ids (myList (lists (loadMovieData e st))) →
         MovieData.id movieData ∉ ids (watchedList (lists (loadMovieData e st))) →
         ∃ m, m ∈ myList (lists (addToMyList e st movieData).1) ∧
              id m = MovieData.id movieData ∧ rating m = Some r).
Proof.
  intros Hu Hr Hne.
  assert (Hstored : rating (createStoredMovie e movieData) = Some r).
  { rewrite createStoredMovie_rating, Hu, Hr, or_else_Some_Qc.
    by rewrite bool_decide_eq_false_2; [|intros H; apply H]. }
  split; [done|]. split; [rewrite Hstored, Hu; congruence|]. split.
  - intros st. exists (set_dateWatched (now e) (createStoredMovie e movieData)).
    split; [apply addToWatchedList_stores|done].
  - intros st H1 H2. exists (createStoredMovie e movieData).
    rewrite (addToMyList_absent e st movieData H1 H2). simpl.
    split; [|done]. apply elem_of_app. right. by apply list_elem_of_singleton.
Qed.

Lemma zero_user_rating_is_replaced_witness :
  MovieData.userRating Samples.fightClubUnrated = Some (Q2Qc 0) ∧
  MovieData.rating Samples.fightClubUnrated = Some (Q2Qc (42 # 10)) ∧
  Q2Qc (42 # 10) ≠ Q2Qc 0 ∧
  rating (createStoredMovie Samples.monday Samples.fightClubUnrated) = Some (Q2Qc (42 # 10)).
Proof.
  split; [reflexivity|]. split; [reflexivity|]. split; [discriminate|].
  apply (zero_user_rating_is_replaced Samples.monday Samples.fightClubUnrated (Q2Qc (42 # 10)));
    [reflexivity | reflexivity | discriminate].
Defined.

(** C6, as the code has it. [addToMyList] and [addToWantToWatchList]
    insert a new Stored Movie only if the id is in neither [myList] nor
    [watchedList]: otherwise they return the loaded store and save nothing;
    when they insert, the new movie goes to the end of [myList] and the
    store is saved. [addToWatchedList] has no such condition: it always
    removes the entries of that id from [myList], stamps the watched
    timestamp, and saves; the new Stored Movie is put in front of
    [watchedList] when the id is not there yet, and overwrites the entry of
    that id where it stands when it is. *)
Theorem addToList_behaviour (e : env) (st : browser) (movieData : MovieData.t) :
  let s := loadMovieData e st in
  let x := MovieData.id movieData in
  let movie := createStoredMovie e movieData in
  let stamped := set_dateWatched (now e) movie in
  let w := addToWatchedList e st movieData in
  addToWantToWatchList e st movieData = addToMyList e st movieData ∧
  ((x ∈ ids (myList (lists s)) ∨ x ∈ ids (watchedList (lists s))) →
   addToMyList e st movieData = (s, st)) ∧
  (x ∉ ids (myList (lists s)) → x ∉ ids (watchedList (lists s)) →
   let s' := set_myList (myList (lists s) ++ [movie]) s in
   addToMyList e st movieData = (s', (saveMovieData e st s').2)) ∧
  myList (lists w.1) = filter (λ m, id m ≠ x) (myList (lists s)) ∧
  (x ∉ ids (myList (lists w.1))) ∧
  dateWatched stamped = Some (now e) ∧
  (x ∉ ids (watchedList (lists s)) →
   watchedList (lists w.1) = stamped :: watchedList (lists s)) ∧
  (x ∈ ids (watchedList (lists s)) →
   ∃ i old, watchedList (lists s) !! i = Some old ∧ id old = x ∧
            watchedList (lists w.1) = <[i := stamped]> (watchedList (lists s))) ∧
  w.2 = (saveMovieData e st w.1).2.
Proof.
  intros s x movie stamped w.
  split; [reflexivity|].
  split; [apply addToMyList_present|].
  split; [apply addToMyList_absent|].
  assert (Hmy : myList (lists w.1) = filter (λ m, id m ≠ x) (myList (lists s))).
  { unfold w, addToWatchedList. simpl. by destruct (list_find _ _) as [[i old]|]. }
  split; [done|].
  split. { rewrite Hmy. intros H. by apply elem_of_ids_filter in H as [_ H]. }
  split; [done|].
  split; [|split; [|done]].
  - intros Hx. unfold s, x in Hx. unfold w, addToWatchedList. simpl.
    by rewrite (upsert_absent _ _ Hx).
  - intros Hx. unfold s, x in Hx.
    destruct (upsert_present _ _ Hx) as (i & old & Hfind & Hi & Hold).
    exists i, old. split; [done|]. split; [done|].
    unfold w, addToWatchedList. simpl. by rewrite Hfind.
Qed.

(** C6 as stated fails for [addToWatchedList]. With Fight Club in
    [myList] only, the call moves it: a new Stored Movie enters
    [watchedList] although the id was in [myList]. With Fight Club in
    [watchedList] only, the call replaces the stored entry by a new Stored
    Movie (new rating, new dates) although the id was in [watchedList]. *)
Lemma addToWatchedList_inserts_although_present :
  let inMyList := run [(Samples.monday, AddToMyList Samples.fightClub)] (fresh true) in
  let inWatched := run [(Samples.monday, AddToWatchedList Samples.fightClub)] (fresh true) in
  let new :=
    set_dateWatched (now Samples.tuesday)
      (createStoredMovie Samples.tuesday Samples.fightClubRated) in
  ("550" ∈ ids (myList (lists (loadMovieData Samples.tuesday inMyList))) ∧
   (new ∉ watchedList (lists (loadMovieData Samples.tuesday inMyList))) ∧
   watchedList (lists (addToWatchedList Samples.tuesday inMyList Samples.fightClubRated).1)
     = [new]) ∧
  ("550" ∈ ids (watchedList (lists (loadMovieData Samples.tuesday inWatched))) ∧
   (new ∉ watchedList (lists (loadMovieData Samples.tuesday inWatched))) ∧
   watchedList (lists (addToWatchedList Samples.tuesday inWatched Samples.fightClubRated).1)
     = [new]).
Proof.
  cbv zeta.
  split; (split; [|split; [|reflexivity]]); compute_done.
Qed.

(** ** Export and import *)

Lemma load_current_env (e e' : env) (st : browser) :
  stored current_version st → loadMovieData e st = loadMovieData e' st.
Proof.
  unfold stored, loadMovieData. destruct (window st); simpl; [|done].
  destruct (item st) as [[| |[s|d]]|]; try done.
  intros Hs. by rewrite bool_decide_eq_false_2; [|intros H; apply H].
Qed.

Lemma current_default : current_version getDefaultStorage.
Proof. reflexivity. Qed.

Lemma load_current (e : env) (st : browser) :
  stored current_version st → current_version (loadMovieData e st).
Proof. intros H. apply load_stored; auto using current_default. Qed.

Lemma perform_current (e : env) (c : call) (st : browser) :
  stored current_version st → stored current_version (perform e c st).2.
Proof.
  intros Hst. pose proof (load_current e st Hst) as Hload.
  destruct c; simpl.
  - unfold addToWantToWatchList. destruct (_ && _); simpl; [|done].
    by apply save_stored.
  - unfold addToMyList. destruct (_ && _); simpl; [|done].
    by apply save_stored.
  - unfold addToWatchedList. simpl. apply save_stored; [|done].
    by destruct (list_find _ _) as [[i old]|].
  - unfold removeFromList. simpl. apply save_stored; [|done]. by destruct lt.
  - unfold moveToWantToWatchList.
    destruct (list_find _ _) as [[i movie]|]; simpl; [|done]. by apply save_stored.
  - unfold moveToMyList.
    destruct (list_find _ _) as [[i movie]|]; simpl; [|done]. by apply save_stored.
  - unfold reorderMyList. simpl. by apply save_stored.
  - unfold blockMovie. destruct (negb _); simpl; [|done]. by apply save_stored.
  - unfold clearAllData, stored in *. by destruct (window st); simpl.
Qed.

Lemma perform_window (e : env) (c : call) (st : browser) :
  window (perform e c st).2 = window st.
Proof.
  assert (Hset : ∀ t, window (setItem e st t).2 = window st).
  { intros t. unfold setItem. destruct (window st) eqn:Hw; simpl; [|done].
    by destruct (writable e). }
  destruct c; simpl.
  - unfold addToWantToWatchList. destruct (_ && _); simpl; [apply Hset|done].
  - unfold addToMyList. destruct (_ && _); simpl; [apply Hset|done].
  - apply Hset.
  - apply Hset.
  - unfold moveToWantToWatchList.
    destruct (list_find _ _) as [[i movie]|]; simpl; [apply Hset|done].
  - unfold moveToMyList.
    destruct (list_find _ _) as [[i movie]|]; simpl; [apply Hset|done].
  - apply Hset.
  - unfold blockMovie. destruct (negb _); simpl; [apply Hset|done].
  - unfold clearAllData. by destruct (window st) eqn:Hw.
Qed.

Lemma run_current (calls : list (env * call)) (st : browser) :
  stored current_version st →
  stored current_version (run calls st) ∧ window (run calls st) = window st.
Proof.
  revert st. induction calls as [|[e c] calls IH]; intros st Hst; simpl; [done|].
  destruct (IH (perform e c st).2) as [H1 H2]; [by apply perform_current|].
  split; [done|]. by rewrite H2, perform_window.
Qed.

(** C7, as the code has it. For every store reachable from the default
    store through the public mutators, [exportData] followed by
    [importData] and a load gives back the store that was exported; and
    [importData] returns [true] exactly when there is a [window] and the
    write to [localStorage] goes through (otherwise it returns [false] and
    leaves the item as it was). *)
Theorem export_import_round_trip (w : bool) (calls : list (env * call))
    (e1 e2 e3 : env) :
  let st := run calls (fresh w) in
  let imported := importData e2 st (exportData e1 st) in
  loadMovieData e3 imported.2 = loadMovieData e1 st ∧
  imported.1 = w && writable e2.
Proof.
  intros st imported.
  destruct (run_current calls (fresh w)) as [Hst Hw]; [done|]. fold st in Hst, Hw.
  simpl in Hw. pose proof (load_current e1 st Hst) as Hload.
  unfold imported, importData, exportData, stringify, setItem.
  rewrite Hw. destruct w; simpl; [|split; [by apply load_current_env|done]].
  destruct (writable e2); simpl; [|split; [by apply load_current_env|done]].
  split; [|done]. unfold loadMovieData at 1. simpl.
  by rewrite bool_decide_eq_false_2; [|intros H; apply H].
Qed.

(** The same law from any content of the storage, legacy or corrupt,
    whenever the write goes through: what is loaded is always of the
    current version, so that the imported snapshot is read back as it is. *)
Lemma when_present_version {A} `{Truthy A} (field : option A)
    (f : A → MovieStorage → option MovieStorage) (s s' : MovieStorage) :
  (∀ v s1 s2, f v s1 = Some s2 → version s2 = version s1) →
  when_present field f s = Some s' → version s' = version s.
Proof.
  intros Hf. unfold when_present. destruct field as [v|]; [|by intros [= <-]].
  destruct (truthy v); [apply Hf|by intros [= <-]].
Qed.

Lemma migrate_version (now : string) (oldData : OldData.t) :
  current_version (migrateFromOldVersion now oldData).
Proof.
  unfold current_version, migrateFromOldVersion.
  destruct (migrate now oldData getDefaultStorage) as [s|] eqn:Hm; [|done].
  unfold migrate in Hm. apply bind_Some in Hm as (s6 & Hm & [= <-]). simpl.
  destruct (OldData.lists oldData) as [l|]; [|by injection Hm as <-].
  assert (Hmap : ∀ (setter : list StoredMovie → MovieStorage → MovieStorage),
            (∀ movies s1, version (setter movies s1) = version s1) →
            ∀ v s1 s2, (λ movies, setter movies s1) <$> mapMovies now v = Some s2 →
                       version s2 = version s1).
  { intros setter Hs v s1 s2 H. apply fmap_Some in H as (movies & _ & ->). apply Hs. }
  assert (Hset : ∀ (v : list string) s1 s2,
            Some (set_blockedMovies v s1) = Some s2 → version s2 = version s1)
    by (by intros v s1 s2 [= <-]).
  apply bind_Some in Hm as (s1 & H1 & Hm). apply bind_Some in Hm as (s2 & H2 & Hm).
  apply bind_Some in Hm as (s3 & H3 & Hm). apply bind_Some in Hm as (s4 & H4 & Hm).
  apply bind_Some in Hm as (s5 & H5 & H6).
  apply when_present_version in H1; [|by apply (Hmap set_myList)].
  apply when_present_version in H2; [|by apply (Hmap set_watchedList)].
  apply when_present_version in H3; [|done].
  apply when_present_version in H4; [|by apply (Hmap set_myList)].
  apply when_present_version in H5; [|by apply (Hmap set_watchedList)].
  apply when_present_version in H6; [|done].
  simpl in H1. congruence.
Qed.

Lemma load_version (e : env) (st : browser) : current_version (loadMovieData e st).
Proof.
  unfold loadMovieData. destruct (window st); simpl; [|done].
  destruct (item st) as [[| |[s|d]]|]; try done; [|apply migrate_version].
  case_bool_decide as Hv; [apply migrate_version|].
  by destruct (decide (version s = STORAGE_VERSION)).
Qed.

Lemma export_import_any_state (st : browser) (e1 e2 e3 : env) :
  window st = true → writable e2 = true →
  let imported := importData e2 st (exportData e1 st) in
  imported.1 = true ∧ loadMovieData e3 imported.2 = loadMovieData e1 st.
Proof.
  intros Hw He. simpl. unfold importData, exportData, stringify, setItem.
  rewrite Hw, He. simpl. split; [done|].
  unfold loadMovieData at 1. simpl.
  rewrite bool_decide_eq_false_2; [done|].
  intros Hne. apply Hne, load_version.
Qed.

(** C7 as stated fails in its last part: after the evening session, on a
    day when [localStorage.setItem] throws, [importData] of the snapshot
    just exported returns [false]. *)
Lemma importData_can_return_false :
  let st := run Samples.evening (fresh true) in
  (importData Samples.fullDisk st (exportData Samples.tuesday st)).1 = false.
Proof. reflexivity. Qed.

(** ** Migration *)

Lemma mapM_present {A B} (f : A → B) (l : list A) :
  mapM (λ x, f <$> x) (Some <$> l) = Some (f <$> l).
Proof.
  induction l as [|x l IH]; [done|].
  rewrite !fmap_cons. cbn. rewrite IH. done.
Qed.

Lemma mapM_null {A B} (f : A → B) (l : list (option A)) :
  forallb (λ x, match x with Some _ => true | None => false end) l = false →
  mapM (λ x, f <$> x) l = None.
Proof.
  induction l as [|[x|] l IH]; simpl; [done| |done].
  intros H. cbn. by rewrite (IH H).
Qed.

Lemma present_entries {A} (l : list (option A)) :
  forallb (λ x, match x with Some _ => true | None => false end) l = true →
  ∃ l', l = Some <$> l'.
Proof.
  induction l as [|[x|] l IH]; simpl; [by exists []| |done].
  intros H. destruct (IH H) as (l' & ->). by exists (x :: l').
Qed.

Lemma omap_present {A B} (f : A → B) (l : list A) :
  omap (λ x, f <$> x) (Some <$> l) = f <$> l.
Proof. induction l as [|x l IH]; [done|]. rewrite !fmap_cons. cbn. by f_equal. Qed.

(** One step of the migration over a movie list. *)
Lemma when_present_movies (now : string) (field : option OldData.entries)
    (setter : list StoredMovie → MovieStorage → MovieStorage) (s : MovieStorage) :
  when_present field (λ v s, (λ movies, setter movies s) <$> mapMovies now v) s
  = match field with
    | None => Some s
    | Some v =>
        if whole field
        then match v with
             | OldData.Array movies =>
                 Some (setter (omap (λ movie, migrateMovie now <$> movie) movies) s)
             | OldData.NotArray => None
             end
        else None
    end.
Proof.
  destruct field as [[|movies]|]; [done| |done].
  unfold when_present. simpl. destruct (forallb _ movies) eqn:Hw.
  - destruct (present_entries movies Hw) as (ms & ->).
    by rewrite mapM_present, omap_present.
  - by rewrite mapM_null.
Qed.

(** C10, as the code has it. The migration runs inside a [try] block. When
    every movie list of the old data is absent or an array without a
    [null] entry, a list held under a legacy name gives the list of the
    migrated store, whether or not the current name holds one too:
    [wantToWatch] wins over [myList], [watched] over [watchedList],
    [blocked] over [blockedMovies]; each entry is copied field by field,
    with the instant of the migration for a missing [dateAdded] and
    without [dateWatched]. When some movie list is not an array or holds
    a [null] entry, the migration is abandoned and the store returned is
    the default one, with all lists empty. *)
Theorem legacy_names_overwrite (now : string) (oldData : OldData.t) (l : OldData.Lists) :
  OldData.lists oldData = Some l →
  let newStorage := migrateFromOldVersion now oldData in
  let mapped (movie : OldData.Movie) :=
    mkStoredMovie (OldData.id movie) (OldData.title movie) (OldData.year movie)
      (OldData.genre movie) (OldData.poster movie) (OldData.rating movie)
      (match OldData.dateAdded movie with
       | Some d => if truthy d then d else now
       | None => now
       end)
      None in
  if migratable l then
    (∀ b, OldData.wantToWatch l = Some (OldData.Array (Some <$> b)) →
          myList (lists newStorage) = mapped <$> b) ∧
    (∀ b, OldData.watched l = Some (OldData.Array (Some <$> b)) →
          watchedList (lists newStorage) = mapped <$> b) ∧
    (∀ b, OldData.blocked l = Some b → blockedMovies (lists newStorage) = b)
  else newStorage = getDefaultStorage.
Proof.
  intros Hl newStorage mapped. unfold newStorage, migrateFromOldVersion, migrate.
  rewrite Hl. clear Hl newStorage.
  assert (Hmapped : ∀ b, omap (λ movie, migrateMovie now <$> movie) (Some <$> b)
                         = mapped <$> b)
    by (intros b; apply omap_present).
  unfold migratable.
  destruct l as [my wl bm ww wd bl]. simpl.
  rewrite (when_present_movies now my).
  destruct my as [[|my]|]; simpl; [done|destruct (forallb _ my); simpl; [|done]|];
    rewrite (when_present_movies now wl);
    (destruct wl as [[|wl]|]; simpl; [done|destruct (forallb _ wl); simpl; [|done]|]);
    (destruct bm as [bm|]; simpl);
    rewrite (when_present_movies now ww);
    (destruct ww as [[|ww]|]; simpl; [done|destruct (forallb _ ww); simpl; [|done]|]);
    rewrite (when_present_movies now wd);
    (destruct wd as [[|wd]|]; simpl; [done|destruct (forallb _ wd); simpl; [|done]|]);
    (destruct bl as [bl|]; simpl);
    (split; [|split]); intros b Hb; try discriminate Hb;
    injection Hb as ->; by rewrite ?Hmapped.
Qed.

Lemma legacy_names_overwrite_witness :
  OldData.lists Samples.oldStore = Some Samples.oldLists ∧
  migratable Samples.oldLists = true ∧
  OldData.myList Samples.oldLists = Some (OldData.Array [Some Samples.oldFightClub]) ∧
  OldData.wantToWatch Samples.oldLists = Some (OldData.Array [Some Samples.oldShawshank]) ∧
  ids (myList (lists (migrateFromOldVersion "2024-01-01T10:00:00.000Z" Samples.oldStore)))
  = ["278"].
Proof.
  split; [reflexivity|]. split; [reflexivity|]. split; [reflexivity|].
  split; [reflexivity|].
  pose proof (legacy_names_overwrite "2024-01-01T10:00:00.000Z" Samples.oldStore
                Samples.oldLists eq_refl) as H.
  cbv beta zeta in H. change (migratable Samples.oldLists) with true in H.
  cbv iota in H. destruct H as (H & _ & _).
  rewrite (H [Samples.oldShawshank] eq_refl). reflexivity.
Defined.

(** C10 as stated fails when the migration throws. The old data holds
    [myList] with a [null] entry and [wantToWatch] with one movie: mapping
    [myList] raises a [TypeError], the [catch] block returns the default
    store, and [myList] of the migrated store is empty, not the one
    legacy entry. *)
Lemma null_entry_abandons_migration :
  let l :=
    OldData.mkLists (Some (OldData.Array [None])) None None
      (Some (OldData.Array [Some Samples.oldShawshank])) None None in
  let newStorage := migrateFromOldVersion "2024-01-01T10:00:00.000Z" (OldData.mk (Some l)) in
  OldData.myList l = Some (OldData.Array [None]) ∧
  OldData.wantToWatch l = Some (OldData.Array [Some Samples.oldShawshank]) ∧
  newStorage = getDefaultStorage ∧
  myList (lists newStorage) = [] ∧
  myList (lists newStorage)
  ≠ migrateMovie "2024-01-01T10:00:00.000Z" <$> [Samples.oldShawshank].
Proof. repeat split; done. Qed.

End StorageFacts.

(** * Properties of the remote fetch primitive and of the movie source *)

Module TmdbFacts.
Import JS Tmdb.

(** ** The monad *)

Lemma bind_Return {A B} (m : M A) (f : A → M B) (st st' : state) (a : A) :
  m st = (Return a, st') → (m ≫= f) st = f a st'.
Proof. intros H. unfold mbind, M_bind. by rewrite H. Qed.

Lemma bind_Throw {A B} (m : M A) (f : A → M B) (st st' : state) (error : string) :
  m st = (Throw error, st') → (m ≫= f) st = (Throw error, st').
Proof. intros H. unfold mbind, M_bind. by rewrite H. Qed.

Lemma try_catch_Return {A} (m : M A) (handler : string → M A) (st st' : state) (a : A) :
  m st = (Return a, st') → try_catch m handler st = (Return a, st').
Proof. intros H. unfold try_catch. by rewrite H. Qed.

Lemma try_catch_Throw {A} (m : M A) (handler : string → M A) (st st' : state)
    (error : string) :
  m st = (Throw error, st') → try_catch m handler st = handler error st'.
Proof. intros H. unfold try_catch. by rewrite H. Qed.

(** ** The remote fetch primitive *)

Lemma fetchWithRetry_success (e : env) (url : string) (retries : nat) (st : state)
    (response : Response) :
  net e url (length (log st)) = Responded response → ok response = true →
  fetchWithRetry e url retries st = (Return response, requested url st).
Proof.
  intros Ha Hok. destruct retries; simpl; unfold mbind, M_bind, fetch;
    by rewrite Ha, Hok.
Qed.

Lemma fetchWithRetry_timeout (e : env) (url : string) (retries : nat) (st : state) :
  net e url (length (log st)) = TimedOut →
  fetchWithRetry e url retries st = (Throw "The operation was aborted", requested url st).
Proof.
  intros Ha. destruct retries; simpl; unfold mbind, M_bind, fetch; by rewrite Ha.
Qed.

Lemma fetchWithRetry_retry (e : env) (url : string) (retries : nat) (st : state) :
  failed (net e url (length (log st))) = true →
  net e url (length (log st)) ≠ TimedOut →
  fetchWithRetry e url (S retries) st = fetchWithRetry e url retries (backed_off url st).
Proof.
  intros Hf Ha. simpl. unfold mbind, M_bind, fetch.
  destruct (net e url (length (log st))) as [response| |]; simpl in *; [|done..].
  by rewrite Hf.
Qed.

Lemma fetchWithRetry_exhausted (e : env) (url : string) (st : state) :
  failed (net e url (length (log st))) = true →
  ∃ error, fetchWithRetry e url 0 st = (Throw error, requested url st).
Proof.
  intros Hf. simpl. unfold mbind, M_bind, fetch.
  destruct (net e url (length (log st))) as [response| |]; simpl in *; eauto.
  rewrite Hf. eauto.
Qed.

(** An attempt budget: the call issues at most [retries + 1] requests, all
    to [url], and leaves the cache alone. *)
Lemma fetchWithRetry_bounded (e : env) (url : string) (retries : nat) (st : state) :
  ∃ evs, log (fetchWithRetry e url retries st).2 = log st ++ evs ∧
         fetches evs ≤ S retries ∧
         Forall (λ ev, ev = Fetch url ∨ ev = Sleep RETRY_CONFIG.retryDelay) evs ∧
         cachedFallbackMovies (fetchWithRetry e url retries st).2 = cachedFallbackMovies st.
Proof.
  revert st. induction retries as [|retries IH]; intros st.
  - exists [Fetch url]. simpl. unfold mbind, M_bind, fetch.
    destruct (net e url (length (log st))) as [response| |]; simpl;
      [destruct (negb (ok response))|..]; simpl;
      (split; [done|]); (split; [simpl; lia|]);
      (split; [|done]); repeat constructor.
  - destruct (net e url (length (log st))) as [response| |] eqn:Ha.
    + destruct (ok response) eqn:Hok.
      * rewrite (fetchWithRetry_success e url _ st response Ha Hok).
        exists [Fetch url]. simpl. split; [done|]. split; [simpl; lia|].
        split; [|done]. repeat constructor.
      * rewrite fetchWithRetry_retry by (rewrite Ha; simpl; by rewrite ?Hok).
        destruct (IH (backed_off url st)) as (evs & Hlog & Hn & Hall & Hc).
        exists ([Fetch url; Sleep RETRY_CONFIG.retryDelay] ++ evs).
        rewrite Hlog, Hc. simpl. rewrite <- !app_assoc. simpl.
        split; [done|]. split; [simpl; lia|].
        split; [|done]. repeat constructor; done.
    + rewrite fetchWithRetry_retry by (rewrite Ha; done).
      destruct (IH (backed_off url st)) as (evs & Hlog & Hn & Hall & Hc).
      exists ([Fetch url; Sleep RETRY_CONFIG.retryDelay] ++ evs).
      rewrite Hlog, Hc. simpl. rewrite <- !app_assoc. simpl.
      split; [done|]. split; [simpl; lia|].
      split; [|done]. repeat constructor; done.
    + rewrite (fetchWithRetry_timeout e url _ st Ha).
      exists [Fetch url]. simpl. split; [done|]. split; [simpl; lia|].
      split; [|done]. repeat constructor.
Qed.

(** C2, as the code has it. With [retries > 0], a failed attempt that is
    not a timeout (a network error, or a response whose status is not a
    success) is followed by the fixed backoff of 500 ms and by the
    recursive call with [retries - 1]; a call issues at most
    [retries + 1] requests before it returns or throws. An attempt that
    times out is not retried: the timer aborts the controller, the
    [catch] block finds [controller.signal.aborted] set, and the error is
    thrown at once, whatever [retries] is. *)
Theorem fetchWithRetry_retries (e : env) (url : string) (retries : nat) (st : state) :
  let a := net e url (length (log st)) in
  (0 < retries → failed a = true → a ≠ TimedOut →
   RETRY_CONFIG.retryDelay = 500 ∧
   fetchWithRetry e url retries st
   = fetchWithRetry e url (retries - 1) (backed_off url st)) ∧
  (a = TimedOut →
   fetchWithRetry e url retries st
   = (Throw "The operation was aborted", requested url st)) ∧
  (∃ evs, log (fetchWithRetry e url retries st).2 = log st ++ evs ∧
          fetches evs ≤ retries + 1).
Proof.
  intros a. split; [|split].
  - intros Hr Hf Ha. split; [done|]. destruct retries as [|retries]; [lia|].
    replace (S retries - 1) with retries by lia. by apply fetchWithRetry_retry.
  - apply fetchWithRetry_timeout.
  - destruct (fetchWithRetry_bounded e url retries st) as (evs & H1 & H2 & _).
    exists evs. split; [done|lia].
Qed.

Lemma fetchWithRetry_retries_witness :
  0 < 2 ∧
  failed (net Samples.offline Samples.popularUrl (length (log initial))) = true ∧
  net Samples.offline Samples.popularUrl (length (log initial)) ≠ TimedOut ∧
  fetchWithRetry Samples.offline Samples.popularUrl 2 initial
  = fetchWithRetry Samples.offline Samples.popularUrl (2 - 1)
      (backed_off Samples.popularUrl initial).
Proof.
  split; [lia|]. split; [reflexivity|]. split; [discriminate|].
  destruct (fetchWithRetry_retries Samples.offline Samples.popularUrl 2 initial)
    as (H & _ & _).
  apply H; [lia | reflexivity | discriminate].
Defined.

(** C2 as stated fails: with two retries left, an attempt that times
    out is surfaced at once. The log holds the one request; there is no
    backoff and no second attempt. *)
Lemma timeout_is_not_retried :
  fetchWithRetry Samples.slowNetwork Samples.popularUrl 2 initial
  = (Throw "The operation was aborted", mkState None [Fetch Samples.popularUrl]).
Proof. reflexivity. Qed.

(** Refused requests are retried twice, 500 ms apart, and then the error
    is thrown. *)
Example offline_log :
  fetchWithRetry Samples.offline Samples.popularUrl RETRY_CONFIG.maxRetries initial
  = (Throw "Failed to fetch",
     mkState None
       [Fetch Samples.popularUrl; Sleep 500; Fetch Samples.popularUrl; Sleep 500;
        Fetch Samples.popularUrl]).
Proof. reflexivity. Qed.

Example parseInt_examples :
  parseInt "550" = Int 550 ∧ parseInt " 42abc" = Int 42 ∧ parseInt "-7" = Int (-7) ∧
  parseInt "0x1A" = Int 26 ∧ parseInt "abc" = NaN ∧ parseInt "" = NaN.
Proof. repeat split; reflexivity. Qed.

(** ** Provider calls *)

Lemma prefix_append (a b : string) : String.prefix a (a +:+ b) = true.
Proof.
  induction a as [|c a IH]; simpl; [by destruct b|].
  destruct (Ascii.ascii_dec c c); [exact IH | congruence].
Qed.

Lemma provider_url_base (rest : string) : provider_url (TMDB_BASE_URL +:+ rest) = true.
Proof. apply prefix_append. Qed.

Lemma fallbackPath_not_provider : provider_url fallbackPath = false.
Proof. reflexivity. Qed.

Section AllProviderCallsFail.
Context (e : env).
Hypothesis provider_fails : ∀ url n, provider_url url = true → failed (net e url n) = true.

Lemma fetchWithRetry_fails (url : string) (retries : nat) (st : state) :
  provider_url url = true →
  ∃ error st', fetchWithRetry e url retries st = (Throw error, st') ∧
               cachedFallbackMovies st' = cachedFallbackMovies st.
Proof.
  intros Hurl. revert st. induction retries as [|retries IH]; intros st.
  - destruct (fetchWithRetry_exhausted e url st) as [error H]; [by apply provider_fails|].
    eauto.
  - pose proof (provider_fails url (length (log st)) Hurl) as Hf.
    destruct (net e url (length (log st))) as [response| |] eqn:Ha.
    1, 2: rewrite fetchWithRetry_retry by (by rewrite Ha);
          destruct (IH (backed_off url st)) as (error & st' & H1 & H2); eauto.
    rewrite (fetchWithRetry_timeout e url _ st Ha). eauto.
Qed.

Lemma retrying_fails (url failure : string) (st : state) :
  provider_url url = true →
  ∃ st', retrying e url failure st = (Throw failure, st') ∧
         cachedFallbackMovies st' = cachedFallbackMovies st.
Proof.
  intros Hurl.
  destruct (fetchWithRetry_fails url RETRY_CONFIG.maxRetries st Hurl)
    as (error & st' & H1 & H2).
  exists st'. split; [|done].
  unfold retrying, mbind, M_bind, try_catch. by rewrite H1.
Qed.

Lemma getPopularMovies_fails (page : number) (st : state) :
  ∃ error st', getPopularMovies e page st = (Throw error, st') ∧
               cachedFallbackMovies st' = cachedFallbackMovies st.
Proof.
  unfold getPopularMovies. destruct (negb _); [by eexists _, _|].
  match goal with |- context [retrying e ?u ?f] =>
    destruct (retrying_fails u f st) as (st' & H1 & H2); [apply provider_url_base|]
  end.
  by eexists _, st'.
Qed.

Lemma getTrendingMovies_fails (t : timeWindow) (st : state) :
  ∃ error st', getTrendingMovies e t st = (Throw error, st') ∧
               cachedFallbackMovies st' = cachedFallbackMovies st.
Proof.
  unfold getTrendingMovies. destruct (negb _); [by eexists _, _|].
  match goal with |- context [retrying e ?u ?f] =>
    destruct (retrying_fails u f st) as (st' & H1 & H2); [apply provider_url_base|]
  end.
  by eexists _, st'.
Qed.

Lemma gather_fails (watchedMovies : list MovieStorage.StoredMovie) (st : state) :
  ∃ st', gather e watchedMovies st = (Return [], st') ∧
         cachedFallbackMovies st' = cachedFallbackMovies st.
Proof.
  unfold gather.
  destruct (getPopularMovies_fails (Int 1) st) as (err1 & st1 & H1 & C1).
  destruct (getTrendingMovies_fails week st1) as (err2 & st2 & H2 & C2).
  exists st2. split; [|congruence].
  erewrite bind_Return; cycle 1.
  { erewrite try_catch_Throw; [done|]. by apply bind_Throw. }
  simpl. erewrite bind_Return; cycle 1.
  { erewrite try_catch_Throw; [done|]. by apply bind_Throw. }
  done.
Qed.

End AllProviderCallsFail.

(** ** The fallback *)

Lemma loadFallbackMovies_cached (e : env) (st : state) (movies : list TMDBMovie) :
  cachedFallbackMovies st = Some movies →
  loadFallbackMovies e st = (Return movies, st).
Proof.
  intros Hc. unfold loadFallbackMovies, mbind, M_bind, get_cached. by rewrite Hc.
Qed.

Lemma loadFallbackMovies_load (e : env) (st : state) :
  cachedFallbackMovies st = None →
  let movies :=
    default hardcodedFallback (bundled_of (net e fallbackPath (length (log st)))) in
  loadFallbackMovies e st
  = (Return movies, mkState (Some movies) (log st ++ [Fetch fallbackPath])).
Proof.
  intros Hc. unfold loadFallbackMovies, mbind, M_bind, get_cached. rewrite Hc.
  unfold try_catch, fetch, bundled_of.
  destruct (net e fallbackPath (length (log st))) as [response| |]; simpl; try done.
  destruct (ok response); simpl; [|done]. by destruct (json response).
Qed.

Lemma loadFallbackMovies_spec (e : env) (st : state) :
  ∃ st', loadFallbackMovies e st = (Return (fallback_at e st), st') ∧
         cachedFallbackMovies st' = Some (fallback_at e st) ∧
         (log st' = log st ∨ log st' = log st ++ [Fetch fallbackPath]).
Proof.
  unfold fallback_at. destruct (cachedFallbackMovies st) as [movies|] eqn:Hc.
  - exists st. rewrite (loadFallbackMovies_cached e st movies Hc). auto.
  - eexists. rewrite (loadFallbackMovies_load e st Hc). simpl. auto.
Qed.

Lemma not_excluded_nil (movies : list TMDBMovie) : not_excluded [] movies = movies.
Proof.
  unfold not_excluded. induction movies as [|m l IH]; [done|].
  rewrite filter_cons_True by apply not_elem_of_nil. by f_equal.
Qed.

Lemma elem_of_not_excluded (excludeIds : list number) (movies : list TMDBMovie)
    (movie : TMDBMovie) :
  movie ∈ not_excluded excludeIds movies ↔ movie ∈ movies ∧ id movie ∉ excludeIds.
Proof. unfold not_excluded. rewrite list_elem_of_filter. tauto. Qed.

(** The fallback branch shared by the two paths of [getRecommendations]. *)
Lemma fallback_branch (e : env) (excludeIds : list number) (st : state) :
  ∃ st',
    (fallbackMovies ← loadFallbackMovies e; mret (not_excluded excludeIds fallbackMovies)) st
    = (Return (not_excluded excludeIds (fallback_at e st)), st') ∧
    cachedFallbackMovies st' = Some (fallback_at e st) ∧
    (log st' = log st ∨ log st' = log st ++ [Fetch fallbackPath]).
Proof.
  destruct (loadFallbackMovies_spec e st) as (st' & H1 & H2 & H3).
  exists st'. split; [|done]. by erewrite bind_Return.
Qed.

(** C4, as the code has it. Without a credential, [getRecommendations]
    sends nothing to the provider and returns the fallback list with
    every movie removed whose id is among the watched and blocked ids
    (coerced by [parseInt]). The fallback list is the cached one when an
    earlier call left one, else the bundled dataset when its load
    succeeds, else the hardcoded list of two movies; the call leaves it
    in the cache. *)
Theorem no_credential_uses_fallback (e : env)
    (excludeWatchedIds excludeBlockedIds : list string)
    (watchedMovies : list MovieStorage.StoredMovie) (st : state) :
  truthy (TMDB_API_KEY e) = false →
  let excludeIds := parseInt <$> (excludeWatchedIds ++ excludeBlockedIds) in
  let fallback :=
    match cachedFallbackMovies st with
    | Some movies => movies
    | None =>
        match bundled_of (net e fallbackPath (length (log st))) with
        | Some movies => movies
        | None => hardcodedFallback
        end
    end in
  let r := getRecommendations e excludeWatchedIds excludeBlockedIds watchedMovies st in
  r.1 = Return (filter (λ movie, id movie ∉ excludeIds) fallback) ∧
  (∃ evs, log r.2 = log st ++ evs ∧ Forall (λ ev, provider_event ev = false) evs) ∧
  cachedFallbackMovies r.2 = Some fallback.
Proof.
  intros Hkey excludeIds fallback r.
  destruct (fallback_branch e excludeIds st) as (st' & H1 & H2 & H3).
  assert (Hr : r = (Return (not_excluded excludeIds (fallback_at e st)), st')).
  { unfold r, getRecommendations. rewrite Hkey. simpl. exact H1. }
  rewrite Hr. simpl. split; [done|]. split; [|done].
  destruct H3 as [H3|H3]; rewrite H3.
  - exists []. by rewrite app_nil_r.
  - exists [Fetch fallbackPath]. split; [done|]. by repeat constructor.
Qed.

Lemma no_credential_uses_fallback_witness :
  truthy (TMDB_API_KEY Samples.unconfigured) = false ∧
  (getRecommendations Samples.unconfigured ["550"] [] [] initial).1
  = Return (filter (λ movie, id movie ∉ parseInt <$> (["550"] ++ []))
              (coerceId <$> Samples.bundled)).
Proof.
  split; [reflexivity|].
  apply (no_credential_uses_fallback Samples.unconfigured ["550"] [] [] initial).
  reflexivity.
Defined.

(** C4 as stated fails when the bundled dataset does not load. On the
    first call of a process whose first request for the dataset is
    refused, the hardcoded list is returned; and it stays in the cache, so
    that the second call returns it again although the dataset would now
    load. Neither result is the bundled dataset. *)
Lemma no_credential_may_return_hardcoded :
  let e := Samples.unconfiguredFlaky in
  let first := getRecommendations e [] [] [] initial in
  let second := getRecommendations e [] [] [] first.2 in
  truthy (TMDB_API_KEY e) = false ∧
  first.1 = Return hardcodedFallback ∧
  second.1 = Return hardcodedFallback ∧
  bundled_of (net e fallbackPath (length (log first.2))) = Some (coerceId <$> Samples.bundled) ∧
  hardcodedFallback ≠ coerceId <$> Samples.bundled.
Proof. cbv zeta. repeat split; try reflexivity. discriminate. Qed.

(** ** The tiers and the filter *)

Lemma try_catch_total {A} (m : M A) (r : A) (st : state) :
  ∃ a st', try_catch m (λ _, mret r) st = (Return a, st').
Proof. unfold try_catch. destruct (m st) as [[a|error] st']; by eexists _, _. Qed.

Lemma bind_total {A B} (m : M A) (f : A → M B) (st : state) :
  (∃ a st', m st = (Return a, st')) →
  (∀ a st', ∃ b st'', f a st' = (Return b, st'')) →
  ∃ b st'', (m ≫= f) st = (Return b, st'').
Proof.
  intros (a & st' & Hm) Hf. destruct (Hf a st') as (b & st'' & Hb).
  exists b, st''. by rewrite (bind_Return m f st st' a Hm).
Qed.

Lemma similarLoop_returns (e : env) (recentWatched : list MovieStorage.StoredMovie)
    (recommendations : list (option TMDBMovie)) (st : state) :
  ∃ result st', similarLoop e recentWatched recommendations st = (Return result, st').
Proof.
  revert recommendations st.
  induction recentWatched as [|movie rest IH]; intros recommendations st; simpl.
  - by eexists _, _.
  - apply bind_total; [apply try_catch_total|].
    intros [recs stop] st1. simpl. destruct stop; [by eexists _, _|apply IH].
Qed.

Lemma gather_returns (e : env) (watchedMovies : list MovieStorage.StoredMovie)
    (st : state) :
  ∃ recommendations st', gather e watchedMovies st = (Return recommendations, st').
Proof.
  unfold gather. apply bind_total; [apply try_catch_total|].
  intros recs1 st1. apply bind_total.
  - case_bool_decide; [apply try_catch_total|by eexists _, _].
  - intros recs2 st2. destruct (_ && _); [apply similarLoop_returns|by eexists _, _].
Qed.

Lemma unique_sound (excludeIds : list number) (seen : gset number)
    (recommendations : list (option TMDBMovie)) (movie : TMDBMovie) :
  movie ∈ unique excludeIds seen recommendations →
  (id movie ∉ excludeIds) ∧ (id movie ∉ seen) ∧ Some movie ∈ recommendations.
Proof.
  revert seen. induction recommendations as [|[m|] rest IH]; intros seen; simpl.
  - intros H. by apply elem_of_nil in H.
  - destruct (bool_decide (id m ∈ seen)) eqn:Hs; simpl.
    { intros H. destruct (IH seen H) as (H1 & H2 & H3). repeat split; [done..|].
      by apply elem_of_cons; right. }
    destruct (bool_decide (id m ∈ excludeIds)) eqn:Hx; simpl.
    { intros H. destruct (IH seen H) as (H1 & H2 & H3). repeat split; [done..|].
      by apply elem_of_cons; right. }
    apply bool_decide_eq_false in Hs, Hx.
    intros [->|H]%elem_of_cons.
    + repeat split; [done..|]. by apply elem_of_cons; left.
    + destruct (IH _ H) as (H1 & H2 & H3). repeat split; [done| |].
      * intros Hseen. apply H2, elem_of_union. by right.
      * by apply elem_of_cons; right.
  - intros H. destruct (IH seen H) as (H1 & H2 & H3). repeat split; [done..|].
    by apply elem_of_cons; right.
Qed.

Lemma unique_NoDup (excludeIds : list number) (seen : gset number)
    (recommendations : list (option TMDBMovie)) :
  NoDup (id <$> unique excludeIds seen recommendations).
Proof.
  revert seen. induction recommendations as [|[m|] rest IH]; intros seen; simpl.
  - constructor.
  - destruct (_ || _); [apply IH|]. rewrite fmap_cons. apply NoDup_cons. split; [|apply IH].
    intros (m' & Hid & Hin)%list_elem_of_fmap.
    apply unique_sound in Hin as (_ & Hseen & _). rewrite <- Hid in Hseen. set_solver.
  - apply IH.
Qed.

(** First occurrence wins: a kept movie is the first entry with its id. *)
Lemma unique_first (excludeIds : list number) (seen : gset number)
    (recommendations : list (option TMDBMovie)) (movie : TMDBMovie) :
  movie ∈ unique excludeIds seen recommendations →
  ∃ i, recommendations !! i = Some (Some movie) ∧
       ∀ j other, j < i → recommendations !! j = Some (Some other) → id other ≠ id movie.
Proof.
  revert seen. induction recommendations as [|[m|] rest IH]; intros seen; simpl.
  - intros H. by apply elem_of_nil in H.
  - destruct (bool_decide (id m ∈ seen) || bool_decide (id m ∈ excludeIds)) eqn:Hdrop.
    + intros H. pose proof (unique_sound _ _ _ _ H) as (Hx & Hs & _).
      destruct (IH seen H) as (i & Hi & Hfirst). exists (S i). split; [done|].
      intros [|j] other Hj Hother; simpl in Hother.
      * injection Hother as <-. intros Heq. rewrite Heq in Hdrop.
        apply orb_true_iff in Hdrop as [Hd|Hd]; apply bool_decide_eq_true in Hd; done.
      * apply (Hfirst j); [lia|done].
    + intros [->|H]%elem_of_cons.
      * exists 0. split; [done|]. intros j other Hj. lia.
      * pose proof (unique_sound _ _ _ _ H) as (Hx & Hs & _).
        destruct (IH _ H) as (i & Hi & Hfirst). exists (S i). split; [done|].
        intros [|j] other Hj Hother; simpl in Hother.
        -- injection Hother as <-. intros Heq. set_solver.
        -- apply (Hfirst j); [lia|done].
  - intros H. destruct (IH seen H) as (i & Hi & Hfirst). exists (S i). split; [done|].
    intros [|j] other Hj Hother; simpl in Hother; [done|].
    apply (Hfirst j); [lia|done].
Qed.

(** Nothing eligible is lost: an entry that is neither excluded nor seen
    has its id among the kept ones. *)
Lemma unique_complete (excludeIds : list number) (seen : gset number)
    (recommendations : list (option TMDBMovie)) (movie : TMDBMovie) :
  Some movie ∈ recommendations → id movie ∉ excludeIds → id movie ∉ seen →
  id movie ∈ id <$> unique excludeIds seen recommendations.
Proof.
  revert seen. induction recommendations as [|[m|] rest IH]; intros seen Hin Hx Hs; simpl.
  - by apply elem_of_nil in Hin.
  - destruct (decide (id m = id movie)) as [Heq|Hne].
    + rewrite Heq. rewrite !bool_decide_eq_false_2 by done. simpl.
      apply elem_of_cons. by left.
    + apply elem_of_cons in Hin as [Hin|Hin]; [congruence|].
      destruct (_ || _); [by apply IH|].
      rewrite fmap_cons. apply elem_of_cons. right. apply IH; [done..|].
      intros [Hm|Hm]%elem_of_union; [|done].
      apply elem_of_singleton in Hm. congruence.
  - apply elem_of_cons in Hin as [Hin|Hin]; [done|]. by apply IH.
Qed.

Lemma take_unique_NoDup (n : nat) (excludeIds : list number)
    (recommendations : list (option TMDBMovie)) :
  NoDup (id <$> take n (unique excludeIds ∅ recommendations)).
Proof.
  rewrite fmap_take. eapply sublist_NoDup; [apply unique_NoDup|apply sublist_take].
Qed.

Lemma elem_of_take {A} (n : nat) (l : list A) (x : A) : x ∈ take n l → x ∈ l.
Proof. intros H. eapply elem_of_sublist; [done|apply sublist_take]. Qed.

(** ** The two ways out of [getRecommendations] with a credential *)

Lemma getRecommendations_unique (e : env)
    (excludeWatchedIds excludeBlockedIds : list string)
    (watchedMovies : list MovieStorage.StoredMovie) (st st1 : state)
    (recommendations : list (option TMDBMovie)) :
  truthy (TMDB_API_KEY e) = true →
  gather e watchedMovies st = (Return recommendations, st1) →
  let excludeIds := excludeIds_of excludeWatchedIds excludeBlockedIds in
  unique excludeIds ∅ recommendations ≠ [] →
  getRecommendations e excludeWatchedIds excludeBlockedIds watchedMovies st
  = (Return (take 20 (unique excludeIds ∅ recommendations)), st1).
Proof.
  intros Hkey Hg excludeIds Hne. unfold getRecommendations. rewrite Hkey. simpl.
  apply try_catch_Return. erewrite bind_Return; [|exact Hg].
  fold excludeIds. rewrite bool_decide_eq_true_2; [done|].
  destruct (unique excludeIds ∅ recommendations); [done|simpl; lia].
Qed.

Lemma getRecommendations_fallthrough (e : env)
    (excludeWatchedIds excludeBlockedIds : list string)
    (watchedMovies : list MovieStorage.StoredMovie) (st st1 : state)
    (recommendations : list (option TMDBMovie)) :
  truthy (TMDB_API_KEY e) = true →
  gather e watchedMovies st = (Return recommendations, st1) →
  let excludeIds := excludeIds_of excludeWatchedIds excludeBlockedIds in
  unique excludeIds ∅ recommendations = [] →
  ∃ st', getRecommendations e excludeWatchedIds excludeBlockedIds watchedMovies st
         = (Return (not_excluded excludeIds (fallback_at e st1)), st') ∧
         cachedFallbackMovies st' = Some (fallback_at e st1).
Proof.
  intros Hkey Hg excludeIds Hnil. unfold getRecommendations. rewrite Hkey. simpl.
  destruct (fallback_branch e excludeIds st1) as (st' & H1 & H2 & _).
  exists st'. split; [|done].
  erewrite try_catch_Throw; cycle 1.
  { erewrite bind_Return; [|exact Hg]. fold excludeIds. rewrite Hnil. simpl.
    reflexivity. }
  by apply try_catch_Return.
Qed.

(** Step 9 of the algorithm: whatever the network does, a list comes back. *)
Lemma getRecommendations_returns (e : env)
    (excludeWatchedIds excludeBlockedIds : list string)
    (watchedMovies : list MovieStorage.StoredMovie) (st : state) :
  ∃ movies st',
    getRecommendations e excludeWatchedIds excludeBlockedIds watchedMovies st
    = (Return movies, st').
Proof.
  destruct (truthy (TMDB_API_KEY e)) eqn:Hkey.
  - destruct (gather_returns e watchedMovies st) as (recs & st1 & Hg).
    destruct (unique (excludeIds_of excludeWatchedIds excludeBlockedIds) ∅ recs) eqn:Hu.
    + destruct (getRecommendations_fallthrough e excludeWatchedIds excludeBlockedIds
                  watchedMovies st st1 recs Hkey Hg Hu) as (st' & H & _). eauto.
    + eexists _, _. apply (getRecommendations_unique e _ _ _ st st1 recs Hkey Hg).
      by rewrite Hu.
  - unfold getRecommendations. rewrite Hkey. simpl.
    destruct (fallback_branch e (excludeIds_of excludeWatchedIds excludeBlockedIds) st)
      as (st' & H & _). eauto.
Qed.

(** ** Only [loadFallbackMovies] writes the cache *)

Lemma keeps_ret {A} (a : A) : keeps_cache (mret a : M A).
Proof. by intros st. Qed.

Lemma keeps_throw {A} (error : string) : keeps_cache (throw error : M A).
Proof. by intros st. Qed.

Lemma keeps_bind {A B} (m : M A) (f : A → M B) :
  keeps_cache m → (∀ a, keeps_cache (f a)) → keeps_cache (m ≫= f).
Proof.
  intros Hm Hf st. unfold mbind, M_bind. specialize (Hm st).
  destruct (m st) as [[a|error] st1]; simpl in *; [|done]. by rewrite Hf.
Qed.

Lemma keeps_try_catch {A} (m : M A) (handler : string → M A) :
  keeps_cache m → (∀ error, keeps_cache (handler error)) →
  keeps_cache (try_catch m handler).
Proof.
  intros Hm Hh st. unfold try_catch. specialize (Hm st).
  destruct (m st) as [[a|error] st1]; simpl in *; [done|]. by rewrite Hh.
Qed.

Lemma keeps_fetch (e : env) (url : string) : keeps_cache (fetch e url).
Proof. by intros st. Qed.

Lemma keeps_fetchWithRetry (e : env) (url : string) (retries : nat) :
  keeps_cache (fetchWithRetry e url retries).
Proof.
  intros st. by destruct (fetchWithRetry_bounded e url retries st) as (_ & _ & _ & _ & H).
Qed.

Lemma keeps_results_of (b : body) : keeps_cache (results_of b).
Proof. destruct b; by intros st. Qed.

Lemma keeps_read_json (response : Response) : keeps_cache (read_json response).
Proof. unfold read_json. destruct (json response); apply keeps_ret || apply keeps_throw. Qed.

Lemma keeps_retrying (e : env) (url failure : string) :
  keeps_cache (retrying e url failure).
Proof.
  apply keeps_bind; [|apply keeps_read_json].
  apply keeps_try_catch; [apply keeps_fetchWithRetry|intros; apply keeps_throw].
Qed.

Lemma keeps_getPopularMovies (e : env) (page : number) :
  keeps_cache (getPopularMovies e page).
Proof.
  unfold getPopularMovies. destruct (negb _); [apply keeps_throw|apply keeps_retrying].
Qed.

Lemma keeps_getTrendingMovies (e : env) (t : timeWindow) :
  keeps_cache (getTrendingMovies e t).
Proof.
  unfold getTrendingMovies. destruct (negb _); [apply keeps_throw|apply keeps_retrying].
Qed.

Lemma keeps_getSimilarMovies (e : env) (movieId page : number) :
  keeps_cache (getSimilarMovies e movieId page).
Proof.
  unfold getSimilarMovies. destruct (negb _); [apply keeps_throw|].
  apply keeps_bind; [apply keeps_fetch|].
  intros [response| |]; try apply keeps_throw.
  destruct (negb _); [apply keeps_throw|apply keeps_read_json].
Qed.

Lemma keeps_similarLoop (e : env) (recentWatched : list MovieStorage.StoredMovie)
    (recommendations : list (option TMDBMovie)) :
  keeps_cache (similarLoop e recentWatched recommendations).
Proof.
  revert recommendations.
  induction recentWatched as [|movie rest IH]; intros recommendations; simpl.
  - apply keeps_ret.
  - apply keeps_bind.
    + apply keeps_try_catch; [|intros; apply keeps_ret].
      apply keeps_bind; [apply keeps_getSimilarMovies|]. intros similar.
      apply keeps_bind; [apply keeps_results_of|]. intros results. apply keeps_ret.
    + intros [recs stop]. simpl. destruct stop; [apply keeps_ret|apply IH].
Qed.

Lemma keeps_gather (e : env) (watchedMovies : list MovieStorage.StoredMovie) :
  keeps_cache (gather e watchedMovies).
Proof.
  unfold gather. apply keeps_bind.
  { apply keeps_try_catch; [|intros; apply keeps_ret].
    apply keeps_bind; [apply keeps_getPopularMovies|]. intros popular.
    apply keeps_bind; [apply keeps_results_of|]. intros results. apply keeps_ret. }
  intros recs1. apply keeps_bind.
  { case_bool_decide; [|apply keeps_ret].
    apply keeps_try_catch; [|intros; apply keeps_ret].
    apply keeps_bind; [apply keeps_getTrendingMovies|]. intros trending.
    apply keeps_bind; [apply keeps_results_of|]. intros results. apply keeps_ret. }
  intros recs2. destruct (_ && _); [apply keeps_similarLoop|apply keeps_ret].
Qed.

Lemma fallback_branch_state (e : env) (excludeIds : list number) (st : state) :
  (fallbackMovies ← loadFallbackMovies e; mret (not_excluded excludeIds fallbackMovies)) st
  = (Return (not_excluded excludeIds (fallback_at e st)),
     mkState (Some (fallback_at e st))
       (log st ++ match cachedFallbackMovies st with
                  | Some _ => []
                  | None => [Fetch fallbackPath]
                  end)).
Proof.
  unfold fallback_at. destruct (cachedFallbackMovies st) as [movies|] eqn:Hc.
  - erewrite bind_Return; [|by apply loadFallbackMovies_cached].
    rewrite app_nil_r. destruct st. simpl in Hc. by rewrite Hc.
  - erewrite bind_Return; [|by apply loadFallbackMovies_load]. done.
Qed.

(** C3, as the code has it. When every call to the provider fails,
    [getRecommendations] with no exclusions and no watched movies finds
    nothing in the network tiers and returns, without raising, the
    fallback list as it is: the list an earlier call of the process left
    in the cache if there is one; else the bundled dataset (ids coerced) if
    the request for it, issued after the attempts on the provider, delivers
    it; else the hardcoded list of two movies. That list is left in the
    cache, and the dataset is requested once when the cache was empty and
    not at all otherwise. The list returned is not empty, unless the cache
    held an empty list or the dataset delivered is empty. *)
Theorem provider_down_returns_fallback (e : env) (st : state) :
  (∀ url n, provider_url url = true → failed (net e url n) = true) →
  let tiers := if truthy (TMDB_API_KEY e) then gather e [] st else (Return [], st) in
  let dataset := bundled_of (net e fallbackPath (length (log tiers.2))) in
  let fallback :=
    match cachedFallbackMovies st with
    | Some movies => movies
    | None =>
        match dataset with
        | Some movies => movies
        | None => hardcodedFallback
        end
    end in
  let r := getRecommendations e [] [] [] st in
  tiers.1 = Return [] ∧
  r.1 = Return fallback ∧
  cachedFallbackMovies r.2 = Some fallback ∧
  log r.2 = log tiers.2 ++ match cachedFallbackMovies st with
                           | Some _ => []
                           | None => [Fetch fallbackPath]
                           end ∧
  (cachedFallbackMovies st ≠ Some [] → dataset ≠ Some [] → fallback ≠ []).
Proof.
  intros Hfail tiers dataset fallback r.
  assert (Hne : cachedFallbackMovies st ≠ Some [] → dataset ≠ Some [] → fallback ≠ []).
  { unfold fallback. destruct (cachedFallbackMovies st) as [movies|]; [congruence|].
    intros _. destruct dataset as [movies|]; [congruence|done]. }
  assert (Hr : ∃ st1, tiers = (Return [], st1) ∧
                      cachedFallbackMovies st1 = cachedFallbackMovies st ∧
                      r = (fallbackMovies ← loadFallbackMovies e;
                           mret (not_excluded [] fallbackMovies)) st1).
  { unfold tiers, r, getRecommendations. destruct (truthy (TMDB_API_KEY e)) eqn:Hkey; simpl.
    - destruct (gather_fails e Hfail [] st) as (st1 & Hg & Hc).
      exists st1. split; [done|]. split; [done|].
      erewrite try_catch_Throw; cycle 1.
      { erewrite bind_Return; [|exact Hg]. reflexivity. }
      destruct (fallback_branch e [] st1) as (st' & H1 & _).
      change (excludeIds_of [] []) with (@nil number).
      rewrite H1. by apply try_catch_Return.
    - by exists st. }
  destruct Hr as (st1 & Ht & Hc & Hr).
  refine (conj _ (conj _ (conj _ (conj _ Hne)))); clear Hne;
    rewrite ?Hr, ?fallback_branch_state; unfold fallback, dataset, fallback_at;
    rewrite Ht, ?Hc, ?not_excluded_nil; done.
Qed.

Lemma provider_down_returns_fallback_witness :
  (∀ url n, provider_url url = true → failed (net Samples.providerDown url n) = true) ∧
  (getRecommendations Samples.providerDown [] [] [] initial).1
  = Return (coerceId <$> Samples.bundled) ∧
  cachedFallbackMovies (getRecommendations Samples.providerDown [] [] [] initial).2
  = Some (coerceId <$> Samples.bundled).
Proof.
  assert (H : ∀ url n, provider_url url = true →
                       failed (net Samples.providerDown url n) = true).
  { intros url n Hp. simpl. destruct (String.eqb url fallbackPath) eqn:Heq; [|done].
    apply String.eqb_eq in Heq. subst url. discriminate Hp. }
  split; [exact H|].
  destruct (provider_down_returns_fallback Samples.providerDown initial H)
    as (_ & H1 & H2 & _).
  split; [exact H1|exact H2].
Defined.

(** C3 as stated fails when the bundled dataset holds no movie. The
    provider is down and the request for the dataset is answered with a
    document whose [popular] array is empty: the dataset loads, and the
    list returned is empty. *)
Lemma empty_dataset_recommends_nothing :
  let e := Samples.emptyDataset in
  (∀ url n, provider_url url = true → failed (net e url n) = true) ∧
  (∀ n, bundled_of (net e fallbackPath n) = Some []) ∧
  (getRecommendations e [] [] [] initial).1 = Return [].
Proof.
  split; [|split; reflexivity].
  intros url n Hp. simpl. destruct (String.eqb url fallbackPath) eqn:Heq; [|done].
  apply String.eqb_eq in Heq. subst url. discriminate Hp.
Qed.

(** C5, as the code has it. With a credential, when the accumulator of
    the network tiers holds at least one movie that is not excluded, the
    returned list holds no two entries with the same id, each entry being
    the first one with its id in the accumulator (popular, then trending,
    then similar); it holds no entry whose id is excluded; and it has at
    most 20 items. Whatever the accumulator holds, the returned list has no
    entry whose id is excluded. *)
Theorem recommendations_are_unique_and_filtered (e : env)
    (excludeWatchedIds excludeBlockedIds : list string)
    (watchedMovies : list MovieStorage.StoredMovie) (st st1 : state)
    (recommendations : list (option TMDBMovie)) :
  truthy (TMDB_API_KEY e) = true →
  gather e watchedMovies st = (Return recommendations, st1) →
  let excludeIds := parseInt <$> (excludeWatchedIds ++ excludeBlockedIds) in
  let r := getRecommendations e excludeWatchedIds excludeBlockedIds watchedMovies st in
  (∃ movies, r.1 = Return movies ∧ ∀ movie, movie ∈ movies → id movie ∉ excludeIds) ∧
  ((∃ movie, Some movie ∈ recommendations ∧ id movie ∉ excludeIds) →
   ∃ movies,
     r = (Return movies, st1) ∧
     NoDup (id <$> movies) ∧
     length movies ≤ 20 ∧
     ∀ movie, movie ∈ movies →
       ∃ i, recommendations !! i = Some (Some movie) ∧
            ∀ j other, j < i → recommendations !! j = Some (Some other) →
                       id other ≠ id movie).
Proof.
  intros Hkey Hg excludeIds r.
  assert (Hsome : (∃ movie, Some movie ∈ recommendations ∧ id movie ∉ excludeIds) →
                  unique excludeIds ∅ recommendations ≠ []).
  { intros (movie & Hin & Hx) Hnil.
    pose proof (unique_complete excludeIds ∅ recommendations movie Hin Hx) as H.
    rewrite Hnil in H. apply (elem_of_nil (id movie)), H. apply not_elem_of_empty. }
  split.
  - destruct (unique excludeIds ∅ recommendations) eqn:Hu.
    + destruct (getRecommendations_fallthrough e excludeWatchedIds excludeBlockedIds
                  watchedMovies st st1 recommendations Hkey Hg Hu) as (st' & Hr & _).
      exists (not_excluded excludeIds (fallback_at e st1)). unfold r. rewrite Hr.
      split; [done|]. intros movie Hin. by apply elem_of_not_excluded in Hin as [_ Hin].
    + assert (Hne : unique excludeIds ∅ recommendations ≠ []) by (by rewrite Hu).
      exists (take 20 (unique excludeIds ∅ recommendations)). unfold r.
      rewrite (getRecommendations_unique e _ _ _ st st1 recommendations Hkey Hg Hne).
      split; [done|]. intros movie Hin%elem_of_take.
      by apply unique_sound in Hin as (Hin & _).
  - intros Hne%Hsome. exists (take 20 (unique excludeIds ∅ recommendations)).
    split; [exact (getRecommendations_unique e _ _ _ st st1 recommendations Hkey Hg Hne)|].
    split; [apply take_unique_NoDup|].
    split; [rewrite length_take; lia|].
    intros movie Hin%elem_of_take. by eapply unique_first.
Qed.

Lemma recommendations_are_unique_and_filtered_witness :
  let accumulator :=
    [Some (Samples.movie 1); Some (Samples.movie 2); None;
     Some (Samples.movie 2); Some (Samples.movie 4)] in
  let st1 := (gather Samples.healthy [] initial).2 in
  truthy (TMDB_API_KEY Samples.healthy) = true ∧
  gather Samples.healthy [] initial = (Return accumulator, st1) ∧
  (∃ movie, Some movie ∈ accumulator ∧ id movie ∉ parseInt <$> (["4"] ++ [])) ∧
  ∃ movies,
    getRecommendations Samples.healthy ["4"] [] [] initial = (Return movies, st1) ∧
    NoDup (id <$> movies) ∧ length movies ≤ 20.
Proof.
  intros accumulator st1.
  assert (Hkey : truthy (TMDB_API_KEY Samples.healthy) = true) by reflexivity.
  assert (Hg : gather Samples.healthy [] initial = (Return accumulator, st1))
    by reflexivity.
  assert (Hsome : ∃ movie, Some movie ∈ accumulator ∧
                           id movie ∉ parseInt <$> (["4"] ++ [])).
  { exists (Samples.movie 1). split; compute_done. }
  split; [exact Hkey|]. split; [exact Hg|]. split; [exact Hsome|].
  destruct (recommendations_are_unique_and_filtered Samples.healthy ["4"] [] [] initial
              st1 accumulator Hkey Hg) as [_ H].
  destruct (H Hsome) as (movies & H1 & H2 & H3 & _). by exists movies.
Defined.

(** C5 as stated fails when everything the tiers found is excluded. The
    accumulator holds movie 1, which the caller has watched; the filter
    leaves nothing, the call falls through to the bundled dataset, and the
    list it returns has 21 items. *)
Lemma excluded_accumulator_falls_back :
  (gather Samples.crowded [] initial).1 = Return [Some (Samples.movie 1)] ∧
  ∃ movies,
    (getRecommendations Samples.crowded ["1"] [] [] initial).1 = Return movies ∧
    length movies = 21.
Proof. split; [reflexivity|]. eexists. split; reflexivity. Qed.

End TmdbFacts.

(** * Properties of the recommendation assembler *)

Module RecommendationsFacts.
Import JS Recommendations.

(** The loop over one category keeps [mixed] free of duplicate ids and
    [addedIds] equal to the set of ids in [mixed]; it appends movies of the
    category only, and no more than [maxPerCategory - added] of them. *)
Lemma addCategory_spec (categoryMovies mixed : list SimpleMovie)
    (addedIds : gset string) (added : nat) :
  NoDup (id <$> mixed) →
  (∀ x, x ∈ id <$> mixed ↔ x ∈ addedIds) →
  let r := addCategory categoryMovies mixed addedIds added in
  NoDup (id <$> r.1) ∧
  (∀ x, x ∈ id <$> r.1 ↔ x ∈ r.2) ∧
  ∃ extra, r.1 = mixed ++ extra ∧
           length extra ≤ maxPerCategory - added ∧
           ∀ movie, movie ∈ extra → movie ∈ categoryMovies.
Proof.
  revert mixed addedIds added.
  induction categoryMovies as [|movie rest IH]; intros mixed addedIds added Hnd Hids; simpl.
  - split; [done|]. split; [done|]. exists []. rewrite app_nil_r.
    split; [done|]. split; [simpl; lia|]. intros m Hm. by apply elem_of_nil in Hm.
  - destruct (bool_decide (id movie ∈ addedIds)) eqn:Hseen; simpl.
    { destruct (IH mixed addedIds added Hnd Hids) as (H1 & H2 & extra & H3 & H4 & H5).
      split; [done|]. split; [done|]. exists extra. split; [done|]. split; [done|].
      intros m Hm. apply elem_of_cons. right. by apply H5. }
    destruct (bool_decide (added < maxPerCategory)) eqn:Hroom; simpl.
    2: { destruct (IH mixed addedIds added Hnd Hids) as (H1 & H2 & extra & H3 & H4 & H5).
         split; [done|]. split; [done|]. exists extra. split; [done|]. split; [done|].
         intros m Hm. apply elem_of_cons. right. by apply H5. }
    apply bool_decide_eq_false in Hseen. apply bool_decide_eq_true in Hroom.
    destruct (IH (mixed ++ [movie]) ({[id movie]} ∪ addedIds) (S added))
      as (H1 & H2 & extra & H3 & H4 & H5).
    + rewrite fmap_app. apply NoDup_app. split; [done|]. split.
      * intros x Hx [->|Hin]%elem_of_cons; [by apply Hseen, Hids|].
        by apply elem_of_nil in Hin.
      * simpl. apply NoDup_singleton.
    + intros x. rewrite fmap_app, elem_of_app, elem_of_union, elem_of_singleton.
      simpl. rewrite list_elem_of_singleton, Hids. tauto.
    + split; [done|]. split; [done|]. exists (movie :: extra).
      split; [by rewrite H3, <- app_assoc|]. split; [simpl; lia|].
      intros m [->|Hm]%elem_of_cons; apply elem_of_cons; [by left|right; by apply H5].
Qed.

(** C8. Whatever the three fetchers resolved to, [getMixedRecommendations]
    returns at most 10 entries, no two of which have the same id; every
    entry comes from one of the three lists. *)
Theorem mixed_recommendations_bounded_and_unique
    (popular trending topRated : list SimpleMovie) :
  let mixed := getMixedRecommendations popular trending topRated in
  length mixed ≤ 10 ∧
  NoDup (id <$> mixed) ∧
  ∀ movie, movie ∈ mixed → movie ∈ popular ∨ movie ∈ trending ∨ movie ∈ topRated.
Proof.
  unfold getMixedRecommendations. simpl.
  destruct (addCategory_spec popular [] ∅ 0) as (N1 & I1 & x1 & E1 & L1 & F1).
  { constructor. }
  { intros x. simpl. rewrite elem_of_nil. split; [done|]. apply not_elem_of_empty. }
  destruct (addCategory popular [] ∅ 0) as [m1 s1]. simpl in *.
  destruct (addCategory_spec trending m1 s1 0 N1 I1) as (N2 & I2 & x2 & E2 & L2 & F2).
  destruct (addCategory trending m1 s1 0) as [m2 s2]. simpl in *.
  destruct (addCategory_spec topRated m2 s2 0 N2 I2) as (N3 & I3 & x3 & E3 & L3 & F3).
  destruct (addCategory topRated m2 s2 0) as [m3 s3]. simpl in *.
  split; [rewrite length_take; lia|].
  split.
  - rewrite fmap_take. eapply sublist_NoDup; [exact N3|apply sublist_take].
  - intros movie Hin. assert (Hm : movie ∈ m3).
    { eapply elem_of_sublist; [exact Hin|apply sublist_take]. }
    subst m3 m2 m1. rewrite !elem_of_app in Hm. destruct Hm as [[Hm|Hm]|Hm]; auto.
Qed.

End RecommendationsFacts.

(** * Properties of the JavaScript primitives *)

Module JSFacts.
Import JS.

(** ** Strings *)

Lemma append_assoc (s t u : string) : (s +:+ t) +:+ u = s +:+ t +:+ u.
Proof.
  induction s as [|a s IH]; [done|].
  change (String a ((s +:+ t) +:+ u) = String a (s +:+ t +:+ u)). by f_equal.
Qed.

Lemma append_nil_r (s : string) : s +:+ "" = s.
Proof.
  induction s as [|a s IH]; [done|].
  change (String a (s +:+ "") = String a s). by f_equal.
Qed.

(** ** Numbers written out and read back *)

Lemma digit_value_pretty (d : N) :
  (d < 10)%N → digit_value 10 (pretty_N_char d) = Some (Z.of_N d).
Proof.
  intros Hd.
  assert (d = 0 ∨ d = 1 ∨ d = 2 ∨ d = 3 ∨ d = 4 ∨ d = 5 ∨ d = 6 ∨ d = 7 ∨ d = 8 ∨ d = 9)%N
    as Hcases by lia.
  repeat (destruct Hcases as [->|Hcases]; [done|]). by subst.
Qed.

Lemma decimal_pretty_char (d : N) : decimal (String (pretty_N_char d) "") = true.
Proof. unfold pretty_N_char. by repeat case_match. Qed.

Lemma decimal_app (s t : string) :
  decimal (s +:+ t) = decimal s && decimal t.
Proof.
  induction s as [|a s IH]; simpl; [done|]. rewrite IH. by rewrite andb_assoc.
Qed.

Lemma pretty_N_go_app (x : N) (s : string) :
  pretty_N_go x s = pretty_N_go x "" +:+ s.
Proof.
  revert s. induction (N.lt_wf_0 x) as [x _ IH]; intros s.
  assert (x = 0 ∨ 0 < x)%N as [->|Hx] by lia; [done|].
  rewrite (pretty_N_go_step x s), (pretty_N_go_step x "") by done.
  assert (Hlt : (x `div` 10 < x)%N) by (by apply N.div_lt).
  rewrite (IH _ Hlt (String (pretty_N_char (x `mod` 10)) s)).
  rewrite (IH _ Hlt (String (pretty_N_char (x `mod` 10)) "")).
  by rewrite append_assoc.
Qed.

Lemma pretty_N_go_snoc (x : N) :
  (0 < x)%N →
  pretty_N_go x ""
  = pretty_N_go (x `div` 10) "" +:+ String (pretty_N_char (x `mod` 10)) "".
Proof. intros Hx. by rewrite pretty_N_go_step, pretty_N_go_app. Qed.

Lemma decimal_pretty_N_go (x : N) : decimal (pretty_N_go x "") = true.
Proof.
  induction (N.lt_wf_0 x) as [x _ IH].
  assert (x = 0 ∨ 0 < x)%N as [->|Hx] by lia; [done|].
  rewrite pretty_N_go_snoc, decimal_app, IH, decimal_pretty_char by (by try apply N.div_lt).
  done.
Qed.

Lemma pretty_N_go_nonempty (x : N) : (0 < x)%N → pretty_N_go x "" ≠ "".
Proof.
  intros Hx. rewrite pretty_N_go_snoc by done.
  by destruct (pretty_N_go (x `div` 10) "").
Qed.

(** Reading the digits of [x] from the start of a string. *)
Lemma digits_pretty_N_go (x : N) (t : string) :
  digits 10 None (pretty_N_go x "" +:+ t)
  = digits 10 (if decide (x = 0)%N then None else Some (Z.of_N x)) t.
Proof.
  revert t. induction (N.lt_wf_0 x) as [x _ IH]; intros t.
  assert (x = 0 ∨ 0 < x)%N as [->|Hx] by lia; [done|].
  rewrite pretty_N_go_snoc by done. rewrite append_assoc.
  rewrite IH by (by apply N.div_lt). simpl.
  rewrite digit_value_pretty by (by apply N.mod_lt).
  destruct (decide (x = 0)%N) as [?|_]; [lia|]. f_equal. f_equal.
  pose proof (N.div_mod x 10 ltac:(done)) as Hdm.
  destruct (decide (x `div` 10 = 0)%N) as [H0|H0]; simpl; [rewrite H0 in Hdm|]; lia.
Qed.

Lemma radix_decimal (s : string) :
  decimal s = true →
  match s with
  | String "0" (String "x" s') | String "0" (String "X" s') => (16%Z, s')
  | _ => (10%Z, s)
  end = (10%Z, s).
Proof.
  destruct s as [|a [|b s]]; [done| |].
  - by destruct a as [[] [] [] [] [] [] [] []].
  - intros Hdec. simpl in Hdec. apply andb_prop in Hdec as [Ha [Hb _]%andb_prop].
    destruct a as [[] [] [] [] [] [] [] []]; try (by vm_compute in Ha); try done.
    destruct b as [[] [] [] [] [] [] [] []]; try (by vm_compute in Hb); done.
Qed.

(** A byte below 128 that is not white space starts no white space. *)
Lemma trimStart_plain (a : ascii) (s : string) :
  space1 a = false → nat_of_ascii a < 128 → trimStart (String a s) = String a s.
Proof.
  intros H1 Ha.
  assert (Hx : ∀ k, 128 ≤ k → (nat_of_ascii a =? k) = false)
    by (intros k Hk; apply Nat.eqb_neq; lia).
  assert (H2 : ∀ b, space2 a b = false)
    by (intros b; unfold space2; by rewrite Hx by lia).
  assert (H3 : ∀ b c, space3 a b c = false)
    by (intros b c; unfold space3; cbv zeta; by rewrite !Hx by lia).
  destruct s as [|b [|c s]]; cbn [trimStart]; by rewrite H1, ?H2, ?H3.
Qed.

Lemma parseInt_minus_decimal (s : string) :
  decimal s = true →
  parseInt (String "-" s)
  = match digits 10 None s with
    | Some n => Int (-1 * n)
    | None => NaN
    end.
Proof.
  intros Hdec. pose proof (radix_decimal s Hdec) as Hradix.
  unfold parseInt.
  rewrite (trimStart_plain "-" s) by (done || (apply Nat.ltb_lt; reflexivity)).
  cbv beta iota zeta.
  by rewrite Hradix.
Qed.

Lemma parseInt_decimal (s : string) :
  s ≠ "" → decimal s = true →
  parseInt s
  = match digits 10 None s with
    | Some n => Int (1 * n)
    | None => NaN
    end.
Proof.
  intros Hne Hdec. pose proof (radix_decimal s Hdec) as Hradix.
  destruct s as [|a s]; [done|].
  assert (Ha : (space1 a = false ∧ nat_of_ascii a < 128) ∧
               match String a s with
               | String "-" s' => ((-1)%Z, s')
               | String "+" s' => (1%Z, s')
               | _ => (1%Z, String a s)
               end = (1%Z, String a s)).
  { simpl in Hdec. apply andb_prop in Hdec as [[Ha Hb]%andb_prop _].
    destruct a as [[] [] [] [] [] [] [] []];
      try (by vm_compute in Ha); try (by vm_compute in Hb);
      (split; [split; [done|apply Nat.ltb_lt; reflexivity]|done]). }
  destruct Ha as [[Hsp Hlt] Hsign]. unfold parseInt.
  rewrite (trimStart_plain a s Hsp Hlt). cbv beta iota zeta. rewrite Hsign.
  cbv beta iota zeta.
  by rewrite Hradix.
Qed.

Lemma parseInt_toString (n : number) : parseInt (toString n) = n.
Proof.
  destruct n as [|[|x|x]]; [done|done|..]; simpl.
  - unfold pretty, pretty_Z, pretty, pretty_positive, pretty, pretty_N.
    rewrite decide_False by done.
    rewrite parseInt_decimal
      by (by try apply pretty_N_go_nonempty; try apply decimal_pretty_N_go).
    pose proof (digits_pretty_N_go (N.pos x) "") as Hd.
    rewrite append_nil_r in Hd. rewrite Hd, decide_False by done. simpl.
    by destruct x.
  - unfold pretty, pretty_Z, pretty, pretty_positive, pretty, pretty_N.
    rewrite decide_False by done.
    change ("-" +:+ pretty_N_go (N.pos x) "") with (String "-" (pretty_N_go (N.pos x) "")).
    rewrite parseInt_minus_decimal by apply decimal_pretty_N_go.
    pose proof (digits_pretty_N_go (N.pos x) "") as Hd.
    rewrite append_nil_r in Hd. by rewrite Hd, decide_False by done.
Qed.

End JSFacts.

(** * Properties of the genre strings *)

Module GenreFacts.
Import JS Text Recommendations JSFacts.

(** ** Searching for a comma *)

Lemma prefix_comma (a : ascii) (s : string) :
  String.prefix "," (String a s) = Ascii.eqb a ",".
Proof.
  change (String.prefix "," (String a s))
    with (if ascii_dec "," a then String.prefix "" s else false).
  destruct (ascii_dec "," a) as [<-|Hne]; [by destruct s|].
  symmetry. apply Ascii.eqb_neq. congruence.
Qed.

Lemma includes_cons (sub : string) (a : ascii) (s : string) :
  includes sub (String a s) = String.prefix sub (String a s) || includes sub s.
Proof. done. Qed.

Lemma includes_comma_cons (a : ascii) (s : string) :
  includes "," (String a s) = Ascii.eqb a "," || includes "," s.
Proof. by rewrite includes_cons, prefix_comma. Qed.

Lemma includes_comma_app (s t : string) :
  includes "," (s +:+ t) = includes "," s || includes "," t.
Proof.
  induction s as [|a s IH].
  - change ("" +:+ t) with t. by destruct t.
  - change (String a s +:+ t) with (String a (s +:+ t)).
    by rewrite !includes_comma_cons, IH, orb_assoc.
Qed.

(** ** Commas replaced *)

Lemma replace_commas_no_comma (n : nat) (eating : bool) (s : string) :
  String.length s ≤ n → includes "," (replace_commas " • " eating s) = false.
Proof.
  revert eating s. induction n as [|n IH]; intros eating s Hn.
  - destruct s; [done|simpl in Hn; lia].
  - destruct s as [|a s1]; [done|]. simpl in Hn.
    assert (Hscan : includes ","
              (if Ascii.eqb a ","
               then " • " +:+ replace_commas " • " true s1
               else String a (replace_commas " • " false s1)) = false).
    { destruct (Ascii.eqb a ",") eqn:Ha.
      - rewrite includes_comma_app, IH by lia. done.
      - rewrite includes_comma_cons, Ha, IH by lia. done. }
    simpl. destruct eating; [|exact Hscan].
    destruct (space1 a); [apply IH; lia|].
    destruct s1 as [|b s2]; [exact Hscan|].
    destruct (space2 a b); [apply IH; simpl in Hn; lia|].
    destruct s2 as [|c s3]; [exact Hscan|].
    destruct (space3 a b c); [apply IH; simpl in Hn; lia|exact Hscan].
Qed.

Lemma replace_commas_id (replacement : string) (s : string) :
  includes "," s = false → replace_commas replacement false s = s.
Proof.
  induction s as [|a s IH]; [done|].
  rewrite includes_comma_cons. intros [Ha Hs]%orb_false_elim.
  simpl. rewrite Ha. by rewrite IH.
Qed.

(** X1. [formatGenresForDisplay] applied twice is the same as applied once;
    and unless its argument holds the bullet separator already, in which
    case it is returned as it is, the result holds no comma at all. *)
Theorem formatGenresForDisplay_idempotent (genreString : string) :
  formatGenresForDisplay (formatGenresForDisplay genreString)
  = formatGenresForDisplay genreString ∧
  (if includes " • " genreString then formatGenresForDisplay genreString = genreString
   else includes "," (formatGenresForDisplay genreString) = false).
Proof.
  destruct (truthy genreString) eqn:Ht; [|by destruct genreString].
  pose proof (replace_commas_no_comma _ false genreString (Nat.le_refl _)) as Hc.
  destruct (includes " • " genreString) eqn:Hb.
  - assert (Hf : formatGenresForDisplay genreString = genreString)
      by (unfold formatGenresForDisplay; by rewrite Ht, Hb).
    by rewrite !Hf.
  - assert (Hf : formatGenresForDisplay genreString
                 = replace_commas " • " false genreString)
      by (unfold formatGenresForDisplay; by rewrite Ht, Hb).
    rewrite Hf. split; [|exact Hc]. unfold formatGenresForDisplay.
    destruct (truthy (replace_commas " • " false genreString)) eqn:Hr; simpl.
    + destruct (includes " • " (replace_commas " • " false genreString)); [done|].
      by apply replace_commas_id.
    + by destruct (replace_commas " • " false genreString).
Qed.

(** ** Splitting *)

Lemma split_none (sep s : string) :
  includes sep s = false → split sep s = [s].
Proof.
  unfold split. induction s as [|a s IH]; [done|].
  rewrite includes_cons. intros [Hp Hs]%orb_false_elim.
  cbn [split_from]. rewrite Hp, (IH Hs). done.
Qed.

Lemma split_comma_app (g rest : string) :
  includes "," g = false →
  split "," (g +:+ String "," rest) = g :: split "," rest.
Proof.
  unfold split. induction g as [|a g IH].
  - intros _. change ("" +:+ String "," rest) with (String "," rest).
    cbn [split_from]. rewrite prefix_comma. done.
  - rewrite includes_comma_cons. intros [Ha Hg]%orb_false_elim.
    change (String a g +:+ String "," rest) with (String a (g +:+ String "," rest)).
    cbn [split_from]. rewrite prefix_comma, Ha, (IH Hg). done.
Qed.

Lemma split_join (pre g : string) (gs : list string) :
  includes "," pre = false → includes "," g = false →
  Forall (λ g, includes "," g = false) gs →
  split "," (pre +:+ join ", " (g :: gs))
  = (pre +:+ g) :: ((λ g, " " +:+ g) <$> gs).
Proof.
  revert pre g. induction gs as [|g2 gs IH]; intros pre g Hpre Hg Hgs.
  - simpl. apply split_none. by rewrite includes_comma_app, Hpre, Hg.
  - apply Forall_cons in Hgs as [Hg2 Hgs].
    change (join ", " (g :: g2 :: gs)) with (g +:+ ", " +:+ join ", " (g2 :: gs)).
    rewrite <- append_assoc.
    change (", " +:+ join ", " (g2 :: gs))
      with (String "," (" " +:+ join ", " (g2 :: gs))).
    rewrite split_comma_app by (by rewrite includes_comma_app, Hpre, Hg).
    rewrite (IH " " g2) by done. done.
Qed.

(** ** Trimming *)

Lemma trimStart_length (n : nat) (s : string) :
  String.length s ≤ n → String.length (trimStart s) ≤ String.length s.
Proof.
  revert s. induction n as [|n IH]; intros s Hn.
  - destruct s; [done|simpl in Hn; lia].
  - destruct s as [|a s1]; [done|]. simpl in Hn. simpl.
    destruct (space1 a); [specialize (IH s1); lia|].
    destruct s1 as [|b s2]; [done|]. simpl in Hn.
    destruct (space2 a b); [specialize (IH s2); simpl; lia|].
    destruct s2 as [|c s3]; [done|]. simpl in Hn.
    destruct (space3 a b c); [specialize (IH s3); simpl; lia|done].
Qed.

Lemma trimStart_idempotent (n : nat) (s : string) :
  String.length s ≤ n → trimStart (trimStart s) = trimStart s.
Proof.
  revert s. induction n as [|n IH]; intros s Hn.
  - destruct s; [done|simpl in Hn; lia].
  - destruct s as [|a s1]; [done|]. simpl in Hn.
    cbn [trimStart]. destruct (space1 a) eqn:H1; [apply IH; lia|].
    destruct s1 as [|b s2]; [cbn [trimStart]; by rewrite H1|]. simpl in Hn.
    destruct (space2 a b) eqn:H2; [apply IH; lia|].
    destruct s2 as [|c s3]; [cbn [trimStart]; by rewrite H1, H2|]. simpl in Hn.
    destruct (space3 a b c) eqn:H3; [apply IH; lia|].
    cbn [trimStart]. by rewrite H1, H2, H3.
Qed.

(** Blank strings: white space from end to end. *)
Lemma blank_app (n : nat) (s t : string) :
  String.length s ≤ n → blank s = true → trimStart (s +:+ t) = trimStart t.
Proof.
  unfold blank. revert s. induction n as [|n IH]; intros s Hn Hs.
  - destruct s; [done|simpl in Hn; lia].
  - destruct s as [|a s1]; [done|]. simpl in Hn.
    change (String a s1 +:+ t) with (String a (s1 +:+ t)).
    cbn [trimStart] in Hs |- *.
    destruct (space1 a) eqn:H1; [apply IH; [lia|done]|].
    destruct s1 as [|b s2]; [done|]. simpl in Hn.
    change (String b s2 +:+ t) with (String b (s2 +:+ t)). cbv beta iota.
    destruct (space2 a b) eqn:H2; [apply IH; [lia|done]|].
    destruct s2 as [|c s3]; [done|]. simpl in Hn.
    change (String c s3 +:+ t) with (String c (s3 +:+ t)). cbv beta iota.
    destruct (space3 a b c) eqn:H3; [apply IH; [lia|done]|done].
Qed.

Lemma trimEnd_split (s : string) :
  ∃ t, s = trimEnd s +:+ t ∧ blank t = true.
Proof.
  induction s as [|a s IH]; [by exists ""|].
  cbn [trimEnd]. destruct (blank (String a s)) eqn:Hb.
  - by exists (String a s).
  - destruct IH as (t & Hs & Ht). exists t. split; [|done].
    change (String a (trimEnd s) +:+ t) with (String a (trimEnd s +:+ t)).
    by rewrite <- Hs.
Qed.

Lemma trimEnd_idempotent (s : string) : trimEnd (trimEnd s) = trimEnd s.
Proof.
  induction s as [|a s IH]; [done|].
  cbn [trimEnd]. destruct (blank (String a s)) eqn:Hb; [done|].
  cbn [trimEnd]. rewrite IH.
  destruct (blank (String a (trimEnd s))) eqn:Hb'; [|done].
  destruct (trimEnd_split s) as (t & Hs & Ht).
  assert (Hall : blank (String a s) = true).
  { unfold blank. rewrite Hs at 1.
    change (String a (trimEnd s +:+ t)) with (String a (trimEnd s) +:+ t).
    rewrite (blank_app _ (String a (trimEnd s)) t (Nat.le_refl _) Hb'). exact Ht. }
  congruence.
Qed.

(** A string that does not start with white space keeps that property
    when its trailing white space is cut off. *)
Lemma trimStart_trimEnd (s : string) :
  trimStart s = s → trimStart (trimEnd s) = trimEnd s.
Proof.
  intros Hs. destruct s as [|a s1]; [done|].
  assert (Hlen : ∀ u, String.length (trimStart u) ≤ String.length u)
    by (intros u; by apply (trimStart_length (String.length u))).
  cbn [trimEnd]. destruct (blank (String a s1)); [done|].
  cbn [trimStart] in Hs.
  destruct (space1 a) eqn:H1.
  { pose proof (Hlen s1) as H. rewrite Hs in H. simpl in H. lia. }
  destruct s1 as [|b s2]; [cbn [trimEnd trimStart]; by rewrite H1|].
  destruct (space2 a b) eqn:H2.
  { pose proof (Hlen s2) as H. rewrite Hs in H. simpl in H. lia. }
  cbn [trimEnd]. destruct (blank (String b s2)); [cbn [trimStart]; by rewrite H1|].
  destruct s2 as [|c s3]; [cbn [trimEnd trimStart]; by rewrite H1, H2|].
  destruct (space3 a b c) eqn:H3.
  { pose proof (Hlen s3) as H. rewrite Hs in H. simpl in H. lia. }
  cbn [trimEnd]. destruct (blank (String c s3)); cbn [trimStart]; by rewrite H1, ?H2, ?H3.
Qed.

Lemma trim_idempotent (s : string) : trim (trim s) = trim s.
Proof.
  unfold trim.
  rewrite (trimStart_trimEnd (trimStart s))
    by (by apply (trimStart_idempotent (String.length s))).
  apply trimEnd_idempotent.
Qed.

Lemma trim_space (g : string) : trim (" " +:+ g) = trim g.
Proof. done. Qed.

(** ** Genres parsed *)

(** X2. Every genre [parseGenres] returns is a non-empty string without
    white space at either end: trimming it again changes nothing. The
    empty string has no genres. *)
Theorem parseGenres_trimmed (genreString : string) :
  parseGenres "" = [] ∧
  Forall (λ genre, genre ≠ "" ∧ trim genre = genre) (parseGenres genreString).
Proof.
  split; [done|]. unfold parseGenres.
  destruct (negb (truthy genreString)); [constructor|].
  apply Forall_forall. intros genre Hg.
  apply list_elem_of_filter in Hg as [Hlen Hg].
  apply list_elem_of_fmap in Hg as (piece & -> & _).
  split; [|apply trim_idempotent].
  intros Hnil. rewrite Hnil in Hlen. simpl in Hlen. lia.
Qed.

(** X3. [parseGenres] reads back what was written in the comma format: for
    genre names that are not empty, carry no white space at either end and
    hold neither a comma nor the bullet separator, parsing the names
    joined by a comma and a space gives the names, in their order. *)
Theorem parseGenres_join (genres : list string) :
  Forall (λ genre, genre ≠ "" ∧ trim genre = genre ∧
                   includes "," genre = false ∧ includes " • " genre = false) genres →
  parseGenres (join ", " genres) = genres.
Proof.
  intros Hclean. destruct genres as [|g gs]; [done|].
  apply Forall_cons in Hclean as [(Hne & Htrim & Hcomma & Hbullet) Hgs].
  assert (Hcommas : Forall (λ g, includes "," g = false) gs).
  { eapply Forall_impl; [exact Hgs|]. by intros g' (_ & _ & H & _). }
  assert (Hsplit : split "," (join ", " (g :: gs)) = g :: ((λ g, " " +:+ g) <$> gs)).
  { apply (split_join "" g gs); done. }
  assert (Hkeep : filter (λ genre, 0 < String.length genre)
                    (trim <$> (g :: ((λ g, " " +:+ g) <$> gs))) = g :: gs).
  { rewrite fmap_cons, Htrim, <- list_fmap_compose.
    rewrite filter_cons_True by (destruct g; [done|simpl; lia]). f_equal.
    clear Hsplit Hcommas. induction gs as [|g2 gs IH]; [done|].
    apply Forall_cons in Hgs as [(Hne2 & Htrim2 & _) Hgs].
    rewrite fmap_cons. simpl. rewrite trim_space, Htrim2.
    rewrite filter_cons_True by (destruct g2; [done|simpl; lia]).
    f_equal. by apply IH. }
  unfold parseGenres.
  assert (Htruthy : truthy (join ", " (g :: gs)) = true).
  { destruct gs as [|g2 gs]; simpl; [by destruct g|]. by destruct g. }
  rewrite Htruthy. simpl negb. cbv iota.
  destruct gs as [|g2 gs].
  - simpl join. rewrite Hcomma. rewrite (split_none " • " g Hbullet).
    simpl. rewrite Htrim. rewrite filter_cons_True by (destruct g; [done|simpl; lia]).
    done.
  - assert (Hinc : includes "," (join ", " (g :: g2 :: gs)) = true).
    { change (join ", " (g :: g2 :: gs)) with (g +:+ ", " +:+ join ", " (g2 :: gs)).
      rewrite includes_comma_app.
      change (", " +:+ join ", " (g2 :: gs))
        with (String "," (" " +:+ join ", " (g2 :: gs))).
      rewrite includes_comma_cons. simpl. by rewrite orb_true_r. }
    rewrite Hinc, Hsplit. exact Hkeep.
Qed.

Lemma parseGenres_join_witness :
  Forall (λ genre, genre ≠ "" ∧ trim genre = genre ∧
                   includes "," genre = false ∧ includes " • " genre = false)
    ["Action"; "Science Fiction"; "Drama"] ∧
  parseGenres "Action, Science Fiction, Drama" = ["Action"; "Science Fiction"; "Drama"].
Proof.
  assert (H : Forall (λ genre, genre ≠ "" ∧ trim genre = genre ∧
                               includes "," genre = false ∧ includes " • " genre = false)
                ["Action"; "Science Fiction"; "Drama"]).
  { repeat first [apply List.Forall_cons | apply List.Forall_nil];
      (split; [discriminate|]); repeat split; reflexivity. }
  split; [exact H|].
  exact (parseGenres_join ["Action"; "Science Fiction"; "Drama"] H).
Defined.

End GenreFacts.

(** * Budgets of the provider calls, the cache and the trailers *)

Module ProviderFacts.
Import JS Tmdb TmdbFacts JSFacts.

(** ** Counting effects *)

Lemma fetches_app (evs1 evs2 : list event) :
  fetches (evs1 ++ evs2) = fetches evs1 + fetches evs2.
Proof. induction evs1 as [|[url|ms] evs1 IH]; simpl; lia. Qed.

Lemma sleeps_app (evs1 evs2 : list event) :
  sleeps (evs1 ++ evs2) = sleeps evs1 + sleeps evs2.
Proof. induction evs1 as [|[url|ms] evs1 IH]; simpl; lia. Qed.

Lemma fallback_fetches_app (evs1 evs2 : list event) :
  fallback_fetches (evs1 ++ evs2) = fallback_fetches evs1 + fallback_fetches evs2.
Proof.
  unfold fallback_fetches. by rewrite List.filter_app, length_app.
Qed.

Lemma provider_not_fallback (url : string) :
  provider_url url = true → fallback_event (Fetch url) = false.
Proof.
  intros Hp. simpl. destruct (String.eqb_spec url fallbackPath) as [->|]; [|done].
  by rewrite fallbackPath_not_provider in Hp.
Qed.

(** ** The budget of a computation *)

Lemma spends_ret {A} (a : A) : spends 0 0 (mret a : M A).
Proof. intros st. exists []. simpl. by rewrite app_nil_r. Qed.

Lemma spends_throw {A} (error : string) : spends 0 0 (throw error : M A).
Proof. intros st. exists []. simpl. by rewrite app_nil_r. Qed.

Lemma spends_weaken {A} (n k n' k' : nat) (m : M A) :
  n ≤ n' → k ≤ k' → spends n k m → spends n' k' m.
Proof.
  intros Hn Hk Hm st. destruct (Hm st) as (evs & Hlog & H1 & H2 & H3 & H4).
  exists evs. repeat split; try done; lia.
Qed.

Lemma spends_bind {A B} (n1 k1 n2 k2 : nat) (m : M A) (f : A → M B) :
  spends n1 k1 m → (∀ a, spends n2 k2 (f a)) → spends (n1 + n2) (k1 + k2) (m ≫= f).
Proof.
  intros Hm Hf st. destruct (Hm st) as (evs & Hlog & H1 & H2 & H3 & H4).
  unfold mbind, M_bind. destruct (m st) as [[a|error] st1]; simpl in *.
  - destruct (Hf a st1) as (evs' & Hlog' & H1' & H2' & H3' & H4').
    exists (evs ++ evs').
    rewrite Hlog', Hlog, H4', H4, app_assoc, fetches_app, sleeps_app, fallback_fetches_app.
    repeat split; try done; lia.
  - exists evs. repeat split; try done; lia.
Qed.

Lemma spends_try_catch {A} (n1 k1 n2 k2 : nat) (m : M A) (handler : string → M A) :
  spends n1 k1 m → (∀ error, spends n2 k2 (handler error)) →
  spends (n1 + n2) (k1 + k2) (try_catch m handler).
Proof.
  intros Hm Hf st. destruct (Hm st) as (evs & Hlog & H1 & H2 & H3 & H4).
  unfold try_catch. destruct (m st) as [[a|error] st1]; simpl in *.
  - exists evs. repeat split; try done; lia.
  - destruct (Hf error st1) as (evs' & Hlog' & H1' & H2' & H3' & H4').
    exists (evs ++ evs').
    rewrite Hlog', Hlog, H4', H4, app_assoc, fetches_app, sleeps_app, fallback_fetches_app.
    repeat split; try done; lia.
Qed.

Lemma spends_fetch (e : env) (url : string) :
  provider_url url = true → spends 1 0 (fetch e url).
Proof.
  intros Hp st. exists [Fetch url]. simpl. repeat split; try done.
  unfold fallback_fetches. simpl.
  pose proof (provider_not_fallback url Hp) as Hf. simpl in Hf. by rewrite Hf.
Qed.

Lemma spends_sleep (ms : nat) : spends 0 1 (sleep ms).
Proof. intros st. exists [Sleep ms]. simpl. repeat split; done. Qed.

Lemma spends_fetchWithRetry (e : env) (url : string) (retries : nat) :
  provider_url url = true → spends (S retries) retries (fetchWithRetry e url retries).
Proof.
  intros Hp. induction retries as [|retries IH].
  - simpl. eapply (spends_bind 1 0 0 0); [by apply spends_fetch|].
    intros [response| |]; try apply spends_throw.
    destruct (negb _); [apply spends_throw|apply spends_ret].
  - simpl. apply (spends_bind 1 0 (S retries) (S retries)); [by apply spends_fetch|].
    assert (Hretry : spends (S retries) (S retries)
                       (sleep RETRY_CONFIG.retryDelay ≫= λ _, fetchWithRetry e url retries)).
    { apply (spends_bind 0 1 (S retries) retries); [apply spends_sleep|]. intros _. apply IH. }
    intros [response| |]; simpl.
    + destruct (negb _); [exact Hretry|].
      eapply spends_weaken; [| |apply spends_ret]; lia.
    + exact Hretry.
    + eapply spends_weaken; [| |apply spends_throw]; lia.
Qed.

Lemma spends_results_of (b : body) : spends 0 0 (results_of b).
Proof. destruct b; [apply spends_ret|apply spends_throw..]. Qed.

Lemma spends_read_json (response : Response) : spends 0 0 (read_json response).
Proof. unfold read_json. destruct (json response); apply spends_ret || apply spends_throw. Qed.

Lemma spends_retrying (e : env) (url failure : string) :
  provider_url url = true → spends 3 2 (retrying e url failure).
Proof.
  intros Hp. apply (spends_bind 3 2 0 0); [|apply spends_read_json].
  apply (spends_try_catch 3 2 0 0); [by apply spends_fetchWithRetry|].
  intros; apply spends_throw.
Qed.

Lemma spends_getPopularMovies (e : env) (page : number) :
  spends 3 2 (getPopularMovies e page).
Proof.
  unfold getPopularMovies. destruct (negb _).
  - eapply spends_weaken; [| |apply spends_throw]; lia.
  - apply spends_retrying, provider_url_base.
Qed.

Lemma spends_getTrendingMovies (e : env) (t : timeWindow) :
  spends 3 2 (getTrendingMovies e t).
Proof.
  unfold getTrendingMovies. destruct (negb _).
  - eapply spends_weaken; [| |apply spends_throw]; lia.
  - apply spends_retrying, provider_url_base.
Qed.

Lemma spends_searchMovies (encodeURIComponent : string → string) (e : env)
    (query : string) (page : number) :
  spends 3 2 (searchMovies encodeURIComponent e query page).
Proof.
  unfold searchMovies. destruct (negb _).
  - eapply spends_weaken; [| |apply spends_throw]; lia.
  - apply spends_retrying, provider_url_base.
Qed.

Lemma spends_getSimilarMovies (e : env) (movieId page : number) :
  spends 1 0 (getSimilarMovies e movieId page).
Proof.
  unfold getSimilarMovies. destruct (negb _).
  - eapply spends_weaken; [| |apply spends_throw]; lia.
  - apply (spends_bind 1 0 0 0); [apply spends_fetch, provider_url_base|].
    intros [response| |]; try apply spends_throw.
    destruct (negb _); [apply spends_throw|apply spends_read_json].
Qed.

Lemma spends_similarLoop (e : env) (recentWatched : list MovieStorage.StoredMovie)
    (recommendations : list (option TMDBMovie)) :
  spends (length recentWatched) 0 (similarLoop e recentWatched recommendations).
Proof.
  revert recommendations.
  induction recentWatched as [|movie rest IH]; intros recommendations; simpl.
  - apply spends_ret.
  - apply (spends_bind 1 0 (length rest) 0).
    + apply (spends_try_catch 1 0 0 0); [|intros; apply spends_ret].
      apply (spends_bind 1 0 0 0); [apply spends_getSimilarMovies|]. intros similar.
      apply (spends_bind 0 0 0 0); [apply spends_results_of|]. intros results.
      apply spends_ret.
    + intros [recs stop]. simpl. destruct stop; [|apply IH].
      eapply spends_weaken; [| |apply spends_ret]; lia.
Qed.

Lemma spends_gather (e : env) (watchedMovies : list MovieStorage.StoredMovie) :
  spends 8 4 (gather e watchedMovies).
Proof.
  unfold gather. apply (spends_bind 3 2 5 2).
  { apply (spends_try_catch 3 2 0 0); [|intros; apply spends_ret].
    apply (spends_bind 3 2 0 0); [apply spends_getPopularMovies|]. intros popular.
    apply (spends_bind 0 0 0 0); [apply spends_results_of|]. intros results.
    apply spends_ret. }
  intros recs1. apply (spends_bind 3 2 2 0).
  { case_bool_decide; [|eapply spends_weaken; [| |apply spends_ret]; lia].
    apply (spends_try_catch 3 2 0 0); [|intros; apply spends_ret].
    apply (spends_bind 3 2 0 0); [apply spends_getTrendingMovies|]. intros trending.
    apply (spends_bind 0 0 0 0); [apply spends_results_of|]. intros results.
    apply spends_ret. }
  intros recs2. destruct (_ && _).
  - eapply spends_weaken; [| |apply spends_similarLoop]; [|lia].
    rewrite length_take. lia.
  - eapply spends_weaken; [| |apply spends_ret]; lia.
Qed.

(** ** The bundled dataset *)

(** What one call of [loadFallbackMovies] adds to the log: nothing when the
    cache is filled, one request for the dataset when it is empty; and the
    cache is filled afterwards. *)
Lemma loadFallbackMovies_effects (e : env) (st : state) :
  ∃ movies st',
    loadFallbackMovies e st = (Return movies, st') ∧
    cachedFallbackMovies st' = Some movies ∧
    ((cachedFallbackMovies st = Some movies ∧ st' = st) ∨
     (cachedFallbackMovies st = None ∧ log st' = log st ++ [Fetch fallbackPath])).
Proof.
  destruct (cachedFallbackMovies st) as [movies|] eqn:Hc.
  - exists movies, st. rewrite (loadFallbackMovies_cached e st movies Hc). auto.
  - pose proof (loadFallbackMovies_load e st Hc) as Hl. simpl in Hl.
    eexists _, _. split; [exact Hl|]. simpl. auto.
Qed.

(** What one call of [getRecommendations] does to the log and the cache. *)
Lemma getRecommendations_effects (e : env)
    (excludeWatchedIds excludeBlockedIds : list string)
    (watchedMovies : list MovieStorage.StoredMovie) (st : state) :
  ∃ movies st' evs,
    getRecommendations e excludeWatchedIds excludeBlockedIds watchedMovies st
    = (Return movies, st') ∧
    log st' = log st ++ evs ∧
    fetches evs ≤ 8 + fallback_fetches evs ∧ sleeps evs ≤ 4 ∧
    ((fallback_fetches evs = 0 ∧ cachedFallbackMovies st' = cachedFallbackMovies st) ∨
     (fallback_fetches evs = 1 ∧ cachedFallbackMovies st = None ∧
      cachedFallbackMovies st' ≠ None)).
Proof.
  assert (Hfb : ∀ st1 evs1,
    log st1 = log st ++ evs1 → fetches evs1 ≤ 8 → sleeps evs1 ≤ 4 →
    fallback_fetches evs1 = 0 → cachedFallbackMovies st1 = cachedFallbackMovies st →
    ∃ movies st' evs,
      (fallbackMovies ← loadFallbackMovies e;
       mret (not_excluded (excludeIds_of excludeWatchedIds excludeBlockedIds) fallbackMovies)) st1
      = (Return movies, st') ∧
      log st' = log st ++ evs ∧
      fetches evs ≤ 8 + fallback_fetches evs ∧ sleeps evs ≤ 4 ∧
      ((fallback_fetches evs = 0 ∧ cachedFallbackMovies st' = cachedFallbackMovies st) ∨
       (fallback_fetches evs = 1 ∧ cachedFallbackMovies st = None ∧
        cachedFallbackMovies st' ≠ None))).
  { intros st1 evs1 Hlog H1 H2 H3 H4.
    destruct (loadFallbackMovies_effects e st1) as (fb & st2 & Hl & Hc & Hcase).
    unfold mbind, M_bind. rewrite Hl. simpl.
    destruct Hcase as [[Hc1 ->]|[Hc1 Hlog2]].
    - eexists _, st1, evs1. repeat split; try done; try lia. by left.
    - eexists _, st2, (evs1 ++ [Fetch fallbackPath]).
      rewrite Hlog2, Hlog, <- app_assoc, fetches_app, sleeps_app, fallback_fetches_app, H3.
      repeat split; try done; simpl; try lia.
      + unfold fallback_fetches. simpl. lia.
      + right. rewrite <- H4, Hc1, Hc. unfold fallback_fetches. simpl. done. }
  destruct (truthy (TMDB_API_KEY e)) eqn:Hkey.
  - destruct (gather_returns e watchedMovies st) as (recs & st1 & Hg).
    destruct (spends_gather e watchedMovies st) as (evs1 & Hlog & H1 & H2 & H3 & H4).
    rewrite Hg in Hlog, H4. simpl in Hlog, H4.
    destruct (unique (excludeIds_of excludeWatchedIds excludeBlockedIds) ∅ recs) eqn:Hu.
    + unfold getRecommendations. rewrite Hkey. simpl.
      unfold try_catch at 1. unfold mbind at 1, M_bind at 1. rewrite Hg.
      fold (excludeIds_of excludeWatchedIds excludeBlockedIds). rewrite Hu. simpl.
      unfold try_catch.
      destruct (Hfb st1 evs1 Hlog H1 H2 H3 H4) as (movies & st' & evs & Hr & Hrest).
      rewrite Hr. exists movies, st', evs. split; [done|exact Hrest].
    + rewrite (getRecommendations_unique e _ _ _ st st1 recs Hkey Hg) by (by rewrite Hu).
      eexists _, st1, evs1. repeat split; try done; try lia. by left.
  - unfold getRecommendations. rewrite Hkey. simpl.
    apply (Hfb st []); simpl; try done; try lia. by rewrite app_nil_r.
Qed.


(** ** Lists: the first entry that passes a test *)

Lemma find_Some_first {A} (f : A → bool) (l : list A) (x : A) :
  List.find f l = Some x →
  ∃ i, l !! i = Some x ∧ f x = true ∧
       ∀ j y, j < i → l !! j = Some y → f y = false.
Proof.
  induction l as [|a l IH]; simpl; [done|].
  destruct (f a) eqn:Hfa.
  - intros [= ->]. exists 0. repeat split; [done|]. intros j y Hj. lia.
  - intros Hfind. destruct (IH Hfind) as (i & Hi & Hx & Hfirst).
    exists (S i). repeat split; [done..|].
    intros [|j] y Hj; simpl; [by intros [= <-]|].
    apply Hfirst. lia.
Qed.

Lemma find_None_all {A} (f : A → bool) (l : list A) (y : A) :
  List.find f l = None → y ∈ l → f y = false.
Proof.
  induction l as [|a l IH]; simpl; [by intros _ ?%elem_of_nil|].
  destruct (f a) eqn:Hfa; [done|].
  intros Hfind [->|Hy]%elem_of_cons; auto.
Qed.

Lemma find_filter {A} (p q : A → bool) (l : list A) :
  List.find q (List.filter p l) = List.find (λ x, p x && q x) l.
Proof.
  induction l as [|a l IH]; simpl; [done|].
  destruct (p a); simpl; [|done]. by rewrite IH.
Qed.

Lemma head_filter {A} (p : A → bool) (l : list A) :
  head (List.filter p l) = List.find p l.
Proof.
  induction l as [|a l IH]; simpl; [done|]. by destruct (p a).
Qed.

(** ** The trace of the remote fetch primitive *)

(** X4. What a call of [fetchWithRetry] does, in full. Its effects are [k]
    rounds of a request followed by the backoff of 500 ms, and then one
    last request, with [k] no more than [retries]; every request goes to
    [url]. Each of the [k] first attempts failed without timing out. The
    call returns exactly when the last attempt delivers a response whose
    status is a success, and it returns that response; it throws when the
    last attempt failed, which happens only once the retries are used up
    or when that attempt timed out. The cache is left alone. *)
Theorem fetchWithRetry_trace (e : env) (url : string) (retries : nat) (st : state) :
  ∃ k, k ≤ retries ∧
    (fetchWithRetry e url retries st).2
    = mkState (cachedFallbackMovies st)
        (log st ++ concat (replicate k [Fetch url; Sleep 500]) ++ [Fetch url]) ∧
    (∀ j, j < k →
       failed (net e url (length (log st) + 2 * j)) = true ∧
       net e url (length (log st) + 2 * j) ≠ TimedOut) ∧
    match (fetchWithRetry e url retries st).1 with
    | Return response =>
        ok response = true ∧
        net e url (length (log st) + 2 * k) = Responded response
    | Throw _ =>
        failed (net e url (length (log st) + 2 * k)) = true ∧
        (k = retries ∨ net e url (length (log st) + 2 * k) = TimedOut)
    end.
Proof.
  revert st. induction retries as [|retries IH]; intros st.
  - exists 0. split; [done|]. rewrite Nat.add_0_r.
    split; [|split; [intros j Hj; lia|]].
    + simpl. unfold mbind, M_bind, fetch.
      destruct (net e url (length (log st))) as [response| |]; simpl;
        [destruct (negb (ok response))|..]; done.
    + simpl. unfold mbind, M_bind, fetch.
      destruct (net e url (length (log st))) as [response| |] eqn:Ha; simpl;
        [destruct (ok response) eqn:Hok|..]; simpl; rewrite ?Ha; simpl; auto.
  - destruct (net e url (length (log st))) as [response| |] eqn:Ha.
    + destruct (ok response) eqn:Hok.
      * rewrite (fetchWithRetry_success e url _ st response Ha Hok).
        exists 0. rewrite Nat.add_0_r. simpl.
        split; [lia|]. split; [done|]. split; [intros j Hj; lia|]. done.
      * assert (Hf : failed (net e url (length (log st))) = true)
          by (rewrite Ha; simpl; by rewrite Hok).
        assert (Hn : net e url (length (log st)) ≠ TimedOut) by (by rewrite Ha).
        rewrite (fetchWithRetry_retry e url retries st Hf Hn).
        destruct (IH (backed_off url st)) as (k & Hk & Hst & Hfirst & Hlast).
        assert (Hlen : ∀ j, length (log (backed_off url st)) + 2 * j
                            = length (log st) + 2 * S j).
        { intros j. simpl. rewrite !length_app. simpl. lia. }
        exists (S k). split; [lia|]. split; [|split].
        -- rewrite Hst. simpl. by rewrite <- !app_assoc.
        -- intros [|j] Hj; [by rewrite Nat.add_0_r|].
           rewrite <- Hlen. apply Hfirst. lia.
        -- rewrite <- Hlen.
           destruct (fetchWithRetry e url retries (backed_off url st)).1;
             [done|]. destruct Hlast as [? [->|?]]; auto.
    + assert (Hf : failed (net e url (length (log st))) = true) by (by rewrite Ha).
      assert (Hn : net e url (length (log st)) ≠ TimedOut) by (by rewrite Ha).
      rewrite (fetchWithRetry_retry e url retries st Hf Hn).
      destruct (IH (backed_off url st)) as (k & Hk & Hst & Hfirst & Hlast).
      assert (Hlen : ∀ j, length (log (backed_off url st)) + 2 * j
                          = length (log st) + 2 * S j).
      { intros j. simpl. rewrite !length_app. simpl. lia. }
      exists (S k). split; [lia|]. split; [|split].
      * rewrite Hst. simpl. by rewrite <- !app_assoc.
      * intros [|j] Hj; [by rewrite Nat.add_0_r|].
        rewrite <- Hlen. apply Hfirst. lia.
      * rewrite <- Hlen.
        destruct (fetchWithRetry e url retries (backed_off url st)).1;
          [done|]. destruct Hlast as [? [->|?]]; auto.
    + rewrite (fetchWithRetry_timeout e url _ st Ha).
      exists 0. rewrite Nat.add_0_r. simpl.
      split; [lia|]. split; [done|]. split; [intros j Hj; lia|].
      rewrite Ha. auto.
Qed.

(** ** The provider calls *)

(** X5. The eight listing calls of the provider. Without a credential each
    of them throws at once and has no effect at all. With one, the three
    calls built on [fetchWithRetry] send at most three requests and back
    off at most twice; the five calls built on a plain [fetch] send at
    most one request and never wait. None of them asks for the bundled
    dataset or touches the cache. *)
Theorem provider_calls_budget (encodeURIComponent : string → string) (e : env)
    (query : string) (page movieId : number) (t : timeWindow) :
  Forall
    (λ c : M body * (nat * nat),
       (∀ st, if truthy (TMDB_API_KEY e) then True
              else c.1 st = (Throw "TMDB API key is not configured", st)) ∧
       spends c.2.1 c.2.2 c.1)
    [ (getPopularMovies e page, (3, 2));
      (getTrendingMovies e t, (3, 2));
      (searchMovies encodeURIComponent e query page, (3, 2));
      (getTopRatedMovies e page, (1, 0));
      (getNowPlayingMovies e page, (1, 0));
      (getUpcomingMovies e page, (1, 0));
      (getSimilarMovies e movieId page, (1, 0));
      (getMovieRecommendations e movieId page, (1, 0)) ].
Proof.
  assert (Honce : ∀ url failure, provider_url url = true →
                    spends 1 0 (fetchOnce e url failure)).
  { intros url failure Hp. unfold fetchOnce. destruct (negb _).
    - eapply spends_weaken; [| |apply spends_throw]; lia.
    - apply (spends_bind 1 0 0 0); [by apply spends_fetch|].
      intros [response| |]; try apply spends_throw.
      destruct (negb _); [apply spends_throw|apply spends_read_json]. }
  repeat first [apply List.Forall_cons | apply List.Forall_nil]; simpl; (split; [intros st|]).
  all: try (unfold getPopularMovies, getTrendingMovies, searchMovies, getTopRatedMovies,
              getNowPlayingMovies, getUpcomingMovies, getSimilarMovies,
              getMovieRecommendations, fetchOnce;
            by destruct (truthy (TMDB_API_KEY e))).
  - apply spends_getPopularMovies.
  - apply spends_getTrendingMovies.
  - apply spends_searchMovies.
  - apply Honce, provider_url_base.
  - apply Honce, provider_url_base.
  - apply Honce, provider_url_base.
  - apply spends_getSimilarMovies.
  - apply Honce, provider_url_base.
Qed.

(** X6. What reaches the caller of a call built on [fetchWithRetry], when a
    credential is configured. The effects of the call are those of its
    attempts. When the attempts end in failure, whatever they ended with
    (a refused request, a timeout, a status that is not a success), the
    error thrown is the fixed message of the call. When they end with a
    successful response, its body is read once the [try] block is left:
    the call returns the parsed body, and when the text of the body is not
    JSON the [SyntaxError] of [response.json()] reaches the caller as it
    is, not the fixed message. *)
Theorem retrying_calls_errors (encodeURIComponent : string → string) (e : env)
    (query : string) (page : number) (t : timeWindow) (st : state) :
  truthy (TMDB_API_KEY e) = true →
  Forall
    (λ c : M body * (string * string),
       let attempts := fetchWithRetry e c.2.1 RETRY_CONFIG.maxRetries st in
       (c.1 st).2 = attempts.2 ∧
       match attempts.1 with
       | Throw _ => (c.1 st).1 = Throw c.2.2
       | Return response =>
           match json response with
           | NotJSON error => (c.1 st).1 = Throw error
           | parsed => (c.1 st).1 = Return parsed
           end
       end)
    [ (getPopularMovies e page,
       (TMDB_BASE_URL +:+ "/movie/popular?api_key=" +:+ key e +:+ "&page=" +:+ toString page,
        "Failed to get popular movies"));
      (getTrendingMovies e t,
       (TMDB_BASE_URL +:+ "/trending/movie/" +:+ timeWindow_string t +:+ "?api_key=" +:+ key e,
        "Failed to get trending movies"));
      (searchMovies encodeURIComponent e query page,
       (TMDB_BASE_URL +:+ "/search/movie?api_key=" +:+ key e +:+ "&query="
          +:+ encodeURIComponent query +:+ "&page=" +:+ toString page,
        "Failed to search movies")) ].
Proof.
  intros Hkey.
  assert (Hretrying : ∀ url failure,
            (retrying e url failure st).2
            = (fetchWithRetry e url RETRY_CONFIG.maxRetries st).2 ∧
            match (fetchWithRetry e url RETRY_CONFIG.maxRetries st).1 with
            | Throw _ => (retrying e url failure st).1 = Throw failure
            | Return response =>
                match json response with
                | NotJSON error => (retrying e url failure st).1 = Throw error
                | parsed => (retrying e url failure st).1 = Return parsed
                end
            end).
  { intros url failure. unfold retrying, try_catch, mbind, M_bind, read_json.
    destruct (fetchWithRetry e url RETRY_CONFIG.maxRetries st) as [[response|error] st1];
      simpl; [|done].
    by destruct (json response). }
  repeat first [apply List.Forall_cons | apply List.Forall_nil]; simpl;
    unfold getPopularMovies, getTrendingMovies, searchMovies; rewrite Hkey; simpl;
    apply Hretrying.
Qed.

Lemma retrying_calls_errors_witness :
  truthy (TMDB_API_KEY Samples.garbled) = true ∧
  (getPopularMovies Samples.garbled (Int 1) initial).1
  = Throw "Unexpected token < in JSON at position 0" ∧
  (getPopularMovies Samples.offline (Int 1) initial).1
  = Throw "Failed to get popular movies".
Proof.
  split; [reflexivity|]. split.
  - pose proof (retrying_calls_errors (λ s, s) Samples.garbled "club" (Int 1) week initial
                  eq_refl) as H.
    apply Forall_cons in H as [[_ H] _]. exact H.
  - pose proof (retrying_calls_errors (λ s, s) Samples.offline "club" (Int 1) week initial
                  eq_refl) as H.
    apply Forall_cons in H as [[_ H] _]. exact H.
Defined.

(** ** The bundled dataset and the cache *)

(** X7. Whatever the network does, a call of [getRecommendations] returns
    a list and does not raise; it sends at most eight requests to the
    provider (three for the popular listing, three for the trending one,
    one for each of the two most recent watched movies), at most one
    request for the bundled dataset, and backs off at most four times. *)
Theorem getRecommendations_budget (e : env)
    (excludeWatchedIds excludeBlockedIds : list string)
    (watchedMovies : list MovieStorage.StoredMovie) (st : state) :
  ∃ movies st' evs,
    getRecommendations e excludeWatchedIds excludeBlockedIds watchedMovies st
    = (Return movies, st') ∧
    log st' = log st ++ evs ∧
    fallback_fetches evs ≤ 1 ∧
    fetches evs ≤ 8 + fallback_fetches evs ∧
    sleeps evs ≤ 4.
Proof.
  destruct (getRecommendations_effects e excludeWatchedIds excludeBlockedIds
              watchedMovies st) as (movies & st' & evs & Hr & Hlog & H1 & H2 & Hcase).
  exists movies, st', evs. repeat split; try done.
  destruct Hcase as [[-> _]|[-> _]]; lia.
Qed.

Lemma recommend_all_invariant (e : env)
    (requests : list (list string * list string * list MovieStorage.StoredMovie))
    (st : state) :
  fallback_fetches (log st) ≤ 1 →
  (cachedFallbackMovies st = None → fallback_fetches (log st) = 0) →
  fallback_fetches (log (recommend_all e requests st)) ≤ 1.
Proof.
  revert st. induction requests as [|[[w b] watched] rest IH]; intros st H1 H0; simpl;
    [done|].
  destruct (getRecommendations_effects e w b watched st)
    as (movies & st' & evs & Hr & Hlog & _ & _ & Hcase).
  rewrite Hr. simpl. apply IH; rewrite Hlog, fallback_fetches_app.
  - destruct Hcase as [[-> _]|(-> & Hnone & _)]; [lia|]. rewrite H0; [lia|done].
  - destruct Hcase as [[-> Hc]|(-> & Hnone & Hsome)]; [|done].
    rewrite Hc. intros Hn. rewrite H0; [lia|done].
Qed.

Lemma loadFallbackMovies_cut (e : env) (st : state) :
  loadFallbackMovies e st
  = (loadFallbackMovies_started e ≫= loadFallbackMovies_resumed) st.
Proof.
  unfold loadFallbackMovies, loadFallbackMovies_started, mbind, M_bind, get_cached.
  destruct (cachedFallbackMovies st); [done|].
  unfold try_catch, fetch. simpl.
  by destruct (net e fallbackPath (length (log st))).
Qed.

(** X8. When the calls of [getRecommendations] in a process are made one
    after the other, each awaited before the next is started, the bundled
    dataset is requested at most once, however many calls there are and
    whatever they are called with. The cache does not give this for calls
    that overlap: [loadFallbackMovies] is suspended between its test of the
    cache and its write to it, and of two calls of it started in a new
    process before either has its response, both request the dataset. *)
Theorem bundled_dataset_requested_once (e : env) :
  (∀ requests, fallback_fetches (log (recommend_all e requests initial)) ≤ 1) ∧
  (∀ st, loadFallbackMovies e st
         = (loadFallbackMovies_started e ≫= loadFallbackMovies_resumed) st) ∧
  log (loadFallbackMovies_overlapping e initial).2
  = [Fetch fallbackPath; Fetch fallbackPath].
Proof.
  split; [|split; [apply loadFallbackMovies_cut|]].
  - intros requests.
    apply recommend_all_invariant; simpl; [unfold fallback_fetches; simpl; lia|done].
  - unfold loadFallbackMovies_overlapping, loadFallbackMovies_started,
      loadFallbackMovies_resumed, mbind, M_bind, get_cached, try_catch, fetch. simpl.
    destruct (net e fallbackPath 0) as [r1| |], (net e fallbackPath 1) as [r2| |]; simpl;
      try destruct (ok r1); try destruct (json r1); simpl;
      try destruct (ok r2); try destruct (json r2); reflexivity.
Qed.

(** X9. Once the cache holds a fallback list, no call of
    [getRecommendations] replaces it or asks for the bundled dataset
    again: the list handed out the first time, be it the hardcoded one
    left by a failed load, stays for the life of the process. *)
Theorem cached_fallback_is_kept (e : env)
    (requests : list (list string * list string * list MovieStorage.StoredMovie))
    (st : state) (movies : list TMDBMovie) :
  cachedFallbackMovies st = Some movies →
  cachedFallbackMovies (recommend_all e requests st) = Some movies ∧
  ∃ evs, log (recommend_all e requests st) = log st ++ evs ∧ fallback_fetches evs = 0.
Proof.
  revert st. induction requests as [|[[w b] watched] rest IH]; intros st Hc; simpl.
  { split; [done|]. exists []. by rewrite app_nil_r. }
  destruct (getRecommendations_effects e w b watched st)
    as (ms & st' & evs & Hr & Hlog & _ & _ & Hcase).
  rewrite Hr. simpl.
  destruct Hcase as [[H0 Hc']|(_ & Hnone & _)]; [|congruence].
  destruct (IH st') as (Hkeep & evs' & Hlog' & H0'); [congruence|].
  split; [done|]. exists (evs ++ evs').
  rewrite Hlog', Hlog, app_assoc, fallback_fetches_app. split; [done|lia].
Qed.

Lemma cached_fallback_is_kept_witness :
  let st := mkState (Some hardcodedFallback) [] in
  let requests := [([], [], []); (["550"], [], [])] in
  cachedFallbackMovies st = Some hardcodedFallback ∧
  cachedFallbackMovies (recommend_all Samples.unconfigured requests st)
  = Some hardcodedFallback.
Proof.
  split; [reflexivity|].
  apply (cached_fallback_is_kept Samples.unconfigured
           [([], [], []); (["550"], [], [])] (mkState (Some hardcodedFallback) [])
           hardcodedFallback).
  reflexivity.
Defined.

(** ** Trailers *)

(** X10. [getTrailerUrl] returns [null] exactly when the details carry no
    video list or no video that is a trailer hosted on YouTube. Otherwise
    the address it returns is built from the key of such a trailer: the
    first one whose name holds the words official trailer, in any case of
    letters, or, when no YouTube trailer has such a name, the first
    YouTube trailer of the list. *)
Theorem getTrailerUrl_selects (toLowerCase : string → string)
    (results : list TMDBVideo.t) :
  let official video :=
    Text.includes "official trailer" (toLowerCase (TMDBVideo.name video)) in
  getTrailerUrl toLowerCase None = None ∧
  match getTrailerUrl toLowerCase (Some results) with
  | None => ∀ video, video ∈ results → isYouTubeTrailer video = false
  | Some url =>
      ∃ i video,
        results !! i = Some video ∧ isYouTubeTrailer video = true ∧
        url = "https://www.youtube.com/watch?v=" +:+ TMDBVideo.key video ∧
        ((official video = true ∧
          ∀ j other, j < i → results !! j = Some other →
                     isYouTubeTrailer other = true → official other = false) ∨
         ((∀ other, other ∈ results → isYouTubeTrailer other = true →
                    official other = false) ∧
          ∀ j other, j < i → results !! j = Some other →
                     isYouTubeTrailer other = false))
  end.
Proof.
  intros official. split; [done|]. unfold getTrailerUrl.
  pose proof (head_filter isYouTubeTrailer results) as Hhead.
  destruct (List.filter isYouTubeTrailer results) as [|first trailers] eqn:Hfilter.
  - simpl in Hhead. intros video Hvideo.
    by apply (find_None_all isYouTubeTrailer results).
  - simpl in Hhead. rewrite <- Hfilter, find_filter.
    destruct (List.find
                (λ x, isYouTubeTrailer x
                      && Text.includes "official trailer" (toLowerCase (TMDBVideo.name x)))
                results) as [chosen|] eqn:Hfind; simpl.
    + apply find_Some_first in Hfind as (i & Hi & [Hy Ho]%andb_prop & Hfirst).
      exists i, chosen. repeat split; [done..|]. left. split; [done|].
      intros j other Hj Hother Hyt. specialize (Hfirst j other Hj Hother).
      by rewrite Hyt in Hfirst.
    + symmetry in Hhead.
      apply find_Some_first in Hhead as (i & Hi & Hy & Hfirst).
      exists i, first. repeat split; [done..|]. right. split; [|done].
      intros other Hother Hyt.
      pose proof (find_None_all _ results other Hfind Hother) as Hnone.
      simpl in Hnone. by rewrite Hyt in Hnone.
Qed.


(** ** Ids, written out and read back *)

Lemma getRecommendations_not_excluded (e : env)
    (excludeWatchedIds excludeBlockedIds : list string)
    (watchedMovies : list MovieStorage.StoredMovie) (st : state) :
  ∃ movies st',
    getRecommendations e excludeWatchedIds excludeBlockedIds watchedMovies st
    = (Return movies, st') ∧
    ∀ movie, movie ∈ movies → id movie ∉ excludeIds_of excludeWatchedIds excludeBlockedIds.
Proof.
  destruct (truthy (TMDB_API_KEY e)) eqn:Hkey.
  - destruct (gather_returns e watchedMovies st) as (recs & st1 & Hg).
    destruct (unique (excludeIds_of excludeWatchedIds excludeBlockedIds) ∅ recs) eqn:Hu.
    + destruct (getRecommendations_fallthrough e excludeWatchedIds excludeBlockedIds
                  watchedMovies st st1 recs Hkey Hg Hu) as (st' & Hr & _).
      eexists _, st'. split; [exact Hr|].
      intros movie Hm. by apply elem_of_not_excluded in Hm as [_ Hm].
    + eexists _, st1. split.
      { apply (getRecommendations_unique e _ _ _ st st1 recs Hkey Hg). by rewrite Hu. }
      intros movie Hm. apply elem_of_take in Hm.
      by apply unique_sound in Hm as (Hm & _).
  - unfold getRecommendations. rewrite Hkey. simpl.
    destruct (fallback_branch e (excludeIds_of excludeWatchedIds excludeBlockedIds) st)
      as (st' & Hr & _).
    eexists _, st'. split; [exact Hr|].
    intros movie Hm. by apply elem_of_not_excluded in Hm as [_ Hm].
Qed.

(** X11. A movie that the application has stored is not recommended again.
    The application keeps a movie under the id [convertTMDBToMovie] gives
    it, the provider's number written as a string; [getRecommendations]
    reads such ids back with [parseInt]. Whenever the stored id of a movie
    is among the watched or the blocked ids handed over, no movie with
    that number is returned, on any path: provider tiers or fallback. Ids
    are integers that JavaScript writes out digit by digit, as every id of
    the provider is, or [NaN]. *)
Theorem stored_movie_is_not_recommended (p : platform) (e : env)
    (excludeWatchedIds excludeBlockedIds : list string)
    (watchedMovies : list MovieStorage.StoredMovie) (st : state)
    (tmdbMovie : TMDBMovie) :
  Converted.id (convertTMDBToMovie p tmdbMovie) ∈ excludeWatchedIds ++ excludeBlockedIds →
  ∃ movies st',
    getRecommendations e excludeWatchedIds excludeBlockedIds watchedMovies st
    = (Return movies, st') ∧
    ∀ movie, movie ∈ movies → id movie ≠ id tmdbMovie.
Proof.
  intros Hin.
  destruct (getRecommendations_not_excluded e excludeWatchedIds excludeBlockedIds
              watchedMovies st) as (movies & st' & Hr & Hex).
  exists movies, st'. split; [done|]. intros movie Hm Heq. apply (Hex movie Hm).
  unfold excludeIds_of. apply list_elem_of_fmap.
  exists (toString (id tmdbMovie)). split; [|done].
  by rewrite parseInt_toString.
Qed.

Lemma stored_movie_is_not_recommended_witness :
  let p := mkPlatform (λ q, q) (λ _, NaN) in
  Converted.id (convertTMDBToMovie p (Samples.movie 2)) ∈ ["2"] ++ [] ∧
  ∃ movies st',
    getRecommendations Samples.healthy ["2"] [] [] initial = (Return movies, st') ∧
    ∀ movie, movie ∈ movies → id movie ≠ id (Samples.movie 2).
Proof.
  assert (H : Converted.id (convertTMDBToMovie (mkPlatform (λ q, q) (λ _, NaN))
                              (Samples.movie 2)) ∈ ["2"] ++ [])
    by (apply elem_of_cons; left; reflexivity).
  split; [exact H|].
  exact (stored_movie_is_not_recommended (mkPlatform (λ q, q) (λ _, NaN)) Samples.healthy
           ["2"] [] [] initial (Samples.movie 2) H).
Defined.

End ProviderFacts.

(** * Further properties of the persisted list store *)

Module StoreFacts.
Import JS MovieStorage StorageFacts.

(** ** No id twice in a list *)

Lemma tidy_default : tidy getDefaultStorage.
Proof. split; [apply well_kept_default|]. split; constructor. Qed.

Lemma tidy_current (s : MovieStorage) : tidy s → current_version s.
Proof. intros [H _]. by apply well_kept_current. Qed.

Lemma NoDup_ids_snoc (l : list StoredMovie) (m : StoredMovie) :
  NoDup (ids l) → id m ∉ ids l → NoDup (ids (l ++ [m])).
Proof.
  intros Hnd Hm. rewrite ids_app. apply NoDup_app. split; [done|]. split.
  - intros x Hx Hin. apply list_elem_of_singleton in Hin. simpl in Hin. congruence.
  - apply NoDup_singleton.
Qed.

Lemma tidy_push (s : MovieStorage) (movie : StoredMovie) :
  tidy s →
  has_id (id movie) (myList (lists s)) = false →
  has_id (id movie) (watchedList (lists s)) = false →
  tidy (set_myList (myList (lists s) ++ [movie]) s).
Proof.
  intros (Hwk & Hmy & Hbl) H1 H2. split; [by apply well_kept_push|].
  split; [|done]. simpl. apply NoDup_ids_snoc; [done|]. by apply has_id_false.
Qed.

Lemma tidy_move (s : MovieStorage) (x d : string) (i : nat) (movie : StoredMovie) :
  tidy s →
  list_find (λ m, id m = x) (watchedList (lists s)) = Some (i, movie) →
  let s1 := set_watchedList (delete i (watchedList (lists s))) s in
  tidy (set_myList (myList (lists s1) ++ [set_dateAdded d movie]) s1).
Proof.
  intros (Hwk & Hmy & Hbl) Hfind s1.
  split; [by apply (well_kept_move s x d i movie)|]. split; [|done]. simpl.
  apply NoDup_ids_snoc; [done|]. simpl.
  apply list_find_Some in Hfind as (Hi & Hid & _).
  destruct Hwk as (Hdis & _ & _). intros Hin. apply (Hdis _ Hin).
  apply elem_of_ids. exists movie. split; [|done]. by eapply list_elem_of_lookup_2.
Qed.

Lemma perform_tidy (e : env) (c : call) (st : browser) :
  not_reorder c = true → stored tidy st →
  match (perform e c st).1 with
  | Some storage => tidy storage
  | None => True
  end ∧
  stored tidy (perform e c st).2.
Proof.
  intros Hc Hst.
  assert (Hload : tidy (loadMovieData e st)).
  { apply load_stored; auto using tidy_default, tidy_current. }
  destruct c; try done; simpl.
  - unfold addToWantToWatchList.
    destruct (has_id _ (myList _)) eqn:Hm; simpl; [done|].
    destruct (has_id _ (watchedList _)) eqn:Hw; simpl; [done|].
    pose proof (tidy_push _ (createStoredMovie e movieData) Hload Hm Hw) as H.
    split; [done|]. by apply save_stored.
  - unfold addToMyList.
    destruct (has_id _ (myList _)) eqn:Hm; simpl; [done|].
    destruct (has_id _ (watchedList _)) eqn:Hw; simpl; [done|].
    pose proof (tidy_push _ (createStoredMovie e movieData) Hload Hm Hw) as H.
    split; [done|]. by apply save_stored.
  - unfold addToWatchedList. simpl.
    destruct Hload as (Hwk & Hmy & Hbl).
    pose proof (well_kept_upsert (loadMovieData e st)
                  (set_dateWatched (now e) (createStoredMovie e movieData)) Hwk) as H.
    simpl in H.
    assert (Ht : tidy
      match list_find (λ m, id m = MovieData.id movieData)
              (watchedList (lists (loadMovieData e st))) with
      | Some (existingIndex, _) =>
          set_watchedList
            (<[existingIndex := set_dateWatched (now e) (createStoredMovie e movieData)]>
               (watchedList (lists (loadMovieData e st))))
            (set_myList (filter (λ m, id m ≠ MovieData.id movieData)
                           (myList (lists (loadMovieData e st)))) (loadMovieData e st))
      | None =>
          set_watchedList
            (set_dateWatched (now e) (createStoredMovie e movieData)
               :: watchedList (lists (loadMovieData e st)))
            (set_myList (filter (λ m, id m ≠ MovieData.id movieData)
                           (myList (lists (loadMovieData e st)))) (loadMovieData e st))
      end).
    { split; [exact H|].
      destruct (list_find _ _) as [[i old]|]; simpl;
        (split; [by apply NoDup_ids_filter|done]). }
    split; [done|]. by apply save_stored.
  - unfold removeFromList. simpl. destruct Hload as (Hwk & Hmy & Hbl). destruct lt.
    + assert (Ht : tidy (set_myList (filter (λ m, id m ≠ movieId)
                           (myList (lists (loadMovieData e st)))) (loadMovieData e st))).
      { split; [by apply well_kept_filter_myList|]. simpl.
        split; [by apply NoDup_ids_filter|done]. }
      split; [done|]. by apply save_stored.
    + assert (Ht : tidy (set_watchedList (filter (λ m, id m ≠ movieId)
                           (watchedList (lists (loadMovieData e st)))) (loadMovieData e st))).
      { split; [by apply well_kept_filter_watchedList|]. by simpl. }
      split; [done|]. by apply save_stored.
  - unfold moveToWantToWatchList.
    destruct (list_find _ _) as [[i movie]|] eqn:Hfind; simpl; [|done].
    pose proof (tidy_move _ movieId (now e) i movie Hload Hfind) as H.
    simpl in H. split; [done|]. by apply save_stored.
  - unfold moveToMyList.
    destruct (list_find _ _) as [[i movie]|] eqn:Hfind; simpl; [|done].
    pose proof (tidy_move _ movieId (now e) i movie Hload Hfind) as H.
    simpl in H. split; [done|]. by apply save_stored.
  - unfold blockMovie. case_bool_decide as Hin; simpl; [done|].
    destruct Hload as ((Hdis & Hnd & Hv) & Hmy & Hbl).
    assert (Ht : tidy (set_blockedMovies
                         (blockedMovies (lists (loadMovieData e st)) ++ [movieId])
                         (loadMovieData e st))).
    { split; [done|]. simpl. split; [done|].
      apply NoDup_app. split; [done|]. split; [|apply NoDup_singleton].
      intros x Hx Hx'. apply list_elem_of_singleton in Hx'. congruence. }
    split; [done|]. by apply save_stored.
  - split; [done|]. unfold clearAllData, stored in *. by destruct (window st).
Qed.

Lemma session_tidy (calls : list (env * call)) (st : browser) :
  forallb (λ ec, not_reorder ec.2) calls = true → stored tidy st →
  stored tidy (run calls st) ∧ Forall tidy (returned calls st).
Proof.
  revert st. induction calls as [|[e c] calls IH]; intros st Hcalls Hst; simpl.
  - by split.
  - simpl in Hcalls. apply andb_true_iff in Hcalls as [Hc Hcalls].
    destruct (perform_tidy e c st Hc Hst) as [H1 H2].
    destruct (IH _ Hcalls H2) as [H3 H4]. split; [done|].
    destruct (perform e c st).1; [by constructor|done].
Qed.

(** X12. Starting from nothing stored, after any finite sequence of calls
    that does not use [reorderMyList] (adding, removing, moving, blocking,
    clearing), no id occurs twice in [myList], in [watchedList] or in
    [blockedMovies]: neither in the store that the next load reads back,
    nor in any store that a call of the sequence returned. This holds
    whether or not a [window] exists and whether or not the writes
    succeed. *)
Theorem lists_hold_no_id_twice (w : bool) (calls : list (env * call)) (e : env) :
  forallb (λ ec, not_reorder ec.2) calls = true →
  Forall
    (λ s, NoDup (ids (myList (lists s))) ∧ NoDup (ids (watchedList (lists s))) ∧
          NoDup (blockedMovies (lists s)))
    (loadMovieData e (run calls (fresh w)) :: returned calls (fresh w)).
Proof.
  intros Hcalls.
  destruct (session_tidy calls (fresh w) Hcalls) as [H1 H2]; [done|].
  assert (Hload : tidy (loadMovieData e (run calls (fresh w)))).
  { apply load_stored; auto using tidy_default, tidy_current. }
  eapply Forall_impl; [apply Forall_cons; split; [exact Hload|exact H2]|].
  by intros s ((_ & Hw & _) & Hm & Hb).
Qed.

Lemma lists_hold_no_id_twice_witness :
  forallb (λ ec, not_reorder ec.2) Samples.blocking = true ∧
  Forall
    (λ s, NoDup (ids (myList (lists s))) ∧ NoDup (ids (watchedList (lists s))) ∧
          NoDup (blockedMovies (lists s)))
    (loadMovieData Samples.tuesday (run Samples.blocking (fresh true))
       :: returned Samples.blocking (fresh true)).
Proof.
  split; [reflexivity|].
  apply (lists_hold_no_id_twice true Samples.blocking Samples.tuesday). reflexivity.
Defined.

(** ** Blocked ids stay blocked *)

Lemma migrate_blocked (now now' : string) (oldData : OldData.t) :
  blockedMovies (lists (migrateFromOldVersion now oldData))
  = blockedMovies (lists (migrateFromOldVersion now' oldData)).
Proof.
  unfold migrateFromOldVersion, migrate.
  destruct oldData as [[[my wl bm ww wd bl]|]]; simpl; [|done].
  rewrite (when_present_movies now my), (when_present_movies now' my).
  destruct my as [[|my]|]; simpl; [done|destruct (forallb _ my); simpl; [|done]|];
    rewrite (when_present_movies now wl), (when_present_movies now' wl);
    (destruct wl as [[|wl]|]; simpl; [done|destruct (forallb _ wl); simpl; [|done]|]);
    (destruct bm as [bm|]; simpl);
    rewrite (when_present_movies now ww), (when_present_movies now' ww);
    (destruct ww as [[|ww]|]; simpl; [done|destruct (forallb _ ww); simpl; [|done]|]);
    rewrite (when_present_movies now wd), (when_present_movies now' wd);
    (destruct wd as [[|wd]|]; simpl; [done|destruct (forallb _ wd); simpl; [|done]|]);
    by destruct bl.
Qed.

Lemma load_blocked_env (e e' : env) (st : browser) :
  blockedMovies (lists (loadMovieData e st))
  = blockedMovies (lists (loadMovieData e' st)).
Proof.
  unfold loadMovieData. destruct (window st); simpl; [|done].
  destruct (item st) as [[| |[s|d]]|]; try done; [|apply migrate_blocked].
  case_bool_decide; [apply migrate_blocked|done].
Qed.

Lemma load_saved (e e' : env) (st : browser) (s : MovieStorage) :
  current_version s →
  (saveMovieData e st s).2 = st ∨ loadMovieData e' (saveMovieData e st s).2 = s.
Proof.
  intros Hv. unfold saveMovieData, setItem.
  destruct (window st) eqn:Hw; simpl; [|by left].
  destruct (writable e); simpl; [|by left]. right.
  unfold loadMovieData. simpl.
  rewrite bool_decide_eq_false_2; [done|]. intros Hne. by apply Hne.
Qed.

Lemma save_blocked (e e' : env) (st : browser) (s : MovieStorage) (x : string) :
  current_version s →
  (x ∈ blockedMovies (lists (loadMovieData e st)) → x ∈ blockedMovies (lists s)) →
  x ∈ blockedMovies (lists (loadMovieData e' st)) →
  x ∈ blockedMovies (lists (loadMovieData e' (saveMovieData e st s).2)).
Proof.
  intros Hv Hs Hx. destruct (load_saved e e' st s Hv) as [->| ->]; [done|].
  apply Hs. by rewrite (load_blocked_env e e').
Qed.

Lemma perform_blocked (e e' : env) (c : call) (st : browser) (x : string) :
  not_clear c = true →
  x ∈ blockedMovies (lists (loadMovieData e' st)) →
  x ∈ blockedMovies (lists (loadMovieData e' (perform e c st).2)).
Proof.
  intros Hc Hx. pose proof (load_version e st) as Hv.
  destruct c; try done; simpl.
  - unfold addToWantToWatchList. destruct (_ && _); simpl; [|done].
    by apply save_blocked.
  - unfold addToMyList. destruct (_ && _); simpl; [|done].
    by apply save_blocked.
  - unfold addToWatchedList. simpl.
    apply save_blocked; [|by destruct (list_find _ _) as [[i old]|]|done].
    by destruct (list_find _ _) as [[i old]|].
  - unfold removeFromList. simpl. apply save_blocked; by destruct lt.
  - unfold moveToWantToWatchList.
    destruct (list_find _ _) as [[i movie]|]; simpl; [|done]. by apply save_blocked.
  - unfold moveToMyList.
    destruct (list_find _ _) as [[i movie]|]; simpl; [|done]. by apply save_blocked.
  - unfold reorderMyList. simpl. by apply save_blocked.
  - unfold blockMovie. destruct (negb _); simpl; [|done].
    apply save_blocked; [done| |done]. simpl. intros H. apply elem_of_app. by left.
Qed.

(** X13. An id that the store holds as blocked is still blocked after any
    finite sequence of calls to [addToWantToWatchList], [addToMyList],
    [addToWatchedList], [removeFromList], [moveToWantToWatchList],
    [moveToMyList], [reorderMyList] and [blockMovie], whatever the storage
    held to begin with (a legacy document as well) and whether or not the
    writes succeed: none of these eight functions takes an id out of
    [blockedMovies]. The two other functions that change what is stored
    are not among them, and both can unblock: after [clearAllData], where
    there is a [window], no id is blocked; and [importData] replaces the
    stored document by the one it is given, so that, when the write goes
    through, the blocked ids are from then on those of the imported
    store. *)
Theorem blocked_ids_stay_blocked (calls : list (env * call)) (st : browser)
    (e : env) (x : string) :
  forallb (λ ec, not_clear ec.2) calls = true →
  x ∈ blockedMovies (lists (loadMovieData e st)) →
  x ∈ blockedMovies (lists (loadMovieData e (run calls st))) ∧
  (window st = true →
   blockedMovies (lists (loadMovieData e (clearAllData st))) = []) ∧
  (∀ e' s, window st = true → writable e' = true → version s = STORAGE_VERSION →
           loadMovieData e (importData e' st (stringify s)).2 = s).
Proof.
  intros Hcalls Hx. split; [|split].
  - revert st Hcalls Hx.
    induction calls as [|[e1 c] calls IH]; intros st Hcalls Hx; simpl; [done|].
    simpl in Hcalls. apply andb_true_iff in Hcalls as [Hc Hcalls].
    apply IH; [done|]. by apply perform_blocked.
  - intros Hw. unfold clearAllData, loadMovieData. by rewrite Hw.
  - intros e' s Hw He Hv. unfold importData, stringify, setItem, loadMovieData.
    rewrite Hw, He. simpl. rewrite bool_decide_eq_false_2; [done|].
    intros Hne. by apply Hne.
Qed.

Lemma blocked_ids_stay_blocked_witness :
  let st := run Samples.blocking (fresh true) in
  forallb (λ ec, not_clear ec.2) Samples.evening = true ∧
  "13" ∈ blockedMovies (lists (loadMovieData Samples.tuesday st)) ∧
  "13" ∈ blockedMovies (lists (loadMovieData Samples.tuesday (run Samples.evening st))) ∧
  blockedMovies (lists (loadMovieData Samples.tuesday (clearAllData st))) = [] ∧
  "13" ∉ blockedMovies
           (lists (loadMovieData Samples.tuesday
                     (importData Samples.tuesday st (stringify getDefaultStorage)).2)).
Proof.
  assert (H : "13" ∈ blockedMovies (lists (loadMovieData Samples.tuesday
                                             (run Samples.blocking (fresh true)))))
    by (vm_compute; apply elem_of_cons; left; reflexivity).
  split; [reflexivity|]. split; [exact H|].
  destruct (blocked_ids_stay_blocked Samples.evening (run Samples.blocking (fresh true))
              Samples.tuesday "13" eq_refl H) as (H1 & H2 & H3).
  split; [exact H1|]. split; [exact (H2 eq_refl)|].
  rewrite (H3 Samples.tuesday getDefaultStorage eq_refl eq_refl eq_refl).
  apply not_elem_of_nil.
Defined.


(** ** Moving, and adding and removing *)

Lemma filter_absent (x : string) (l : list StoredMovie) :
  x ∉ ids l → filter (λ m, id m ≠ x) l = l.
Proof.
  intros Hx. induction l as [|m l IH]; [done|].
  unfold ids in Hx. rewrite fmap_cons, not_elem_of_cons in Hx. destruct Hx as [Hm Hl].
  rewrite filter_cons_True by done. by rewrite IH.
Qed.

Lemma filter_snoc_absent (movie : StoredMovie) (l : list StoredMovie) :
  id movie ∉ ids l → filter (λ m, id m ≠ id movie) (l ++ [movie]) = l.
Proof.
  intros Hx. rewrite filter_app, filter_absent by done.
  rewrite filter_cons_False by (intros H; by apply H). apply app_nil_r.
Qed.

(** X14. [moveToMyList], and its twin [moveToWantToWatchList], on a store
    kept by the list calls. When no watched entry has the id, the call
    returns the loaded store and writes nothing. Otherwise the id leaves
    [watchedList] and enters [myList]; the entry is put at the end of
    [myList] with [dateAdded] set to the instant of the call and every
    other field, the rating and [dateWatched] included, as it was; no
    other id enters or leaves either list. *)
Theorem moveToMyList_moves (e : env) (st : browser) (x : string) :
  stored well_kept st →
  let s := loadMovieData e st in
  let r := moveToMyList e st x in
  moveToWantToWatchList e st x = r ∧
  if bool_decide (x ∈ ids (watchedList (lists s))) then
    (x ∉ ids (watchedList (lists r.1))) ∧
    (∃ movie, movie ∈ watchedList (lists s) ∧ id movie = x ∧
              myList (lists r.1) = myList (lists s) ++ [set_dateAdded (now e) movie]) ∧
    (∀ y, y ≠ x →
          (y ∈ ids (watchedList (lists r.1)) ↔ y ∈ ids (watchedList (lists s)))) ∧
    length (watchedList (lists r.1)) + 1 = length (watchedList (lists s)) ∧
    r.2 = (saveMovieData e st r.1).2
  else r = (s, st).
Proof.
  intros Hst s r. split; [done|].
  assert (Hload : well_kept s).
  { apply load_stored; auto using well_kept_default, well_kept_current. }
  destruct Hload as (Hdis & Hnd & Hv).
  unfold r, moveToMyList. fold s. case_bool_decide as Hx.
  - destruct (upsert_present x _ Hx) as (i & movie & Hfind & Hi & Hid).
    rewrite Hfind. simpl.
    assert (Hlook : ids (watchedList (lists s)) !! i = Some x).
    { unfold ids. rewrite list_lookup_fmap, Hi. simpl. by rewrite Hid. }
    repeat split.
    + rewrite ids_delete, (elem_of_delete_NoDup _ i x x Hnd Hlook). by intros [_ ?].
    + exists movie. repeat split; [|done]. by eapply list_elem_of_lookup_2.
    + rewrite ids_delete, (elem_of_delete_NoDup _ i x y Hnd Hlook). by intros [? _].
    + rewrite ids_delete, (elem_of_delete_NoDup _ i x y Hnd Hlook). done.
    + rewrite length_delete by (by eexists).
      apply lookup_lt_Some in Hi. lia.
  - by rewrite (upsert_absent x _ Hx).
Qed.

Lemma moveToMyList_moves_witness :
  stored well_kept (run Samples.evening (fresh true)) ∧
  "278" ∉ ids (watchedList (lists
    (moveToMyList Samples.tuesday (run Samples.evening (fresh true)) "278").1)).
Proof.
  assert (Hst : stored well_kept (run Samples.evening (fresh true))).
  { by apply (session_well_kept Samples.evening (fresh true)). }
  split; [exact Hst|].
  pose proof (moveToMyList_moves Samples.tuesday (run Samples.evening (fresh true)) "278" Hst)
    as [_ H].
  rewrite bool_decide_eq_true_2 in H by (vm_compute; apply elem_of_cons; left; reflexivity).
  by destruct H as [H _].
Defined.

(** X15. Adding a movie that is in neither list and then removing it from
    [myList] gives back the store as it was loaded before the addition,
    provided the addition could be written; and when the removal is
    written too, that store is what the next load reads. *)
Theorem add_then_remove_restores (e1 e2 e3 : env) (st : browser)
    (movieData : MovieData.t) :
  window st = true → writable e1 = true →
  let s := loadMovieData e1 st in
  MovieData.id movieData ∉ ids (myList (lists s)) →
  MovieData.id movieData ∉ ids (watchedList (lists s)) →
  let r := removeFromList e2 (addToMyList e1 st movieData).2 (MovieData.id movieData) MyList in
  r.1 = s ∧ (writable e2 = true → loadMovieData e3 r.2 = s).
Proof.
  intros Hw He1 s Hmy Hwatched r.
  pose proof (load_version e1 st) as Hv. fold s in Hv.
  assert (Hr : r.1 = s).
  { unfold r. rewrite (addToMyList_absent e1 st movieData Hmy Hwatched). fold s.
    unfold removeFromList, saveMovieData, setItem. rewrite Hw, He1. simpl.
    unfold loadMovieData at 1 2. simpl.
    rewrite bool_decide_eq_false_2 by (intros Hne; by apply Hne). simpl.
    rewrite (filter_snoc_absent (createStoredMovie e1 movieData)) by done.
    by destruct s as [[my watched blocked] profile v]. }
  split; [done|]. intros He2.
  assert (Hsaved : r.2 = (saveMovieData e2 (addToMyList e1 st movieData).2 r.1).2)
    by reflexivity.
  rewrite Hsaved, Hr.
  assert (Hw' : window (addToMyList e1 st movieData).2 = true).
  { rewrite (addToMyList_absent e1 st movieData Hmy Hwatched).
    unfold saveMovieData, setItem. by rewrite Hw, He1. }
  unfold saveMovieData, setItem. rewrite Hw', He2. simpl.
  unfold loadMovieData. simpl.
  rewrite bool_decide_eq_false_2; [done|]. intros Hne. by apply Hne.
Qed.

Lemma add_then_remove_restores_witness :
  let st := run Samples.evening (fresh true) in
  window st = true ∧ writable Samples.monday = true ∧
  (removeFromList Samples.tuesday (addToMyList Samples.monday st Samples.forrestGump).2
     "13" MyList).1
  = loadMovieData Samples.monday st.
Proof.
  split; [reflexivity|]. split; [reflexivity|].
  refine (proj1 (add_then_remove_restores Samples.monday Samples.tuesday Samples.tuesday
                   (run Samples.evening (fresh true)) Samples.forrestGump
                   eq_refl eq_refl _ _)).
  - vm_compute. intros H. apply elem_of_cons in H as [H|H]; [discriminate|].
    by apply elem_of_nil in H.
  - vm_compute. intros H. apply elem_of_cons in H as [H|H]; [discriminate|].
    by apply elem_of_nil in H.
Defined.

(** ** Reordering *)

(** X16. [reorderMyList] stores the list it is given as it is, without
    any check: whatever [newOrder] is, it becomes [myList] of the store
    the call returns, every other part of the loaded store being kept;
    when there is a [window] and the write goes through, the next load
    reads that store back. So a list that holds the id of a watched movie
    leaves a store with that id in both lists. When [newOrder] is a
    rearrangement of the current [myList] of a store kept by the other
    calls, the store stays as they keep it: no id in both lists, no id
    twice in a list. *)
Theorem reorderMyList_rearranges (e : env) (st : browser) (newOrder : list StoredMovie) :
  let s := loadMovieData e st in
  let r := reorderMyList e st newOrder in
  myList (lists r.1) = newOrder ∧
  watchedList (lists r.1) = watchedList (lists s) ∧
  blockedMovies (lists r.1) = blockedMovies (lists s) ∧
  embeddingProfile r.1 = embeddingProfile s ∧
  version r.1 = version s ∧
  (window st = true → writable e = true → ∀ e', loadMovieData e' r.2 = r.1) ∧
  (∀ x, x ∈ ids newOrder → x ∈ ids (watchedList (lists s)) → ¬ disjoint_lists r.1) ∧
  (stored tidy st → newOrder ≡ₚ myList (lists s) →
   disjoint_lists r.1 ∧ NoDup (ids (myList (lists r.1))) ∧ stored tidy r.2).
Proof.
  intros s r. do 5 (split; [done|]). split; [|split].
  - intros Hw He e'. unfold r, reorderMyList, saveMovieData, setItem, stringify.
    rewrite Hw, He. simpl. unfold loadMovieData at 1. simpl.
    rewrite bool_decide_eq_false_2; [done|]. intros Hne. apply Hne, load_version.
  - intros x Hx Hwatched Hdis. by apply (Hdis x).
  - intros Hst Hperm.
    assert (Hload : tidy s).
    { apply load_stored; auto using tidy_default, tidy_current. }
    destruct Hload as ((Hdis & Hnd & Hv) & Hmy & Hbl).
    assert (Hids : ids newOrder ≡ₚ ids (myList (lists s))).
    { unfold ids. by rewrite Hperm. }
    assert (Hd : disjoint_lists r.1).
    { intros x Hx. simpl in Hx. rewrite Hids in Hx. by apply Hdis. }
    assert (Hn : NoDup (ids (myList (lists r.1)))).
    { simpl. by rewrite Hids. }
    split; [done|]. split; [done|].
    unfold r, reorderMyList. simpl. apply save_stored; [|done].
    repeat split; done.
Qed.

Lemma reorderMyList_rearranges_witness :
  let st := run Samples.watchlist (fresh true) in
  let s := loadMovieData Samples.tuesday st in
  let newOrder := reverse (myList (lists s)) in
  let r := reorderMyList Samples.tuesday st newOrder in
  stored tidy st ∧ newOrder ≡ₚ myList (lists s) ∧
  ids (myList (lists s)) = ["550"; "13"] ∧
  ids (myList (lists r.1)) = ["13"; "550"] ∧
  loadMovieData Samples.monday r.2 = r.1 ∧
  disjoint_lists r.1 ∧ stored tidy r.2.
Proof.
  intros st s newOrder r.
  assert (Hst : stored tidy st) by (by apply (session_tidy Samples.watchlist (fresh true))).
  assert (Hperm : newOrder ≡ₚ myList (lists s)) by apply reverse_Permutation.
  destruct (reorderMyList_rearranges Samples.tuesday st newOrder)
    as (_ & _ & _ & _ & _ & Hload & _ & Hkept).
  destruct (Hkept Hst Hperm) as (Hdis & _ & Hstored).
  split; [exact Hst|]. split; [exact Hperm|]. split; [reflexivity|].
  split; [reflexivity|].
  split; [exact (Hload eq_refl eq_refl Samples.monday)|].
  split; [exact Hdis|exact Hstored].
Defined.

(** ** Loading, whatever is stored *)

(** X17. Whatever the storage holds (nothing, a text that is not JSON, the
    text [null], a document of another version or of another shape),
    [loadMovieData] returns a store tagged with the current version; and
    exporting it and importing the snapshot, when there is a [window] and
    the write goes through, leaves in the storage a document that the next
    load reads back as that very store. *)
Theorem load_is_current_and_reimports (st : browser) (e1 e2 e3 : env) :
  window st = true → writable e2 = true →
  version (loadMovieData e1 st) = STORAGE_VERSION ∧
  let imported := importData e2 st (exportData e1 st) in
  imported.1 = true ∧ loadMovieData e3 imported.2 = loadMovieData e1 st.
Proof.
  intros Hw He. split; [apply load_version|]. by apply export_import_any_state.
Qed.

Lemma load_is_current_and_reimports_witness :
  let st := mkBrowser true (Some (Document (Legacy Samples.oldStore))) in
  window st = true ∧ writable Samples.monday = true ∧
  loadMovieData Samples.tuesday
    (importData Samples.monday st (exportData Samples.monday st)).2
  = loadMovieData Samples.monday st.
Proof.
  split; [reflexivity|]. split; [reflexivity|].
  exact (proj2 (proj2 (load_is_current_and_reimports
                         (mkBrowser true (Some (Document (Legacy Samples.oldStore))))
                         Samples.monday Samples.monday Samples.tuesday eq_refl eq_refl))).
Defined.

Lemma when_present_stored (now : string) (l : list StoredMovie)
    (setter : list StoredMovie → MovieStorage → MovieStorage) (s : MovieStorage) :
  when_present (Some (OldData.Array (Some ∘ asOldMovie <$> l)))
    (λ v s, (λ movies, setter movies s) <$> mapMovies now v) s
  = Some (setter (migrateMovie now ∘ asOldMovie <$> l) s).
Proof.
  unfold when_present, mapMovies. cbn [truthy entries_truthy].
  rewrite (list_fmap_compose asOldMovie Some), StorageFacts.mapM_present.
  cbn. by rewrite <- list_fmap_compose.
Qed.

Lemma ids_migrate (now : string) (l : list StoredMovie) :
  ids (migrateMovie now <$> (asOldMovie <$> l)) = ids l.
Proof. unfold ids. rewrite <- !list_fmap_compose. by apply list_fmap_ext. Qed.

(** X18. A document of the current shape whose version tag is not the
    current one is migrated on load: the ids of the two lists, in their
    order, and the blocked ids are kept, and so is every field of an entry
    but two: a missing [dateAdded] becomes the instant of the load, and
    [dateWatched] is dropped from every entry. The embedding profile is
    emptied and the tag becomes the current one. *)
Theorem other_version_is_migrated (e : env) (st : browser) (parsed : MovieStorage) :
  window st = true → item st = Some (Document (Current parsed)) →
  version parsed ≠ STORAGE_VERSION →
  let s := loadMovieData e st in
  let migrated (m : StoredMovie) :=
    mkStoredMovie (id m) (title m) (year m) (genre m) (poster m) (rating m)
      (if truthy (dateAdded m) then dateAdded m else now e) None in
  myList (lists s) = migrated <$> myList (lists parsed) ∧
  watchedList (lists s) = migrated <$> watchedList (lists parsed) ∧
  blockedMovies (lists s) = blockedMovies (lists parsed) ∧
  embeddingProfile s = [] ∧
  version s = STORAGE_VERSION.
Proof.
  intros Hw Hitem Hv s migrated. unfold s, loadMovieData. rewrite Hw, Hitem. simpl.
  rewrite bool_decide_eq_true_2 by done.
  unfold migrateFromOldVersion, migrate, asOldData. cbn [OldData.lists OldData.myList].
  rewrite when_present_stored. cbn [mbind option_bind OldData.watchedList].
  rewrite when_present_stored. simpl. done.
Qed.

Lemma other_version_is_migrated_witness :
  let st := mkBrowser true (Some (Document (Current Samples.versionOne))) in
  window st = true ∧ item st = Some (Document (Current Samples.versionOne)) ∧
  version Samples.versionOne ≠ STORAGE_VERSION ∧
  version (loadMovieData Samples.tuesday st) = STORAGE_VERSION ∧
  blockedMovies (lists (loadMovieData Samples.tuesday st)) = ["13"].
Proof.
  assert (Hv : version Samples.versionOne ≠ STORAGE_VERSION) by (intros H; discriminate H).
  split; [reflexivity|]. split; [reflexivity|]. split; [exact Hv|].
  pose proof (other_version_is_migrated Samples.tuesday
                (mkBrowser true (Some (Document (Current Samples.versionOne))))
                Samples.versionOne eq_refl eq_refl Hv) as (_ & _ & Hb & _ & Hver).
  split; [exact Hver|exact Hb].
Defined.

(** ** Statistics *)





(** Three watched movies rated 4.2, 4.7 and 4.4: the mean, 4.4333..., gives
    4.4. *)
Lemma getUserStats_rounds :
  let st := run Samples.ratings (fresh true) in
  averageRating (getUserStats Samples.tuesday st) = Q2Qc (44 # 10) ∧
  totalMoviesRated (getUserStats Samples.tuesday st) = 3.
Proof. split; [apply Qc_is_canon; vm_compute|]; reflexivity. Qed.

(** ** Writes that fail *)

(** X20. A write that fails is silent. Without a [window], no call changes
    what is stored; and on a call whose [localStorage.setItem] throws,
    every mutator leaves the storage as it found it, although it returns
    the store with the change applied. Only [clearAllData], which removes
    the item and writes nothing, gets through. *)
Theorem failed_write_leaves_storage (e : env) (c : call) (st : browser) :
  window st = false ∨ (writable e = false ∧ not_clear c = true) →
  (perform e c st).2 = st.
Proof.
  intros Hfail.
  assert (Hsave : ∀ s, (saveMovieData e st s).2 = st).
  { intros s. unfold saveMovieData, setItem.
    destruct Hfail as [->|[-> _]]; [done|]. by destruct (window st). }
  destruct c; simpl.
  - unfold addToWantToWatchList. destruct (_ && _); simpl; [apply Hsave|done].
  - unfold addToMyList. destruct (_ && _); simpl; [apply Hsave|done].
  - apply Hsave.
  - apply Hsave.
  - unfold moveToWantToWatchList.
    destruct (list_find _ _) as [[i movie]|]; simpl; [apply Hsave|done].
  - unfold moveToMyList.
    destruct (list_find _ _) as [[i movie]|]; simpl; [apply Hsave|done].
  - apply Hsave.
  - unfold blockMovie. destruct (negb _); simpl; [apply Hsave|done].
  - destruct Hfail as [Hw|[_ Hc]]; [|done]. unfold clearAllData. by rewrite Hw.
Qed.

Lemma failed_write_leaves_storage_witness :
  let st := run Samples.evening (fresh true) in
  (window st = false ∨
   (writable Samples.fullDisk = false ∧ not_clear (BlockMovie "13") = true)) ∧
  (perform Samples.fullDisk (BlockMovie "13") st).2 = st ∧
  (∃ storage, (perform Samples.fullDisk (BlockMovie "13") st).1 = Some storage ∧
              "13" ∈ blockedMovies (lists storage)).
Proof.
  assert (H : window (run Samples.evening (fresh true)) = false ∨
              (writable Samples.fullDisk = false ∧ not_clear (BlockMovie "13") = true))
    by (right; split; reflexivity).
  split; [exact H|]. split.
  - exact (failed_write_leaves_storage Samples.fullDisk (BlockMovie "13")
             (run Samples.evening (fresh true)) H).
  - eexists. split; [reflexivity|]. vm_compute. apply elem_of_cons. left. reflexivity.
Defined.

End StoreFacts.

(** * Properties of the exclusion filter and of the fetchers *)

Module AssemblerFacts.
Import JS Recommendations JSFacts TmdbFacts ProviderFacts.

(** ** The exclusion set *)

Lemma toString_nonempty (n : number) : truthy (toString n) = true.
Proof.
  destruct n as [|[|x|x]]; [done|done|..]; simpl;
    unfold pretty, pretty_Z, pretty, pretty_positive, pretty, pretty_N;
    rewrite decide_False by done.
  - pose proof (pretty_N_go_nonempty (N.pos x) ltac:(done)) as H.
    by destruct (pretty_N_go (N.pos x) "").
  - done.
Qed.

Lemma elem_of_collect {A} (g : A → string) (l : list A) (acc : gset string) (x : string) :
  x ∈ foldl (λ excludedIds y, if truthy (g y) then {[g y]} ∪ excludedIds else excludedIds)
        acc l
  ↔ x ∈ acc ∨ (truthy x = true ∧ x ∈ g <$> l).
Proof.
  revert acc. induction l as [|y l IH]; intros acc; simpl.
  - split; [auto|]. intros [H|[_ H]]; [done|]. by apply elem_of_nil in H.
  - rewrite IH, elem_of_cons. destruct (truthy (g y)) eqn:Hy.
    + rewrite elem_of_union, elem_of_singleton. split.
      * intros [[->|H]|[Ht H]]; auto.
      * intros [H|[Ht [->|H]]]; auto.
    + split.
      * intros [H|[Ht H]]; auto.
      * intros [H|[Ht [->|H]]]; auto. congruence.
Qed.

Lemma elem_of_excludedIds (userLists : UserLists.t) (x : string) :
  x ∈ excludedIds_of userLists
  ↔ truthy x = true ∧
    (x ∈ UserLists.id <$> UserLists.watchedList userLists ∨
     x ∈ UserLists.blockedMovies userLists).
Proof.
  unfold excludedIds_of.
  rewrite (elem_of_collect (λ movieId, movieId)), (elem_of_collect UserLists.id).
  rewrite list_fmap_id. split.
  - intros [[H|[Ht H]]|[Ht H]]; auto. by apply elem_of_empty in H.
  - intros [Ht [H|H]]; auto.
Qed.

Lemma kept_spec (userLists : UserLists.t) (entry : option Tmdb.TMDBMovie) :
  kept (excludedIds_of userLists) entry = true
  ↔ ∃ movie, entry = Some movie ∧ truthy (Tmdb.id movie) = true ∧
       (toString (Tmdb.id movie) ∉ UserLists.id <$> UserLists.watchedList userLists) ∧
       (toString (Tmdb.id movie) ∉ UserLists.blockedMovies userLists).
Proof.
  destruct entry as [movie|]; simpl; [|split; [done|by intros (m & ? & _)]].
  rewrite andb_true_iff, negb_true_iff, bool_decide_eq_false, elem_of_excludedIds.
  split.
  - intros [Ht Hx]. exists movie. repeat split; [done|..]; intros H; apply Hx;
      (split; [apply toString_nonempty|auto]).
  - intros (m & [= <-] & Ht & Hw & Hb). split; [done|]. intros [_ [H|H]]; auto.
Qed.

Lemma elem_of_List_filter {A} (f : A → bool) (l : list A) (x : A) :
  x ∈ List.filter f l ↔ x ∈ l ∧ f x = true.
Proof. by rewrite !list_elem_of_In, filter_In. Qed.

Lemma sublist_List_filter {A} (f : A → bool) (l : list A) : sublist (List.filter f l) l.
Proof.
  induction l as [|a l IH]; simpl; [constructor|].
  destruct (f a); by constructor.
Qed.

(** X21. [filterExcludedMovies] keeps the entries in their order and drops
    exactly those that are [null], those whose id is falsy (0 or [NaN]),
    and those whose id, written as a string, is the id of a watched entry
    or a blocked id. Without user lists the movies come back as they are,
    and without movies the result is empty. *)
Theorem filterExcludedMovies_keeps (movies : list (option Tmdb.TMDBMovie))
    (userLists : UserLists.t) :
  let filtered := filterExcludedMovies (Some movies) (Some userLists) in
  sublist filtered movies ∧
  (∀ entry, entry ∈ filtered ↔
     entry ∈ movies ∧
     ∃ movie, entry = Some movie ∧ truthy (Tmdb.id movie) = true ∧
       (toString (Tmdb.id movie) ∉ UserLists.id <$> UserLists.watchedList userLists) ∧
       (toString (Tmdb.id movie) ∉ UserLists.blockedMovies userLists)) ∧
  filterExcludedMovies (Some movies) None = movies ∧
  filterExcludedMovies None (Some userLists) = [].
Proof.
  intros filtered. unfold filtered, filterExcludedMovies.
  destruct movies as [|entry0 movies]; simpl length; cbn [Nat.eqb].
  - split; [constructor|]. split; [|done]. intros entry.
    split; [by intros ?%elem_of_nil|by intros [?%elem_of_nil _]].
  - split; [apply sublist_List_filter|]. split; [|done].
    intros entry. by rewrite elem_of_List_filter, kept_spec.
Qed.

(** ** The fetchers *)

Lemma convert_all_spec (f : Tmdb.TMDBMovie → SimpleMovie)
    (movies : list (option Tmdb.TMDBMovie)) (st : Tmdb.state) :
  match convert_all f movies st with
  | (Tmdb.Return converted, st') =>
      st' = st ∧ ∃ ms, movies = Some <$> ms ∧ converted = f <$> ms
  | (Tmdb.Throw _, st') => st' = st
  end.
Proof.
  induction movies as [|[movie|] movies IH]; simpl.
  - split; [done|]. by exists [].
  - unfold mbind, Tmdb.M_bind.
    destruct (convert_all f movies st) as [[converted|error] st']; simpl; [|done].
    destruct IH as [-> (ms & -> & ->)]. split; [done|]. by exists (movie :: ms).
  - done.
Qed.

(** What a fetcher hands out: at most ten movies, each converted from an
    entry that passed the exclusion filter. *)
Lemma converted_spec (f : Tmdb.TMDBMovie → SimpleMovie)
    (userLists : UserLists.t) (movies : option (list (option Tmdb.TMDBMovie)))
    (st : Tmdb.state) :
  match convert_all f (take 10 (filterExcludedMovies movies (Some userLists))) st with
  | (Tmdb.Return converted, _) =>
      length converted ≤ 10 ∧
      ∀ m, m ∈ converted →
        ∃ movie, m = f movie ∧ kept (excludedIds_of userLists) (Some movie) = true
  | (Tmdb.Throw _, _) => True
  end.
Proof.
  pose proof (convert_all_spec f
                (take 10 (filterExcludedMovies movies (Some userLists))) st) as H.
  destruct (convert_all f _ st) as [[converted|error] st']; [|done].
  destruct H as [_ (ms & Hms & ->)]. split.
  - rewrite length_fmap, <- (length_fmap Some), <- Hms, length_take. lia.
  - intros m (movie & -> & Hmovie)%list_elem_of_fmap. exists movie. split; [done|].
    assert (Hin : Some movie ∈ take 10 (filterExcludedMovies movies (Some userLists))).
    { rewrite Hms. apply list_elem_of_fmap. eauto. }
    apply elem_of_take in Hin. unfold filterExcludedMovies in Hin.
    destruct movies as [movies|]; [|by apply elem_of_nil in Hin].
    destruct (length movies =? 0); [by apply elem_of_nil in Hin|].
    by apply elem_of_List_filter in Hin as [_ Hin].
Qed.


Lemma fetched_nil (userLists : UserLists.t) : fetched userLists [].
Proof. split; [simpl; lia|]. by intros m ?%elem_of_nil. Qed.

Lemma fetched_converted (p : Tmdb.platform) (synopsis : Tmdb.TMDBMovie → string)
    (userLists : UserLists.t) (movies : option (list (option Tmdb.TMDBMovie)))
    (st : Tmdb.state) :
  match convert_all (λ movie, simple p movie (synopsis movie))
          (take 10 (filterExcludedMovies movies (Some userLists))) st with
  | (Tmdb.Return converted, _) => fetched userLists converted
  | (Tmdb.Throw _, _) => True
  end.
Proof.
  pose proof (converted_spec (λ movie, simple p movie (synopsis movie)) userLists movies st)
    as H.
  destruct (convert_all _ _ st) as [[converted|error] st']; [|done].
  destruct H as [Hlen Hall]. split; [done|].
  intros m Hm. destruct (Hall m Hm) as (movie & -> & Hk). by exists movie.
Qed.

(** A body wrapped in a handler that answers with the empty list. *)
Lemma fetched_try_catch (userLists : UserLists.t) (body : Tmdb.M (list SimpleMovie))
    (st : Tmdb.state) :
  match body st with
  | (Tmdb.Return l, _) => fetched userLists l
  | (Tmdb.Throw _, _) => True
  end →
  ∃ l st', Tmdb.try_catch body (λ _, mret []) st = (Tmdb.Return l, st') ∧
           fetched userLists l.
Proof.
  intros H. unfold Tmdb.try_catch. destruct (body st) as [[l|error] st']; [eauto|].
  eexists _, _. split; [done|]. apply fetched_nil.
Qed.

Lemma getPopularRecommendations_fetched (p : Tmdb.platform) (e : Tmdb.env)
    (userLists : UserLists.t) (st : Tmdb.state) :
  ∃ l st', getPopularRecommendations p e (Some userLists) st = (Tmdb.Return l, st') ∧
           fetched userLists l.
Proof.
  apply fetched_try_catch. unfold mbind, Tmdb.M_bind.
  destruct (Tmdb.getPopularMovies e (Int 1) st) as [[response|error] st1]; [|done].
  destruct (results response) as [movies|]; [|done].
  apply (fetched_converted p
           (λ movie, or_else (Tmdb.overview movie) "No description available")
           userLists (Some movies)).
Qed.

Lemma getTrendingRecommendations_fetched (p : Tmdb.platform) (e : Tmdb.env)
    (userLists : UserLists.t) (st : Tmdb.state) :
  ∃ l st', getTrendingRecommendations p e (Some userLists) st = (Tmdb.Return l, st') ∧
           fetched userLists l.
Proof.
  apply fetched_try_catch. unfold mbind, Tmdb.M_bind.
  destruct (Tmdb.getTrendingMovies e Tmdb.week st) as [[response|error] st1]; [|done].
  simpl. apply (fetched_converted p Tmdb.overview userLists (results response)).
Qed.

Lemma getTopRatedRecommendations_fetched (p : Tmdb.platform) (e : Tmdb.env)
    (userLists : UserLists.t) (st : Tmdb.state) :
  ∃ l st', getTopRatedRecommendations p e (Some userLists) st = (Tmdb.Return l, st') ∧
           fetched userLists l.
Proof.
  apply fetched_try_catch. unfold mbind, Tmdb.M_bind.
  destruct (Tmdb.getTopRatedMovies e (Int 1) st) as [[response|error] st1]; [|done].
  simpl. apply (fetched_converted p Tmdb.overview userLists (results response)).
Qed.

Lemma getBasicRecommendations_fetched (p : Tmdb.platform) (e : Tmdb.env)
    (userLists : UserLists.t) (st : Tmdb.state) :
  ∃ l st', getBasicRecommendations p e (Some userLists) st = (Tmdb.Return l, st') ∧
           fetched userLists l.
Proof.
  apply fetched_try_catch. unfold mbind, Tmdb.M_bind.
  destruct (getPopularRecommendations_fetched p e userLists st) as (l & st1 & -> & Hl).
  case_bool_decide; [done|].
  by destruct (getTrendingRecommendations_fetched p e userLists st1) as (l' & st2 & -> & Hl').
Qed.

Lemma fetched_not_excluded (userLists : UserLists.t) (l : list SimpleMovie)
    (m : SimpleMovie) :
  fetched userLists l → m ∈ l →
  (id m ∉ UserLists.id <$> UserLists.watchedList userLists) ∧
  (id m ∉ UserLists.blockedMovies userLists).
Proof.
  intros [_ Hall] Hm. destruct (Hall m Hm) as (movie & -> & Hk).
  apply kept_spec in Hk as (movie' & [= <-] & _ & Hw & Hb). done.
Qed.

(** X22. The fetchers of the assembler, each handed the user's lists:
    [getPopularRecommendations], [getTrendingRecommendations],
    [getTopRatedRecommendations] and [getBasicRecommendations]. Whatever
    the provider answers (a refusal, a body without results, [null]
    entries), none of them raises; each returns at most ten movies, and
    none of these has the id of a watched entry or a blocked id. *)
Theorem fetchers_never_raise_and_filter (p : Tmdb.platform) (e : Tmdb.env)
    (userLists : UserLists.t) (st : Tmdb.state) :
  Forall
    (λ fetcher : option UserLists.t → Tmdb.M (list SimpleMovie),
       ∃ l st',
         fetcher (Some userLists) st = (Tmdb.Return l, st') ∧
         length l ≤ 10 ∧
         ∀ m, m ∈ l →
           (id m ∉ UserLists.id <$> UserLists.watchedList userLists) ∧
           (id m ∉ UserLists.blockedMovies userLists))
    [ getPopularRecommendations p e;
      getTrendingRecommendations p e;
      getTopRatedRecommendations p e;
      getBasicRecommendations p e ].
Proof.
  assert (Hwrap : ∀ (fetcher : option UserLists.t → Tmdb.M (list SimpleMovie)),
            (∃ l st', fetcher (Some userLists) st = (Tmdb.Return l, st') ∧
                      fetched userLists l) →
            ∃ l st',
              fetcher (Some userLists) st = (Tmdb.Return l, st') ∧
              length l ≤ 10 ∧
              ∀ m, m ∈ l →
                (id m ∉ UserLists.id <$> UserLists.watchedList userLists) ∧
                (id m ∉ UserLists.blockedMovies userLists)).
  { intros fetcher (l & st' & Hr & Hl). exists l, st'. split; [done|].
    split; [by destruct Hl|]. intros m Hm. by apply (fetched_not_excluded userLists l). }
  repeat first [apply List.Forall_cons | apply List.Forall_nil]; apply Hwrap.
  - apply getPopularRecommendations_fetched.
  - apply getTrendingRecommendations_fetched.
  - apply getTopRatedRecommendations_fetched.
  - apply getBasicRecommendations_fetched.
Qed.


(** ** Mixing categories that share no movie *)

Lemma addCategory_fresh (categoryMovies mixed : list SimpleMovie)
    (addedIds : gset string) (added : nat) :
  NoDup (id <$> categoryMovies) →
  (∀ x, x ∈ id <$> categoryMovies → x ∉ addedIds) →
  added ≤ maxPerCategory →
  ∃ addedIds',
    addCategory categoryMovies mixed addedIds added
    = (mixed ++ take (maxPerCategory - added) categoryMovies, addedIds') ∧
    ∀ x, x ∈ addedIds' → x ∈ id <$> categoryMovies ∨ x ∈ addedIds.
Proof.
  revert mixed addedIds added.
  induction categoryMovies as [|movie rest IH]; intros mixed addedIds added Hnd Hfresh Hk.
  - exists addedIds. simpl. rewrite take_nil, app_nil_r. auto.
  - rewrite fmap_cons in Hnd, Hfresh. apply NoDup_cons in Hnd as [Hmovie Hnd].
    simpl. rewrite bool_decide_eq_false_2 by (apply Hfresh, elem_of_cons; by left).
    simpl. case_bool_decide as Hlt.
    + destruct (IH (mixed ++ [movie]) ({[id movie]} ∪ addedIds) (S added) Hnd)
        as (addedIds' & Hr & Hin).
      { intros x Hx [->%elem_of_singleton|Hx']%elem_of_union; [done|].
        apply (Hfresh x); [apply elem_of_cons; by right|done]. }
      { unfold maxPerCategory in *. lia. }
      exists addedIds'. split.
      * rewrite Hr, <- app_assoc. f_equal. simpl.
        unfold maxPerCategory in *.
        replace (4 - added) with (S (4 - S added)) by lia. done.
      * intros x Hx. rewrite ?fmap_cons. rewrite elem_of_cons.
        destruct (Hin x Hx) as [H|[->%elem_of_singleton|H]%elem_of_union]; auto.
    + destruct (IH mixed addedIds added Hnd) as (addedIds' & Hr & Hin).
      { intros x Hx. apply Hfresh, elem_of_cons. by right. }
      { done. }
      exists addedIds'. split.
      * rewrite Hr. unfold maxPerCategory in *.
        replace (4 - added) with 0 by lia. done.
      * intros x Hx. rewrite ?fmap_cons. rewrite elem_of_cons.
        destruct (Hin x Hx) as [H|H]; auto.
Qed.

(** X23. When the three categories hold no movie twice, within a category
    or across them, [getMixedRecommendations] returns the first four
    popular movies, then the first four trending ones, then the first four
    top rated ones, cut after ten entries: with two full categories before
    it, the top rated category is left with two places. *)
Theorem mixed_of_distinct_categories (popular trending topRated : list SimpleMovie) :
  NoDup (id <$> (popular ++ trending ++ topRated)) →
  getMixedRecommendations popular trending topRated
  = take 10 (take 4 popular ++ take 4 trending ++ take 4 topRated).
Proof.
  rewrite !fmap_app. intros Hnd.
  apply NoDup_app in Hnd as (Hp & Hpx & Hnd).
  apply NoDup_app in Hnd as (Ht & Htx & Hr).
  unfold getMixedRecommendations. simpl.
  destruct (addCategory_fresh popular [] ∅ 0 Hp) as (ids1 & -> & Hin1).
  { intros x _. apply not_elem_of_empty. }
  { unfold maxPerCategory. lia. }
  simpl.
  destruct (addCategory_fresh trending (take 4 popular) ids1 0 Ht) as (ids2 & -> & Hin2).
  { intros x Hx Hx1. destruct (Hin1 x Hx1) as [H|H]; [|by apply elem_of_empty in H].
    apply (Hpx x H). apply elem_of_app. by left. }
  { unfold maxPerCategory. lia. }
  simpl.
  destruct (addCategory_fresh topRated (take 4 popular ++ take 4 trending) ids2 0 Hr)
    as (ids3 & -> & Hin3).
  { intros x Hx Hx2. destruct (Hin2 x Hx2) as [H|H].
    - by apply (Htx x H).
    - destruct (Hin1 x H) as [H'|H']; [|by apply elem_of_empty in H'].
      apply (Hpx x H'). apply elem_of_app. by right. }
  { unfold maxPerCategory. lia. }
  simpl. by rewrite <- app_assoc.
Qed.

Lemma mixed_of_distinct_categories_witness :
  let popular := Samples.simpleMovie <$> ["1"; "2"; "3"; "4"; "5"] in
  let trending := Samples.simpleMovie <$> ["6"; "7"; "8"; "9"; "10"] in
  let topRated := Samples.simpleMovie <$> ["11"; "12"; "13"] in
  NoDup (id <$> (popular ++ trending ++ topRated)) ∧
  id <$> getMixedRecommendations popular trending topRated
  = ["1"; "2"; "3"; "4"; "6"; "7"; "8"; "9"; "11"; "12"].
Proof.
  assert (H : NoDup (id <$> ((Samples.simpleMovie <$> ["1"; "2"; "3"; "4"; "5"])
                             ++ (Samples.simpleMovie <$> ["6"; "7"; "8"; "9"; "10"])
                             ++ (Samples.simpleMovie <$> ["11"; "12"; "13"]))))
    by compute_done.
  split; [exact H|].
  rewrite (mixed_of_distinct_categories
             (Samples.simpleMovie <$> ["1"; "2"; "3"; "4"; "5"])
             (Samples.simpleMovie <$> ["6"; "7"; "8"; "9"; "10"])
             (Samples.simpleMovie <$> ["11"; "12"; "13"]) H).
  reflexivity.
Defined.

End AssemblerFacts.

(** * Properties of the integration layer *)

Module ServiceFacts.
Import JS Recommendations RecommendationService JSFacts TmdbFacts ProviderFacts AssemblerFacts.

Lemma slice0_positive {A} (limit : Z) (l : list A) :
  (0 < limit)%Z → l ≠ [] →
  slice0 limit l ≠ [] ∧ length (slice0 limit l) ≤ Z.to_nat limit ∧
  ∀ x, x ∈ slice0 limit l → x ∈ l.
Proof.
  intros Hlimit Hl. unfold slice0.
  destruct (Z.ltb_spec limit 0) as [?|_]; [lia|].
  assert (Hn : ∃ n, Z.to_nat limit = S n) by (exists (Z.to_nat limit - 1); lia).
  destruct Hn as [n ->]. repeat split.
  - by destruct l.
  - rewrite length_take. lia.
  - apply elem_of_take.
Qed.

Lemma elem_of_convertToUIFormat (se : MovieStorage.env) (b : MovieStorage.browser)
    (movies : list SimpleMovie) (limit : Z) (r : UIRecommendation) :
  r ∈ convertToUIFormat se b movies limit →
  ∃ m, m ∈ slice0 limit movies ∧ id r = Recommendations.id m.
Proof.
  unfold convertToUIFormat. intros (m & -> & Hm)%list_elem_of_fmap. by exists m.
Qed.

(** The two ways out of [getRecommendationsForUI]: the provider's movies
    in the format of the UI, or the offline entries. *)
Lemma getRecommendationsForUI_returns (p : Tmdb.platform) (se : MovieStorage.env)
    (b : MovieStorage.browser) (e : Tmdb.env) (limit : Z) (st : Tmdb.state) :
  ∃ recommendations st',
    getRecommendationsForUI p se b e limit st = (Tmdb.Return recommendations, st') ∧
    (recommendations = getFallbackRecommendations limit ∨
     ∃ l, fetched (userLists_of (MovieStorage.loadMovieData se b)) l ∧ l ≠ [] ∧
          recommendations = convertToUIFormat se b l limit).
Proof.
  unfold getRecommendationsForUI, Tmdb.try_catch, mbind, Tmdb.M_bind.
  destruct (getBasicRecommendations_fetched p e
              (userLists_of (MovieStorage.loadMovieData se b)) st) as (l & st1 & -> & Hl).
  case_bool_decide as Hlen; simpl.
  - eexists _, st1. split; [done|]. right. exists l.
    split; [exact Hl|]. split; [|done]. intros ->. simpl in Hlen. lia.
  - eexists _, st1. split; [done|]. by left.
Qed.

(** X24. [getRecommendationsForUI], asked for at least one recommendation
    ([limit] is a whole number), always answers with at least one and
    never raises, whatever the provider and the storage do; it answers
    with no more than it was asked for. Every recommendation it returns is
    either one of the five hardcoded offline entries, or a movie of the
    provider whose id is neither the id of a watched entry nor a blocked
    id of the store. *)
Theorem ui_recommendations_never_empty (p : Tmdb.platform) (se : MovieStorage.env)
    (b : MovieStorage.browser) (e : Tmdb.env) (limit : Z) (st : Tmdb.state) :
  (0 < limit)%Z →
  let storage := MovieStorage.loadMovieData se b in
  ∃ recommendations st',
    getRecommendationsForUI p se b e limit st = (Tmdb.Return recommendations, st') ∧
    recommendations ≠ [] ∧
    length recommendations ≤ Z.to_nat limit ∧
    ∀ r, r ∈ recommendations →
      r ∈ hardcodedRecommendations ∨
      ((id r ∉ MovieStorage.id <$> MovieStorage.watchedList (MovieStorage.lists storage)) ∧
       (id r ∉ MovieStorage.blockedMovies (MovieStorage.lists storage))).
Proof.
  intros Hlimit storage.
  destruct (getRecommendationsForUI_returns p se b e limit st)
    as (recommendations & st' & Hr & Hcase).
  exists recommendations, st'. split; [done|].
  destruct Hcase as [->|(l & Hl & Hne & ->)].
  - destruct (slice0_positive limit hardcodedRecommendations Hlimit) as (H1 & H2 & H3);
      [done|].
    split; [done|]. split; [done|]. intros r Hr'. left. by apply H3.
  - destruct (slice0_positive limit l Hlimit Hne) as (Hs1 & Hs2 & Hs3).
    split; [|split].
    + unfold convertToUIFormat. intros Hnil. apply fmap_nil_inv in Hnil. done.
    + unfold convertToUIFormat. by rewrite length_fmap.
    + intros r Hr'. right.
      apply elem_of_convertToUIFormat in Hr' as (m & Hm & ->).
      destruct (fetched_not_excluded _ l m Hl (Hs3 m Hm)) as [Hw Hb].
      unfold userLists_of in Hw, Hb. simpl in Hw, Hb.
      rewrite <- list_fmap_compose in Hw. done.
Qed.

Lemma ui_recommendations_never_empty_witness :
  let p := Tmdb.mkPlatform (λ q, q) (λ _, NaN) in
  (0 < 3)%Z ∧
  ∃ recommendations st',
    getRecommendationsForUI p Samples.tuesday (MovieStorage.fresh true) Samples.offline 3
      Tmdb.initial
    = (Tmdb.Return recommendations, st') ∧
    recommendations ≠ [] ∧ length recommendations ≤ Z.to_nat 3.
Proof.
  split; [reflexivity|].
  destruct (ui_recommendations_never_empty (Tmdb.mkPlatform (λ q, q) (λ _, NaN))
              Samples.tuesday (MovieStorage.fresh true) Samples.offline 3 Tmdb.initial
              eq_refl) as (recommendations & st' & Hr & Hne & Hlen & _).
  exists recommendations, st'. split; [exact Hr|]. split; [exact Hne|exact Hlen].
Defined.

(** X25. [getSingleRecommendation] never resolves to [null]: whatever the
    provider and the storage do, it returns a recommendation. *)
Theorem getSingleRecommendation_is_some (p : Tmdb.platform) (se : MovieStorage.env)
    (b : MovieStorage.browser) (e : Tmdb.env) (st : Tmdb.state) :
  ∃ r st', getSingleRecommendation p se b e st = (Tmdb.Return (Some r), st').
Proof.
  destruct (getRecommendationsForUI_returns p se b e 1 st)
    as (recommendations & st' & Hr & Hcase).
  unfold getSingleRecommendation, mbind, Tmdb.M_bind. rewrite Hr.
  destruct Hcase as [->|(l & _ & Hne & ->)].
  - eexists _, st'. reflexivity.
  - destruct l as [|m l]; [done|]. eexists _, st'. reflexivity.
Qed.

(** X26. When every request to the provider fails, [getRecommendationsForUI]
    answers with the hardcoded offline entries, cut to [limit], whatever the
    store holds: the offline list is not filtered, and a movie the user
    has watched or blocked is recommended all the same. *)
Theorem offline_recommendations_ignore_lists (p : Tmdb.platform) (se : MovieStorage.env)
    (b : MovieStorage.browser) (e : Tmdb.env) (limit : Z) (st : Tmdb.state) :
  (∀ url n, Tmdb.provider_url url = true → Tmdb.failed (Tmdb.net e url n) = true) →
  (getRecommendationsForUI p se b e limit st).1
  = Tmdb.Return (slice0 limit hardcodedRecommendations).
Proof.
  intros Hfail.
  unfold getRecommendationsForUI, Tmdb.try_catch, mbind, Tmdb.M_bind.
  unfold getBasicRecommendations, getPopularRecommendations, getTrendingRecommendations,
    Tmdb.try_catch, mbind, Tmdb.M_bind.
  destruct (getPopularMovies_fails e Hfail (Int 1) st) as (error & st1 & -> & _). simpl.
  by destruct (getTrendingMovies_fails e Hfail Tmdb.week st1) as (error' & st2 & -> & _).
Qed.

Lemma offline_recommendations_ignore_lists_witness :
  let p := Tmdb.mkPlatform (λ q, q) (λ _, NaN) in
  let b := MovieStorage.run Samples.evening (MovieStorage.fresh true) in
  (∀ url n, Tmdb.provider_url url = true →
            Tmdb.failed (Tmdb.net Samples.offline url n) = true) ∧
  "278" ∈ MovieStorage.ids
            (MovieStorage.watchedList
               (MovieStorage.lists (MovieStorage.loadMovieData Samples.tuesday b))) ∧
  id <$> match (getRecommendationsForUI p Samples.tuesday b Samples.offline 2
                  Tmdb.initial).1 with
         | Tmdb.Return recommendations => recommendations
         | Tmdb.Throw _ => []
         end
  = ["550"; "278"].
Proof.
  assert (H : ∀ url n, Tmdb.provider_url url = true →
                       Tmdb.failed (Tmdb.net Samples.offline url n) = true)
    by (intros url n _; reflexivity).
  split; [exact H|].
  split; [vm_compute; apply elem_of_cons; left; reflexivity|].
  rewrite (offline_recommendations_ignore_lists (Tmdb.mkPlatform (λ q, q) (λ _, NaN))
             Samples.tuesday (MovieStorage.run Samples.evening (MovieStorage.fresh true))
             Samples.offline 2 Tmdb.initial H).
  reflexivity.
Defined.

End ServiceFacts.
